(** * Tescord: registry, event propagation, locale merge and custom-data codec

    A shallow embedding of the routing core of the repository:
    - [JS]: the JavaScript values the code relies on (strings as UTF-16
      code units, insertion-ordered [Map]/[Collection], [split]/[join]);
    - [Codec]: [encodeCustomDataSync] / [parseCustomDataSync];
    - [Call]: listener and handler calls, threaded through a run state;
    - [Emitter]: [ResultEventEmitter], its emissions in one piece and
      resumed step by step;
    - [LocaleStore]: [Locale.deepMerge] and the per-language merge;
    - [Pattern], [Inspector]: pattern expansion and the inspector;
    - [PackTree]: [Pack] registration and event propagation;
    - [Stuffs], [Root]: [refresh], [pushCache], the dispatch of slash
      commands, context menus and components, and the localization
      objects;
    - [Publish]: two helpers of utils/publishInteractions.

    The definitions come first, the theorems after them. *)

From Stdlib Require Import Ascii String DecimalString DecimalPos DecimalZ.
From Stdlib Require Import List Bool Arith ZArith NArith Lia.
From Stdlib Require Import Permutation.
Import ListNotations.

Set Implicit Arguments.
Set Warnings "-register-all".

(* ------------------------------------------------------------------ *)
(** ** JavaScript strings and keyed collections *)

Module JS.

(** A JavaScript string is a sequence of UTF-16 code units; [length],
    [split], [startsWith] and [substring] all count code units. *)
Definition code_unit := N.
Definition jsstring := list code_unit.

(** An ASCII literal as a JavaScript string. *)
Definition js (s : string) : jsstring :=
  map N_of_ascii (list_ascii_of_string s).

Fixpoint jsstring_eqb (a b : jsstring) : bool :=
  match a, b with
  | [], [] => true
  | x :: a', y :: b' => N.eqb x y && jsstring_eqb a' b'
  | _, _ => false
  end.

(** [s.split(sep)] for a separator made of one code unit. *)
Fixpoint split (sep : code_unit) (s : jsstring) : list jsstring :=
  match s with
  | [] => [[]]
  | c :: s' =>
      if N.eqb c sep then [] :: split sep s'
      else match split sep s' with
           | [] => [[c]]
           | p :: ps => (c :: p) :: ps
           end
  end.

(** [parts.join(sep)]. *)
Fixpoint join (sep : jsstring) (parts : list jsstring) : jsstring :=
  match parts with
  | [] => []
  | [p] => p
  | p :: ps => p ++ sep ++ join sep ps
  end.

(** A [Map] (discord.js [Collection]) keeps its keys in insertion order;
    [set] on a present key replaces the value where the key already sits. *)
Section Collection.
Variable V : Type.

Definition Collection := list (jsstring * V).

Fixpoint get (k : jsstring) (m : Collection) : option V :=
  match m with
  | [] => None
  | (k', v) :: m' => if jsstring_eqb k k' then Some v else get k m'
  end.

Definition has (k : jsstring) (m : Collection) : bool :=
  match get k m with Some _ => true | None => false end.

Fixpoint set (k : jsstring) (v : V) (m : Collection) : Collection :=
  match m with
  | [] => [(k, v)]
  | (k', v') :: m' =>
      if jsstring_eqb k k' then (k', v) :: m' else (k', v') :: set k v m'
  end.

Fixpoint delete (k : jsstring) (m : Collection) : Collection :=
  match m with
  | [] => []
  | (k', v') :: m' =>
      if jsstring_eqb k k' then m' else (k', v') :: delete k m'
  end.

(** [m.set(key, value)] for a keyed entry, as a step of a fold. *)
Definition store (m : Collection) (e : jsstring * V) : Collection :=
  set (fst e) (snd e) m.

Definition keys (m : Collection) : list jsstring := map fst m.
Definition values (m : Collection) : list V := map snd m.

End Collection.

End JS.

Import JS.

(* ------------------------------------------------------------------ *)
(** ** Custom-data codec (types/ComponentBuilder) *)

Module Codec.

(** [CUSTOM_DATA_SPLITTER] and [CUSTOM_DATA_NUMBER_INDICATOR]: one code
    unit each (U+4C9C and U+397B). *)
Definition CUSTOM_DATA_SPLITTER : code_unit := 19612%N.
Definition CUSTOM_DATA_NUMBER_INDICATOR : code_unit := 14715%N.

Section WithNumbers.

(** The runtime's numbers, [n.toString()] and [Number(text)]. *)
Variable number : Type.
Variable toString : number -> jsstring.
Variable Number : jsstring -> number.

(** The built-in scalar types, and any other value, which the encoder
    turns into its [JSON.stringify] text. *)
Inductive CustomDataValue : Type :=
| VString (s : jsstring)
| VNumber (n : number)
| VOther (json : jsstring).

Record CustomDataEncodeEventData : Type := {
  enc_notParsed : list CustomDataValue;
  enc_parsed : list jsstring
}.

Record CustomDataDecodeEventData : Type := {
  dec_notParsed : list jsstring;
  dec_parsed : list CustomDataValue
}.

Record Parsed : Type := { id : jsstring; data : list CustomDataValue }.

Definition encodeItem (item : CustomDataValue) : jsstring :=
  match item with
  | VNumber n => CUSTOM_DATA_NUMBER_INDICATOR :: toString n
  | VString s => s
  | VOther json => json
  end.

(** [eventEmitter], when given, is the net effect of the listeners of
    ['customData:encode'] on the event data they share. *)
Definition encodeCustomDataSync (baseId : jsstring)
    (data : option (list CustomDataValue))
    (eventEmitter :
       option (CustomDataEncodeEventData -> CustomDataEncodeEventData))
    : jsstring :=
  match data with
  | None | Some [] => baseId
  | Some d =>
      let eventData := {| enc_notParsed := d; enc_parsed := [] |} in
      let eventData :=
        match eventEmitter with
        | Some emit => emit eventData
        | None => eventData
        end in
      let finalParsed :=
        enc_parsed eventData ++ map encodeItem (enc_notParsed eventData) in
      baseId ++ [CUSTOM_DATA_SPLITTER]
             ++ join [CUSTOM_DATA_SPLITTER] finalParsed
  end.

Definition decodePart (part : jsstring) : CustomDataValue :=
  match part with
  | c :: numberValue =>
      if N.eqb c CUSTOM_DATA_NUMBER_INDICATOR
      then VNumber (Number numberValue)
      else VString part
  | [] => VString part
  end.

(** [split] always gives at least one part, so the first case below never
    arises. *)
Definition parseCustomDataSync (customId : jsstring)
    (eventEmitter :
       option (CustomDataDecodeEventData -> CustomDataDecodeEventData))
    : Parsed :=
  match split CUSTOM_DATA_SPLITTER customId with
  | [] => {| id := []; data := [] |}
  | [i] => {| id := i; data := [] |}
  | i :: rest =>
      let eventData := {| dec_notParsed := rest; dec_parsed := [] |} in
      let eventData :=
        match eventEmitter with
        | Some emit => emit eventData
        | None => eventData
        end in
      {| id := i;
         data := dec_parsed eventData
                   ++ map decodePart (dec_notParsed eventData) |}
  end.

(** A text that survives the trip: no separator inside. *)
Definition no_separator (s : jsstring) : Prop :=
  ~ In CUSTOM_DATA_SPLITTER s.

Definition starts_with_indicator (s : jsstring) : bool :=
  match s with
  | c :: _ => N.eqb c CUSTOM_DATA_NUMBER_INDICATOR
  | [] => false
  end.

(** Strings and numbers only. *)
Definition builtin (v : CustomDataValue) : Prop :=
  match v with
  | VString _ | VNumber _ => True
  | VOther _ => False
  end.

(** A built-in value the wire format can carry: a string without the
    separator and without a leading number indicator, or a number whose
    text has no separator and reads back as the same number. *)
Definition carried (v : CustomDataValue) : Prop :=
  match v with
  | VString s => no_separator s /\ starts_with_indicator s = false
  | VNumber n => no_separator (toString n) /\ Number (toString n) = n
  | VOther _ => False
  end.

(** A part of a custom id that the encoder writes back as it stands: a
    number part has to hold the text of the number it reads as. *)
Definition canonical (part : jsstring) : Prop :=
  match part with
  | c :: numberValue =>
      N.eqb c CUSTOM_DATA_NUMBER_INDICATOR = true ->
      toString (Number numberValue) = numberValue
  | [] => True
  end.

End WithNumbers.

Arguments VString {number} s.
Arguments VOther {number} json.

End Codec.

(** An instance of the codec's numbers: the integers that [toString]
    prints in plain decimal (below 10^21 in magnitude), with [Number]
    reading such a text back.  A text that is not a decimal integer lies
    outside this instance and reads as 0 here. *)
Module IntNumber.

Definition ascii_text (t : jsstring) : string :=
  string_of_list_ascii (map ascii_of_N t).

Definition toString (z : Z) : jsstring :=
  js (NilZero.string_of_int (Z.to_int z)).

Definition Number (t : jsstring) : Z :=
  match NilZero.int_of_string (ascii_text t) with
  | Some d => Z.of_int d
  | None => 0%Z
  end.

End IntNumber.

(* ------------------------------------------------------------------ *)
(** ** Listener calls: values, outcomes and the run state *)

Module Call.

(** What a listener or handler can hand back: [undefined], some other
    value that is not a promise, or a [Promise] that settles. *)
Inductive plain : Type := Undefined | Defined (d : nat).
Inductive settlement : Type := Fulfilled (p : plain) | Rejected (reason : plain).
Inductive value : Type := Plain (p : plain) | Promise (s : settlement).
Inductive outcome : Type := Return (v : value) | Throw (e : plain).

(** Positional arguments and payloads, passed along untouched. *)
Definition jsargs := list jsstring.

(** How a call ends: normally, or with a thrown value. *)
Inductive completion (E A : Type) : Type :=
| Normal (a : A)
| Thrown (e : E).

Arguments Normal {E A} a.
Arguments Thrown {E A} e.

(** [await Promise.resolve(o)]: the settled value, or the thrown one. *)
Definition awaited (o : outcome) : plain + plain :=
  match o with
  | Return (Plain p) => inl p
  | Return (Promise (Fulfilled p)) => inl p
  | Return (Promise (Rejected e)) => inr e
  | Throw e => inr e
  end.

Section WithWorld.

(** Everything outside the registry that listeners and handlers read and
    write (the counters of a test, say). *)
Variable W : Type.

(** The run state: the world, the next free object identity, and the
    identities of the functions called so far, oldest first. *)
Record Run : Type := {
  world : W;
  nextRef : nat;
  trace : list nat
}.

Definition M (A : Type) : Type := Run -> A * Run.

Definition ret {A : Type} (a : A) : M A := fun r => (a, r).

Definition bind {A B : Type} (c : M A) (k : A -> M B) : M B :=
  fun r => let (a, r') := c r in k a r'.

(** A JavaScript function, with its identity. *)
Record Fn : Type := {
  fn_ref : nat;
  fn_run : jsargs -> W -> outcome * W
}.

(** Call [f] on behalf of the object [who]. *)
Definition call (who : nat) (f : Fn) (args : jsargs) : M outcome :=
  fun r =>
    let (o, w') := fn_run f args (world r) in
    (o, {| world := w'; nextRef := nextRef r; trace := trace r ++ [who] |}).

Definition fresh : M nat :=
  fun r => (nextRef r,
            {| world := world r; nextRef := S (nextRef r); trace := trace r |}).

End WithWorld.

End Call.

Import Call.

Notation "x <- c1 ;; c2" := (Call.bind c1 (fun x => c2))
  (at level 61, c1 at next level, right associativity).
Notation "' pat <- c1 ;; c2" := (Call.bind c1 (fun x => match x with pat => c2 end))
  (at level 61, pat pattern, c1 at next level, right associativity).

(* ------------------------------------------------------------------ *)
(** ** ResultEventEmitter (types/ResultEventEmitter.ts)

    Listeners act on the world only: a listener that calls back into the
    emitter that is calling it is outside this model. *)

Module Emitter.

Section WithWorld.

Variable W : Type.

Record EventListenerEntry : Type := {
  entry_ref : nat;
  entry_listener : Fn W;
  entry_once : bool
}.

Record ResultEventEmitter : Type := {
  eventListeners : Collection (list EventListenerEntry);
  lastResults : list value
}.

Definition empty : ResultEventEmitter :=
  {| eventListeners := []; lastResults := [] |}.

Definition getListenerEntries (event : jsstring) (em : ResultEventEmitter)
    : list EventListenerEntry :=
  match get event (eventListeners em) with
  | Some listeners => listeners
  | None => []
  end.

(** [listeners.add({ listener, once })]: the entry is a new object. *)
Definition addListenerInternal (event : jsstring) (l : Fn W) (once : bool)
    (em : ResultEventEmitter) : M W ResultEventEmitter :=
  r <- @fresh W ;;
  ret {| eventListeners :=
           set event
             (getListenerEntries event em
                ++ [{| entry_ref := r; entry_listener := l;
                       entry_once := once |}])
             (eventListeners em);
         lastResults := lastResults em |}.

Definition on (event : jsstring) (l : Fn W) := addListenerInternal event l false.
Definition once (event : jsstring) (l : Fn W) := addListenerInternal event l true.

(** [listeners.delete(entry)]: by object identity. *)
Definition delete_entry (e : EventListenerEntry)
    (listeners : list EventListenerEntry) : list EventListenerEntry :=
  filter (fun x => negb (Nat.eqb (entry_ref x) (entry_ref e))) listeners.

Definition removeOnceListeners (event : jsstring)
    (listenersToRemove : list EventListenerEntry) (em : ResultEventEmitter)
    : ResultEventEmitter :=
  match listenersToRemove with
  | [] => em
  | _ =>
      match get event (eventListeners em) with
      | Some listeners =>
          let listeners' :=
            fold_left (fun acc e => delete_entry e acc)
                      listenersToRemove listeners in
          {| eventListeners :=
               if Nat.eqb (length listeners') 0
               then delete event (eventListeners em)
               else set event listeners' (eventListeners em);
             lastResults := lastResults em |}
      | None => em
      end
  end.

(** [x] is none of the entries of [toRemove]. *)
Definition kept (toRemove : list EventListenerEntry)
    (x : EventListenerEntry) : bool :=
  negb (existsb (fun e => Nat.eqb (entry_ref x) (entry_ref e)) toRemove).

Definition to_remove (e : EventListenerEntry)
    (rest : list EventListenerEntry) : list EventListenerEntry :=
  if entry_once e then e :: rest else rest.

(** The loop of [emit]: every result, a caught error included, and the
    one-shot entries that fired. *)
Fixpoint emit_loop (entries : list EventListenerEntry) (args : jsargs)
    : M W (list value * list EventListenerEntry) :=
  match entries with
  | [] => ret ([], [])
  | entry :: rest =>
      o <- call (entry_ref entry) (entry_listener entry) args ;;
      ' (results, toRemove) <- emit_loop rest args ;;
      ret (match o with Return v => v | Throw error => Plain error end
             :: results,
           to_remove entry toRemove)
  end.

Definition emit (event : jsstring) (args : jsargs) (em : ResultEventEmitter)
    : M W (list value * ResultEventEmitter) :=
  ' (results, toRemove) <- emit_loop (getListenerEntries event em) args ;;
  ret (results,
       {| eventListeners :=
            eventListeners (removeOnceListeners event toRemove em);
          lastResults := results |}).

(** The loop of [emitAsync] and of [emitParallel]: each listener's result
    is awaited. *)
Fixpoint emitAsync_loop (entries : list EventListenerEntry) (args : jsargs)
    : M W (list value * list EventListenerEntry) :=
  match entries with
  | [] => ret ([], [])
  | entry :: rest =>
      o <- call (entry_ref entry) (entry_listener entry) args ;;
      ' (results, toRemove) <- emitAsync_loop rest args ;;
      ret (match awaited o with inl p => Plain p | inr error => Plain error end
             :: results,
           to_remove entry toRemove)
  end.

(** [emitAsync], the iterator driven until it is done, as [for await]
    without [break] does; the results are the values it yields. *)
Definition emitAsync (event : jsstring) (args : jsargs)
    (em : ResultEventEmitter) : M W (list value * ResultEventEmitter) :=
  ' (results, toRemove) <- emitAsync_loop (getListenerEntries event em) args ;;
  ret (results,
       {| eventListeners :=
            eventListeners (removeOnceListeners event toRemove em);
          lastResults := results |}).

(** [emitParallel]: the listeners are called in registration order;
    [completion] is the order in which their promises settle, which is
    the order of [listenersToRemove]. *)
Definition emitParallel
    (completion : list EventListenerEntry -> list EventListenerEntry)
    (event : jsstring) (args : jsargs) (em : ResultEventEmitter)
    : M W (list value * ResultEventEmitter) :=
  ' (results, toRemove) <- emitAsync_loop (getListenerEntries event em) args ;;
  ret (results,
       {| eventListeners :=
            eventListeners
              (removeOnceListeners event (completion toRemove) em);
          lastResults := results |}).

(** The loop of [emitUntilResult]: a result counts when it is neither
    [undefined] nor a [Promise]; a throwing listener is passed over. *)
Fixpoint emitUntilResult_loop (entries : list EventListenerEntry)
    (args : jsargs) : M W (value * list EventListenerEntry) :=
  match entries with
  | [] => ret (Plain Undefined, [])
  | entry :: rest =>
      o <- call (entry_ref entry) (entry_listener entry) args ;;
      match o with
      | Return (Plain (Defined d)) =>
          ret (Plain (Defined d), to_remove entry [])
      | _ =>
          ' (result, toRemove) <- emitUntilResult_loop rest args ;;
          ret (result, to_remove entry toRemove)
      end
  end.

Definition emitUntilResult (event : jsstring) (args : jsargs)
    (em : ResultEventEmitter) : M W (value * ResultEventEmitter) :=
  ' (result, toRemove) <-
      emitUntilResult_loop (getListenerEntries event em) args ;;
  ret (result, removeOnceListeners event toRemove em).

Fixpoint emitUntilResultAsync_loop (entries : list EventListenerEntry)
    (args : jsargs) : M W (value * list EventListenerEntry) :=
  match entries with
  | [] => ret (Plain Undefined, [])
  | entry :: rest =>
      o <- call (entry_ref entry) (entry_listener entry) args ;;
      match awaited o with
      | inl (Defined d) => ret (Plain (Defined d), to_remove entry [])
      | _ =>
          ' (result, toRemove) <- emitUntilResultAsync_loop rest args ;;
          ret (result, to_remove entry toRemove)
      end
  end.

Definition emitUntilResultAsync (event : jsstring) (args : jsargs)
    (em : ResultEventEmitter) : M W (value * ResultEventEmitter) :=
  ' (result, toRemove) <-
      emitUntilResultAsync_loop (getListenerEntries event em) args ;;
  ret (result, removeOnceListeners event toRemove em).

(** The five emission modes, to speak of all of them at once. *)
Inductive mode : Type :=
| Emit
| EmitAsync
| EmitParallel (completion : list EventListenerEntry -> list EventListenerEntry)
| EmitUntilResult
| EmitUntilResultAsync.

(** The one-shot entries a mode hands to [removeOnceListeners]. *)
Definition removals (m : mode) (event : jsstring) (args : jsargs)
    (em : ResultEventEmitter) : M W (list EventListenerEntry) :=
  let entries := getListenerEntries event em in
  match m with
  | Emit => ' (_, toRemove) <- emit_loop entries args ;; ret toRemove
  | EmitAsync => ' (_, toRemove) <- emitAsync_loop entries args ;; ret toRemove
  | EmitParallel completion =>
      ' (_, toRemove) <- emitAsync_loop entries args ;; ret (completion toRemove)
  | EmitUntilResult =>
      ' (_, toRemove) <- emitUntilResult_loop entries args ;; ret toRemove
  | EmitUntilResultAsync =>
      ' (_, toRemove) <- emitUntilResultAsync_loop entries args ;; ret toRemove
  end.

(** The emitter after an emission in mode [m]. *)
Definition emission (m : mode) (event : jsstring) (args : jsargs)
    (em : ResultEventEmitter) : M W ResultEventEmitter :=
  match m with
  | Emit => ' (_, em') <- emit event args em ;; ret em'
  | EmitAsync => ' (_, em') <- emitAsync event args em ;; ret em'
  | EmitParallel completion =>
      ' (_, em') <- emitParallel completion event args em ;; ret em'
  | EmitUntilResult => ' (_, em') <- emitUntilResult event args em ;; ret em'
  | EmitUntilResultAsync =>
      ' (_, em') <- emitUntilResultAsync event args em ;; ret em'
  end.

(** The calls made between two run states. *)
Definition calls_between (r r' : Run W) : list nat :=
  skipn (length (trace r)) (trace r').




(** The entries of [event] are distinct objects, and the map holds
    [event] once. *)
Definition distinct_entries (event : jsstring) (em : ResultEventEmitter)
    : Prop :=
  NoDup (keys (eventListeners em)) /\
  NoDup (map entry_ref (getListenerEntries event em)).

(** [off]: the first entry whose listener is the function [l] is taken
    out; a set left empty leaves the map. *)
Definition off (event : jsstring) (l : Fn W) (em : ResultEventEmitter)
    : ResultEventEmitter :=
  match get event (eventListeners em) with
  | Some listeners =>
      let listeners' :=
        match find (fun entry =>
                      Nat.eqb (fn_ref (entry_listener entry)) (fn_ref l))
                   listeners with
        | Some entry => delete_entry entry listeners
        | None => listeners
        end in
      {| eventListeners :=
           if Nat.eqb (length listeners') 0
           then delete event (eventListeners em)
           else set event listeners' (eventListeners em);
         lastResults := lastResults em |}
  | None => em
  end.

(** [removeAllListeners(event)], and [removeAllListeners()] for [None]. *)
Definition removeAllListeners (event : option jsstring)
    (em : ResultEventEmitter) : ResultEventEmitter :=
  {| eventListeners :=
       match event with
       | Some ev => delete ev (eventListeners em)
       | None => []
       end;
     lastResults := lastResults em |}.

Definition listeners (event : jsstring) (em : ResultEventEmitter)
    : list (Fn W) :=
  match get event (eventListeners em) with
  | Some entries => map entry_listener entries
  | None => []
  end.

Definition listenerCount (event : jsstring) (em : ResultEventEmitter) : nat :=
  match get event (eventListeners em) with
  | Some entries => length entries
  | None => 0
  end.

Definition hasListeners (event : jsstring) (em : ResultEventEmitter) : bool :=
  Nat.ltb 0 (listenerCount event em).

Definition eventNames (em : ResultEventEmitter) : list jsstring :=
  keys (eventListeners em).

(** [prependListenerInternal]: a new set with the new entry first. *)
Definition prependListenerInternal (event : jsstring) (l : Fn W) (once : bool)
    (em : ResultEventEmitter) : M W ResultEventEmitter :=
  r <- @fresh W ;;
  ret {| eventListeners :=
           set event
             ({| entry_ref := r; entry_listener := l; entry_once := once |}
                :: getListenerEntries event em)
             (eventListeners em);
         lastResults := lastResults em |}.

Definition prependListener (event : jsstring) (l : Fn W) :=
  prependListenerInternal event l false.
Definition prependOnceListener (event : jsstring) (l : Fn W) :=
  prependListenerInternal event l true.

(** A call of one of the emitter's methods that touch the listeners. *)
Inductive operation : Type :=
| CallOn (event : jsstring) (l : Fn W)
| CallOnce (event : jsstring) (l : Fn W)
| CallPrependListener (event : jsstring) (l : Fn W)
| CallPrependOnceListener (event : jsstring) (l : Fn W)
| CallOff (event : jsstring) (l : Fn W)
| CallRemoveAllListeners (event : option jsstring)
| CallEmission (m : mode) (event : jsstring) (args : jsargs).

Definition operate (op : operation) (em : ResultEventEmitter)
    : M W ResultEventEmitter :=
  match op with
  | CallOn event l => on event l em
  | CallOnce event l => once event l em
  | CallPrependListener event l => prependListener event l em
  | CallPrependOnceListener event l => prependOnceListener event l em
  | CallOff event l => ret (off event l em)
  | CallRemoveAllListeners event => ret (removeAllListeners event em)
  | CallEmission m event args => emission m event args em
  end.

(** A program of such calls, run in order. *)
Fixpoint operate_all (ops : list operation) (em : ResultEventEmitter)
    : M W ResultEventEmitter :=
  match ops with
  | [] => ret em
  | op :: rest => em' <- operate op em ;; operate_all rest em'
  end.

(** Every entry was allocated before the run state [r]. *)
Definition allocated (em : ResultEventEmitter) (r : Run W) : Prop :=
  forall event e,
    In e (getListenerEntries event em) -> entry_ref e < nextRef r.

(** A listener result on which the two until-result loops part: a
    promise fulfilled with something other than [undefined]. *)
Definition fulfilled_with_result (o : outcome) : bool :=
  match o with
  | Return (Promise (Fulfilled (Defined _))) => true
  | _ => false
  end.

(** *** Emissions in progress

    The functions above run an emission from its first statement to its
    last in one piece.  The asynchronous ones are in fact suspended at
    every [await] and [yield], where other code gets to run, and the
    iterator of [emitAsync] goes on only when its consumer asks, who may
    as well leave it at a [yield].  Below an emission is a value that is
    resumed statement by statement, with the emitter beside it. *)

(** Where an emission stands. *)
Inductive position : Type :=
| Created
    (* emitAsync: the iterator exists, its body has not begun *)
| Looping
    (* at the head of the loop over [listenerEntries] *)
| Awaiting (entry : EventListenerEntry) (settled : plain + plain)
    (* at [await Promise.resolve(...)] for the listener of [entry] *)
| Yielded (entry : EventListenerEntry)
    (* emitAsync: at [yield], the consumer holds the value *)
| Settling
    (* emitParallel: at [await Promise.all(promises)] *)
| Leaving
    (* emitUntilResult, sync and async: a result was found *)
| Finished
    (* the last statement has run *)
| Closed.
    (* emitAsync: left by the consumer's [return()] *)

Record Emitting : Type := {
  emitting : mode;
  emitting_event : jsstring;
  emitting_args : jsargs;
  (** the entries of the snapshot that the loop has not reached *)
  listenerEntries : list EventListenerEntry;
  listenersToRemove : list EventListenerEntry;
  (** [this.lastResults] of [emit], [results] of the others *)
  results : list value;
  (** emitParallel: the entries whose promise has not settled *)
  promises : list EventListenerEntry;
  (** what [emitUntilResult] returns *)
  result : value;
  at_ : position
}.

Definition moved (p : position) (t : Emitting) : Emitting :=
  {| emitting := emitting t; emitting_event := emitting_event t;
     emitting_args := emitting_args t;
     listenerEntries := listenerEntries t;
     listenersToRemove := listenersToRemove t;
     results := results t; promises := promises t; result := result t;
     at_ := p |}.

(** The loop goes on to the entries [rest]. *)
Definition advanced (rest : list EventListenerEntry) (t : Emitting)
    : Emitting :=
  {| emitting := emitting t; emitting_event := emitting_event t;
     emitting_args := emitting_args t;
     listenerEntries := rest;
     listenersToRemove := listenersToRemove t;
     results := results t; promises := promises t; result := result t;
     at_ := at_ t |}.

(** [if (entry.once) listenersToRemove.push(entry)]. *)
Definition pushed (entry : EventListenerEntry) (t : Emitting) : Emitting :=
  {| emitting := emitting t; emitting_event := emitting_event t;
     emitting_args := emitting_args t;
     listenerEntries := listenerEntries t;
     listenersToRemove :=
       if entry_once entry then listenersToRemove t ++ [entry]
       else listenersToRemove t;
     results := results t; promises := promises t; result := result t;
     at_ := at_ t |}.

(** [results.push(v)]. *)
Definition collected (v : value) (t : Emitting) : Emitting :=
  {| emitting := emitting t; emitting_event := emitting_event t;
     emitting_args := emitting_args t;
     listenerEntries := listenerEntries t;
     listenersToRemove := listenersToRemove t;
     results := results t ++ [v]; promises := promises t;
     result := result t;
     at_ := at_ t |}.

Definition pending (ps : list EventListenerEntry) (t : Emitting)
    : Emitting :=
  {| emitting := emitting t; emitting_event := emitting_event t;
     emitting_args := emitting_args t;
     listenerEntries := listenerEntries t;
     listenersToRemove := listenersToRemove t;
     results := results t; promises := ps; result := result t;
     at_ := at_ t |}.

Definition found (v : value) (t : Emitting) : Emitting :=
  {| emitting := emitting t; emitting_event := emitting_event t;
     emitting_args := emitting_args t;
     listenerEntries := listenerEntries t;
     listenersToRemove := listenersToRemove t;
     results := results t; promises := promises t; result := v;
     at_ := Leaving |}.


(** What makes an emission go on. *)
Inductive action : Type :=
| Resume
    (* the next statement runs; the awaited promise has settled; the
       consumer of [emitAsync] calls [next()] *)
| Break
    (* the consumer of [emitAsync] calls [return()], as [for await]
       does when its body ends with [break] or [return] *)
| Settle (n : nat).
    (* emitParallel: the promise [n] of those pending settles *)

(** [this.removeOnceListeners(event, listenersToRemove)]. *)
Definition removal (t : Emitting) (em : ResultEventEmitter)
    : ResultEventEmitter :=
  removeOnceListeners (emitting_event t) (listenersToRemove t) em.

(** The statements of the loop body for [entry], from the call of its
    listener to the next [await], [yield] or loop head. *)
Definition called_entry (entry : EventListenerEntry)
    (rest : list EventListenerEntry) (t : Emitting)
    (em : ResultEventEmitter) : M W (Emitting * ResultEventEmitter) :=
  o <- call (entry_ref entry) (entry_listener entry) (emitting_args t) ;;
  let t' := advanced rest t in
  match emitting t with
  | Emit =>
      let v := match o with Return v => v | Throw error => Plain error end in
      ret (pushed entry (collected v t'),
           {| eventListeners := eventListeners em;
              lastResults := lastResults em ++ [v] |})
  | EmitAsync =>
      match o with
      | Return _ => ret (moved (Awaiting entry (awaited o)) t', em)
      | Throw error =>
          ret (moved (Yielded entry) (collected (Plain error) t'), em)
      end
  | EmitParallel _ =>
      let v := match awaited o with
               | inl p => Plain p
               | inr error => Plain error
               end in
      match o with
      | Return _ =>
          ret (pending (promises t ++ [entry]) (collected v t'), em)
      | Throw _ => ret (pushed entry (collected v t'), em)
      end
  | EmitUntilResult =>
      match o with
      | Return (Plain (Defined d)) =>
          ret (found (Plain (Defined d)) (pushed entry t'), em)
      | _ => ret (pushed entry t', em)
      end
  | EmitUntilResultAsync =>
      match o with
      | Return _ => ret (moved (Awaiting entry (awaited o)) t', em)
      | Throw _ => ret (pushed entry t', em)
      end
  end.

(** The statements after the loop. *)
Definition loop_done (t : Emitting) (em : ResultEventEmitter)
    : Emitting * ResultEventEmitter :=
  match emitting t with
  | Emit | EmitUntilResult | EmitUntilResultAsync =>
      (moved Finished t, removal t em)
  | EmitAsync =>
      (moved Finished t,
       {| eventListeners := eventListeners (removal t em);
          lastResults := results t |})
  | EmitParallel _ => (moved Settling t, em)
  end.

(** The statements after an [await] whose promise settled as
    [settled]. *)
Definition settled_entry (entry : EventListenerEntry)
    (settled : plain + plain) (t : Emitting) : Emitting :=
  match emitting t with
  | EmitAsync =>
      moved (Yielded entry)
        (collected (match settled with
                    | inl p => Plain p
                    | inr error => Plain error
                    end) t)
  | EmitUntilResultAsync =>
      match settled with
      | inl (Defined d) => found (Plain (Defined d)) (pushed entry t)
      | _ => moved Looping (pushed entry t)
      end
  | _ => t
  end.

(** emitParallel: the promise of [entry] settles, the others of [rest]
    are pending still. *)
Definition settle (entry : EventListenerEntry)
    (rest : list EventListenerEntry) (t : Emitting) : Emitting :=
  pending rest (pushed entry t).

(** One step of an emission.  At [Settling], [Resume] lets the first
    pending promise settle; an action that does not apply where the
    emission stands changes nothing. *)
Definition step (a : action) (s : Emitting * ResultEventEmitter)
    : M W (Emitting * ResultEventEmitter) :=
  let (t, em) := s in
  match a, at_ t with
  | Resume, Created =>
      ret (moved Looping
             (advanced (getListenerEntries (emitting_event t) em) t), em)
  | Resume, Looping =>
      match listenerEntries t with
      | [] => ret (loop_done t em)
      | entry :: rest => called_entry entry rest t em
      end
  | Resume, Awaiting entry settled => ret (settled_entry entry settled t, em)
  | Resume, Yielded entry => ret (moved Looping (pushed entry t), em)
  | Resume, Settling =>
      match promises t with
      | [] =>
          ret (moved Finished t,
               {| eventListeners := eventListeners (removal t em);
                  lastResults := results t |})
      | entry :: rest => ret (settle entry rest t, em)
      end
  | Resume, Leaving => ret (moved Finished t, removal t em)
  | Break, Created | Break, Yielded _ => ret (moved Closed t, em)
  | Settle n, Settling =>
      match nth_error (promises t) n with
      | Some entry =>
          ret (settle entry
                 (firstn n (promises t) ++ skipn (S n) (promises t)) t, em)
      | None => ret s
      end
  | _, _ => ret s
  end.

Fixpoint run (actions : list action) (s : Emitting * ResultEventEmitter)
    : M W (Emitting * ResultEventEmitter) :=
  match actions with
  | [] => ret s
  | a :: rest => s' <- step a s ;; run rest s'
  end.



(** The entries whose listener was called and whose [once] the emission
    has yet to look at. *)
Definition waiting (t : Emitting) : list EventListenerEntry :=
  match at_ t with
  | Awaiting entry _ | Yielded entry => entry :: promises t
  | _ => promises t
  end.



End WithWorld.

Arguments Created {W}.
Arguments Looping {W}.
Arguments Settling {W}.
Arguments Leaving {W}.
Arguments Finished {W}.
Arguments Closed {W}.

End Emitter.

(* ------------------------------------------------------------------ *)
(** ** Locale (lib/Locale): content fragments and their merge

    The content side comes first; the interaction-locale collections of
    [Locale] follow in [InteractionLocales]. *)

Module LocaleStore.

(** [PlainLocaleData]: an object whose properties hold a string or a
    nested object.  Properties are kept in insertion order. *)
Inductive LocaleValue : Type :=
| Str (s : jsstring)
| Obj (fields : list (jsstring * LocaleValue)).

Definition PlainLocaleData := list (jsstring * LocaleValue).

(** [ContentValue]: the same tree with every string turned into a
    function that returns it (with [{N}] placeholders filled in). *)
Inductive ContentValue : Type :=
| Leaf (template : jsstring)
| Node (fields : list (jsstring * ContentValue)).

Definition ContentTree := list (jsstring * ContentValue).

(** Nesting depth of an object, which bounds the recursion of
    [deepMerge]. *)
Fixpoint depth (v : LocaleValue) : nat :=
  match v with
  | Str _ => 0
  | Obj fields =>
      S ((fix fields_depth (l : list (jsstring * LocaleValue)) : nat :=
            match l with
            | [] => 0
            | (_, v') :: l' => Nat.max (depth v') (fields_depth l')
            end) fields)
  end.

Fixpoint fields_depth (l : PlainLocaleData) : nat :=
  match l with
  | [] => 0
  | (_, v') :: l' => Nat.max (depth v') (fields_depth l')
  end.

(** One assignment of the inner loop of [deepMerge]; [rec] is the
    recursive call.  [result[key] = ...] adds the property or replaces
    it, which is what it does for every key but ["__proto__"]; objects
    with that key are left to [ordinary] below. *)
Definition deepMerge_entry (rec : list PlainLocaleData -> PlainLocaleData)
    (result : PlainLocaleData) (entry : jsstring * LocaleValue)
    : PlainLocaleData :=
  let (key, value) := entry in
  match value with
  | Str s => set key (Str s) result
  | Obj fields =>
      match get key result with
      | Some (Obj existing) => set key (Obj (rec [existing; fields])) result
      | _ => set key (Obj (rec [[]; fields])) result
      end
  end.

(** [deepMerge(...objects)], the recursion cut off after [fuel] levels. *)
Fixpoint deepMerge_fuel (fuel : nat) (objects : list PlainLocaleData)
    : PlainLocaleData :=
  match fuel with
  | O => []
  | S fuel' =>
      fold_left
        (fun result obj =>
           fold_left (deepMerge_entry (deepMerge_fuel fuel')) obj result)
        objects []
  end.

(** [deepMerge(...objects)]: one level more than the deepest object is
    all the recursion can use. *)
Definition deepMerge (objects : list PlainLocaleData) : PlainLocaleData :=
  deepMerge_fuel (S (fold_right Nat.max 0 (map fields_depth objects)))
                 objects.

(** [convertToContentValue]: every string becomes a leaf, and
    [result[key] = ...] is read as in [deepMerge_entry]. *)
Fixpoint convertValue (v : LocaleValue) : ContentValue :=
  match v with
  | Str s => Leaf s
  | Obj fields =>
      Node ((fix convertFields (l : list (jsstring * LocaleValue))
                (result : ContentTree) : ContentTree :=
               match l with
               | [] => result
               | (key, value) :: l' =>
                   convertFields l' (set key (convertValue value) result)
               end) fields [])
  end.

Fixpoint convertFields (l : PlainLocaleData) (result : ContentTree)
    : ContentTree :=
  match l with
  | [] => result
  | (key, value) :: l' =>
      convertFields l' (set key (convertValue value) result)
  end.

Definition convertToContentValue (data : PlainLocaleData) : ContentTree :=
  convertFields data [].

Record Fragment : Type := {
  language : jsstring;
  fragment_data : PlainLocaleData
}.

Record Locale : Type := {
  locale_id : jsstring;
  content : Collection ContentTree;
  contents : Collection Fragment
}.

Definition new (id : jsstring) : Locale :=
  {| locale_id := id; content := []; contents := [] |}.

Definition mergeContentsForLanguage (lang : jsstring) (l : Locale)
    : ContentTree :=
  let languageContents :=
    map fragment_data
      (filter (fun item => jsstring_eqb (language item) lang)
              (values (contents l))) in
  match languageContents with
  | [] => []
  | _ => convertToContentValue (deepMerge languageContents)
  end.

Definition recalculateContentForLanguage (lang : jsstring) (l : Locale)
    : Locale :=
  let mergedContent := mergeContentsForLanguage lang l in
  {| locale_id := locale_id l;
     content :=
       if Nat.ltb 0 (length mergedContent)
       then set lang mergedContent (content l)
       else delete lang (content l);
     contents := contents l |}.

Definition addLocale (id lang : jsstring) (data : PlainLocaleData)
    (l : Locale) : Locale :=
  recalculateContentForLanguage lang
    {| locale_id := locale_id l;
       content := content l;
       contents :=
         set id {| language := lang; fragment_data := data |} (contents l) |}.

(** The disposer [addLocale] returns. *)
Definition addLocale_dispose (id lang : jsstring) (l : Locale) : Locale :=
  recalculateContentForLanguage lang
    {| locale_id := locale_id l;
       content := content l;
       contents := delete id (contents l) |}.

(** Reading trees by key path. *)

(** The string at the end of [path] in a plain object, if there is one. *)
Fixpoint text_at (o : PlainLocaleData) (path : list jsstring)
    : option jsstring :=
  match path with
  | [] => None
  | key :: rest =>
      match get key o with
      | Some (Str s) => match rest with [] => Some s | _ => None end
      | Some (Obj fields) => text_at fields rest
      | None => None
      end
  end.

(** The template of the leaf at the end of [path], which is what the
    leaf returns when called without arguments. *)
Fixpoint resolve (t : ContentTree) (path : list jsstring)
    : option jsstring :=
  match path with
  | [] => None
  | key :: rest =>
      match get key t with
      | Some (Leaf s) => match rest with [] => Some s | _ => None end
      | Some (Node fields) => resolve fields rest
      | None => None
      end
  end.

(** [path] leaves the object at a key that is not there: some object on
    the way lacks the next key. *)
Fixpoint absent (o : PlainLocaleData) (path : list jsstring) : bool :=
  match path with
  | [] => false
  | key :: rest =>
      match get key o with
      | None => true
      | Some (Obj fields) => absent fields rest
      | Some (Str _) => false
      end
  end.

Fixpoint missing (t : ContentTree) (path : list jsstring) : bool :=
  match path with
  | [] => false
  | key :: rest =>
      match get key t with
      | None => true
      | Some (Node fields) => missing fields rest
      | Some (Leaf _) => false
      end
  end.

(** An object has each key once, at every level. *)
Fixpoint unique_keys (ks : list jsstring) : bool :=
  match ks with
  | [] => true
  | k :: rest => negb (existsb (jsstring_eqb k) rest) && unique_keys rest
  end.

Fixpoint wf_value (v : LocaleValue) : bool :=
  match v with
  | Str _ => true
  | Obj fields =>
      unique_keys (keys fields)
      && (fix wf_fields (l : list (jsstring * LocaleValue)) : bool :=
            match l with
            | [] => true
            | (_, v') :: l' => wf_value v' && wf_fields l'
            end) fields
  end.

Fixpoint wf_fields (l : PlainLocaleData) : bool :=
  match l with
  | [] => true
  | (_, v') :: l' => wf_value v' && wf_fields l'
  end.

Definition wf (o : PlainLocaleData) : Prop :=
  unique_keys (keys o) = true /\ wf_fields o = true.

(** The one property name that assignment treats differently:
    [Object.prototype] holds an accessor for it, so
    [result["__proto__"] = value] replaces the prototype of [result]
    (or does nothing, for a string) and adds no property. *)
Definition PROTO : jsstring := js "__proto__".

(** An object that has no such key, at any level.  These are the
    objects for which [deepMerge_entry] and [convertFields] are what
    the assignments of [deepMerge] and [convertToContentValue] do. *)
Fixpoint ordinary_value (v : LocaleValue) : bool :=
  match v with
  | Str _ => true
  | Obj fields =>
      (fix ordinary_fields (l : list (jsstring * LocaleValue)) : bool :=
         match l with
         | [] => true
         | (k, v') :: l' =>
             negb (jsstring_eqb k PROTO) && ordinary_value v'
             && ordinary_fields l'
         end) fields
  end.

Fixpoint ordinary_fields (l : PlainLocaleData) : bool :=
  match l with
  | [] => true
  | (k, v') :: l' =>
      negb (jsstring_eqb k PROTO) && ordinary_value v' && ordinary_fields l'
  end.

Definition ordinary (o : PlainLocaleData) : Prop := ordinary_fields o = true.

(** The fragments of a language, in the order [contents] holds them. *)
Definition fragments (lang : jsstring) (l : Locale) : list PlainLocaleData :=
  map fragment_data
    (filter (fun item => jsstring_eqb (language item) lang)
            (values (contents l))).

(** [content] holds for [lang] what the fragments of [lang] merge to, and
    nothing when that is empty. *)
Definition in_step (lang : jsstring) (l : Locale) : Prop :=
  get lang (content l)
  = if Nat.ltb 0 (length (mergeContentsForLanguage lang l))
    then Some (mergeContentsForLanguage lang l)
    else None.

(** The interaction side of [Locale]: [interaction] by language and
    interaction id, and the loaded fragments [interactions] it is
    recalculated from.  An object is read by key only, and its keys are
    ordinary property names: none that [Object.prototype] defines. *)
Section InteractionLocales.

Variable InteractionLocaleData : Type.

Record InteractionFragment : Type := {
  interaction_language : jsstring;
  interaction_data : Collection InteractionLocaleData
}.

Record InteractionStore : Type := {
  interaction : Collection (Collection InteractionLocaleData);
  interactions : Collection InteractionFragment
}.







(** The loaded fragments of a language, in the order [interactions] holds
    them. *)
Definition loaded (lang : jsstring) (st : InteractionStore)
    : list (Collection InteractionLocaleData) :=
  map interaction_data
    (filter (fun item => jsstring_eqb (interaction_language item) lang)
            (values (interactions st))).

End InteractionLocales.

End LocaleStore.

(** The two fragments of the merge example: [{x: {y: "1"}}] and
    [{x: {y: "2", z: "3"}}]. *)
Module MergeExample.

Import LocaleStore.

Definition fragmentA : PlainLocaleData :=
  [(js "x", Obj [(js "y", Str (js "1"))])].

Definition fragmentB : PlainLocaleData :=
  [(js "x", Obj [(js "y", Str (js "2")); (js "z", Str (js "3"))])].

(** A store in which fragment [a] was registered before fragment [b],
    both for [lang]. *)
Definition registered (store lang idA idB : jsstring)
    (a b : PlainLocaleData) : Locale :=
  addLocale idB lang b (addLocale idA lang a (new store)).

End MergeExample.

(** Two interaction files loaded for ["tr"], the second naming ["ping"]
    again; the entries are localized names. *)
Module InteractionLocaleExample.

Import LocaleStore.




End InteractionLocaleExample.

(* ------------------------------------------------------------------ *)
(** ** Pattern expansion (utils/pattern) *)

Module Pattern.

Definition SPACE : code_unit := 32%N.
Definition BAR : code_unit := 124%N.
Definition OPEN : code_unit := 40%N.
Definition CLOSE : code_unit := 41%N.
Definition QUESTION : code_unit := 63%N.

Definition nonempty (s : jsstring) : bool :=
  match s with [] => false | _ => true end.

(** The choices one token stands for; [[]] is the choice of leaving an
    optional word out. *)
Definition token_choices (token : jsstring) : list jsstring :=
  match token with
  | c :: body =>
      if N.eqb c OPEN then
        match rev body with
        | q :: p :: inner =>
            if N.eqb q QUESTION && N.eqb p CLOSE
            then [rev inner; []]
            else if N.eqb q CLOSE
            then filter nonempty (split BAR (rev (p :: inner)))
            else [token]
        | [q] => if N.eqb q CLOSE then [] else [token]
        | [] => [token]
        end
      else [token]
  | [] => []
  end.

Definition add_word (word combination : jsstring) : jsstring :=
  match word, combination with
  | [], _ => combination
  | _, [] => word
  | _, _ => word ++ SPACE :: combination
  end.

Fixpoint product (choices : list (list jsstring)) : list jsstring :=
  match choices with
  | [] => [[]]
  | here :: rest =>
      flat_map (fun word => map (add_word word) (product rest)) here
  end.

(** Modelled from the spec: [generateCombinations] of utils/pattern, which
    src/ does not hold.  A pattern is a row of tokens separated by spaces;
    a token is a literal word, an alternation [(a|b|c)] of which one word
    is taken, or an optional word [(word)?]; the combinations are the
    Cartesian product over the tokens, an absent optional word leaving no
    trace; an alternation without words gives no combination at all. *)
Definition generateCombinations (pattern : jsstring) : list jsstring :=
  match filter nonempty (split SPACE pattern) with
  | [] => []
  | tokens => product (map token_choices tokens)
  end.

End Pattern.

(* ------------------------------------------------------------------ *)
(** ** Inspector (lib/Inspector) *)

Module Inspector.

Inductive EmitType : Type :=
| chatInput | button | stringSelectMenu | userSelectMenu | roleSelectMenu
| channelSelectMenu | mentionableSelectMenu | modal
| userContextMenu | messageContextMenu.

Section WithWorld.

Variable W : Type.

(** The pattern expander the inspector is linked with. *)
Variable generateCombinations : jsstring -> list jsstring.

(** [handlers] stands for the nine maps keyed by id, one per type other
    than [chatInput]. *)
Record Inspector : Type := {
  id : jsstring;
  domain : jsstring;
  chatInputCombinationsMap : Collection jsstring;
  chatInputHandlers : Collection (Fn W);
  handlers : EmitType -> Collection (Fn W)
}.

(** [return await handler(ctx)] inside [try { } catch {}]. *)
Definition run_handler (handler : Fn W) (ctx : jsargs) : M W plain :=
  o <- call (fn_ref handler) handler ctx ;;
  ret (match awaited o with inl p => p | inr _ => Undefined end).

Definition emit (type : EmitType) (key : jsstring) (ctx : jsargs)
    (insp : Inspector) : M W plain :=
  match type with
  | chatInput =>
      match get key (chatInputCombinationsMap insp) with
      | Some (c :: pattern') =>
          match get (c :: pattern') (chatInputHandlers insp) with
          | Some handler => run_handler handler ctx
          | None => ret Undefined
          end
      | _ => ret Undefined
      end
  | _ =>
      match get key (handlers insp type) with
      | Some handler => run_handler handler ctx
      | None => ret Undefined
      end
  end.

Definition chatInput_register (pattern : jsstring) (handle : Fn W)
    (insp : Inspector) : Inspector :=
  {| id := id insp;
     domain := domain insp;
     chatInputCombinationsMap :=
       fold_left (fun m combo => set combo pattern m)
                 (generateCombinations pattern)
                 (chatInputCombinationsMap insp);
     chatInputHandlers := set pattern handle (chatInputHandlers insp);
     handlers := handlers insp |}.

(** The handler [emit] would call for a chat-input name, if any. *)
Definition chatInput_handler (key : jsstring) (insp : Inspector)
    : option (Fn W) :=
  match get key (chatInputCombinationsMap insp) with
  | Some (c :: pattern') => get (c :: pattern') (chatInputHandlers insp)
  | _ => None
  end.

(** The disposer [chatInput] returns. *)
Definition chatInput_dispose (pattern : jsstring) (insp : Inspector)
    : Inspector :=
  {| id := id insp;
     domain := domain insp;
     chatInputCombinationsMap :=
       fold_left (fun m combo => delete combo m)
                 (generateCombinations pattern)
                 (chatInputCombinationsMap insp);
     chatInputHandlers := delete pattern (chatInputHandlers insp);
     handlers := handlers insp |}.

Definition EmitType_eqb (a b : EmitType) : bool :=
  match a, b with
  | chatInput, chatInput | button, button
  | stringSelectMenu, stringSelectMenu | userSelectMenu, userSelectMenu
  | roleSelectMenu, roleSelectMenu | channelSelectMenu, channelSelectMenu
  | mentionableSelectMenu, mentionableSelectMenu | modal, modal
  | userContextMenu, userContextMenu
  | messageContextMenu, messageContextMenu => true
  | _, _ => false
  end.

(** [button], [stringSelectMenu], ..., [messageContextMenu]: the nine
    methods that key a handler by id, each in the map of its type. *)
Definition keyed_register (type : EmitType) (key : jsstring) (handle : Fn W)
    (insp : Inspector) : Inspector :=
  {| id := id insp;
     domain := domain insp;
     chatInputCombinationsMap := chatInputCombinationsMap insp;
     chatInputHandlers := chatInputHandlers insp;
     handlers := fun t =>
       if EmitType_eqb t type then set key handle (handlers insp t)
       else handlers insp t |}.

(** The disposer each of them returns. *)
Definition keyed_dispose (type : EmitType) (key : jsstring)
    (insp : Inspector) : Inspector :=
  {| id := id insp;
     domain := domain insp;
     chatInputCombinationsMap := chatInputCombinationsMap insp;
     chatInputHandlers := chatInputHandlers insp;
     handlers := fun t =>
       if EmitType_eqb t type then delete key (handlers insp t)
       else handlers insp t |}.

End WithWorld.

End Inspector.

(* ------------------------------------------------------------------ *)
(** ** Pack (lib/Pack)

    The packs form a tree: each [Pack] object stands in one place. *)

Module PackTree.

Inductive InteractionType : Type :=
| ChatInput | User | Message | Button | StringSelectMenu | UserSelectMenu
| RoleSelectMenu | ChannelSelectMenu | MentionableSelectMenu | Modal.

Definition type_name (t : InteractionType) : jsstring :=
  match t with
  | ChatInput => js "ChatInput"
  | User => js "User"
  | Message => js "Message"
  | Button => js "Button"
  | StringSelectMenu => js "StringSelectMenu"
  | UserSelectMenu => js "UserSelectMenu"
  | RoleSelectMenu => js "RoleSelectMenu"
  | ChannelSelectMenu => js "ChannelSelectMenu"
  | MentionableSelectMenu => js "MentionableSelectMenu"
  | Modal => js "Modal"
  end.

(** What registration throws. *)
Inductive exn : Type :=
| Error (message : jsstring)
| CommandNameNoCombinationsError (message : jsstring)
| CommandNameExceededMaxLengthError (message : jsstring)
    (nameCombinationsSplited : list (list jsstring)).

Section WithWorld.

Variable W : Type.
Variable generateCombinations : jsstring -> list jsstring.

(** A registered interaction; [i_name] is there for commands and
    [i_nameCombinations] for slash commands. *)
Record Interaction : Type := {
  i_id : jsstring;
  i_type : InteractionType;
  i_name : option jsstring;
  i_nameCombinations : option (list jsstring);
  i_handle : Fn W
}.

Record EventData : Type := {
  event : jsstring;
  handle : Fn W
}.

Inductive Pack : Type := mkPack {
  pack_id : jsstring;
  data_locales : Collection LocaleStore.Locale;
  data_subPacks : list (jsstring * Pack);
  data_interactions : Collection Interaction;
  data_events : Collection EventData;
  data_inspectors : Collection (Inspector.Inspector W);
  _events : Emitter.ResultEventEmitter W
}.

Definition new (id : jsstring) : Pack :=
  mkPack id [] [] [] [] [] (Emitter.empty W).

(** [subPacks.forEach(f)], the results in one list. *)
Definition forEach_subPacks (f : Pack -> M W (list value * Pack))
    : list (jsstring * Pack) -> M W (list value * list (jsstring * Pack)) :=
  fix forEach (l : list (jsstring * Pack)) :=
    match l with
    | [] => ret ([], [])
    | (key, subPack) :: l' =>
        ' (results, subPack') <- f subPack ;;
        ' (rest, l'') <- forEach l' ;;
        ret (results ++ rest, (key, subPack') :: l'')
    end.

(** [emitEvent]: this pack's listeners, then every sub-pack in turn. *)
Fixpoint emitEvent (ev : jsstring) (args : jsargs) (p : Pack) {struct p}
    : M W (list value * Pack) :=
  match p with
  | mkPack id locs subs ints evs insps em =>
      ' (thisResults, em') <- Emitter.emit ev args em ;;
      ' (subResults, subs') <- forEach_subPacks (emitEvent ev args) subs ;;
      ret (thisResults ++ subResults,
           mkPack id locs subs' ints evs insps em')
  end.

(** [for (const [, subPack] of subPacks)] with a [return] at the first
    result of [f] other than [undefined]. *)
Definition trySubPacks (f : Pack -> M W (value * Pack))
    : list (jsstring * Pack) -> M W (value * list (jsstring * Pack)) :=
  fix try (l : list (jsstring * Pack)) :=
    match l with
    | [] => ret (Plain Undefined, [])
    | (key, subPack) :: l' =>
        ' (subResult, subPack') <- f subPack ;;
        match subResult with
        | Plain Undefined =>
            ' (result, l'') <- try l' ;;
            ret (result, (key, subPack') :: l'')
        | _ => ret (subResult, (key, subPack') :: l')
        end
    end.

(** [emitEventUntilResultSync]: this pack first, then the sub-packs until
    one gives a result other than [undefined]. *)
Fixpoint emitEventUntilResultSync (ev : jsstring) (args : jsargs) (p : Pack)
    {struct p} : M W (value * Pack) :=
  match p with
  | mkPack id locs subs ints evs insps em =>
      ' (thisResult, em') <- Emitter.emitUntilResult ev args em ;;
      match thisResult with
      | Plain Undefined =>
          ' (subResult, subs') <-
              trySubPacks (emitEventUntilResultSync ev args) subs ;;
          ret (subResult, mkPack id locs subs' ints evs insps em')
      | _ => ret (thisResult, mkPack id locs subs ints evs insps em')
      end
  end.

(** [use(pack)]: one sub-pack. *)
Definition use (arg : Pack) (p : Pack) : M W Pack :=
  ' (_, p') <-
      emitEvent (js "pack:loaded") [pack_id arg]
        (mkPack (pack_id p) (data_locales p)
           (set (pack_id arg) arg (data_subPacks p))
           (data_interactions p) (data_events p) (data_inspectors p)
           (_events p)) ;;
  ret p'.

(** [this.data.interactions.set(cfg.id, x)] followed by
    [this.emitEvent("interaction:registered", ...)], the common end of
    every registration method. *)
Definition register (x : Interaction) (p : Pack) : M W Pack :=
  ' (_, p') <-
      emitEvent (js "interaction:registered") [i_id x; type_name (i_type x)]
        (mkPack (pack_id p) (data_locales p) (data_subPacks p)
           (set (i_id x) x (data_interactions p))
           (data_events p) (data_inspectors p) (_events p)) ;;
  ret p'.

(** The disposer every registration method returns. *)
Definition unregister (id : jsstring) (type : InteractionType) (p : Pack)
    : M W Pack :=
  ' (_, p') <-
      emitEvent (js "interaction:unregistered") [id; type_name type]
        (mkPack (pack_id p) (data_locales p) (data_subPacks p)
           (delete id (data_interactions p))
           (data_events p) (data_inspectors p) (_events p)) ;;
  ret p'.

Record SlashCommandRegistrationConfig : Type := {
  slash_id : jsstring;
  slash_name : jsstring;
  slash_handle : Fn W
}.

Record ContextMenuRegistrationConfig : Type := {
  menu_id : jsstring;
  menu_name : jsstring;
  menu_handle : Fn W
}.

Record ComponentRegistrationConfig : Type := {
  component_id : jsstring;
  component_handle : Fn W
}.

Definition already_exists (what id : jsstring) : exn :=
  Error (js "Interaction with " ++ what ++ js " " ++ id
           ++ js " already exists.").

(** [id] between double quotes. *)
Definition quoted (id : jsstring) : jsstring := 34%N :: id ++ [34%N].

(** [isSlashCommandValid]: the error it throws, if any. *)
Definition isSlashCommandValid (cfg : SlashCommandRegistrationConfig)
    (nameCombinations : list jsstring) : option exn :=
  if Nat.eqb (length nameCombinations) 0
  then Some (CommandNameNoCombinationsError
               (js "Interaction with id " ++ quoted (slash_id cfg)
                  ++ js " has no name combinations."))
  else
    let nameCombinationsSplited :=
      map (split Pattern.SPACE) nameCombinations in
    if existsb
         (fun name =>
            Nat.ltb 3 (length name)
            || existsb (fun word => Nat.ltb 32 (length word)) name)
         nameCombinationsSplited
    then Some (CommandNameExceededMaxLengthError
                 (js "Interaction with id " ++ quoted (slash_id cfg)
                    ++ js " has a name combination with more than 3 words. Or a word with more than 32 characters.")
                 nameCombinationsSplited)
    else None.

Definition slashCommand (cfg : SlashCommandRegistrationConfig) (p : Pack)
    : M W (completion exn unit * Pack) :=
  if has (slash_id cfg) (data_interactions p)
  then ret (Thrown (already_exists (js "name") (slash_id cfg)), p)
  else
    let nameCombinations := generateCombinations (slash_name cfg) in
    match isSlashCommandValid cfg nameCombinations with
    | Some e => ret (Thrown e, p)
    | None =>
        p' <- register
                {| i_id := slash_id cfg;
                   i_type := ChatInput;
                   i_name := Some (slash_name cfg);
                   i_nameCombinations := Some nameCombinations;
                   i_handle := slash_handle cfg |} p ;;
        ret (Normal tt, p')
    end.

Definition contextMenu (type : InteractionType)
    (cfg : ContextMenuRegistrationConfig) (p : Pack)
    : M W (completion exn unit * Pack) :=
  if has (menu_id cfg) (data_interactions p)
  then ret (Thrown (already_exists (js "name") (menu_id cfg)), p)
  else
    p' <- register
            {| i_id := menu_id cfg;
               i_type := type;
               i_name := Some (menu_name cfg);
               i_nameCombinations := None;
               i_handle := menu_handle cfg |} p ;;
    ret (Normal tt, p').

Definition userContextMenu := contextMenu User.
Definition messageContextMenu := contextMenu Message.

Definition component (type : InteractionType)
    (cfg : ComponentRegistrationConfig) (p : Pack)
    : M W (completion exn unit * Pack) :=
  if has (component_id cfg) (data_interactions p)
  then ret (Thrown (already_exists (js "id") (component_id cfg)), p)
  else
    p' <- register
            {| i_id := component_id cfg;
               i_type := type;
               i_name := None;
               i_nameCombinations := None;
               i_handle := component_handle cfg |} p ;;
    ret (Normal tt, p').

Definition button := component Button.
Definition stringSelectMenu := component StringSelectMenu.
Definition userSelectMenu := component UserSelectMenu.
Definition roleSelectMenu := component RoleSelectMenu.
Definition channelSelectMenu := component ChannelSelectMenu.
Definition mentionableSelectMenu := component MentionableSelectMenu.
Definition modal := component Modal.

(** A call of one of the ten registration methods. *)
Inductive registration : Type :=
| CallSlashCommand (cfg : SlashCommandRegistrationConfig)
| CallUserContextMenu (cfg : ContextMenuRegistrationConfig)
| CallMessageContextMenu (cfg : ContextMenuRegistrationConfig)
| CallButton (cfg : ComponentRegistrationConfig)
| CallStringSelectMenu (cfg : ComponentRegistrationConfig)
| CallUserSelectMenu (cfg : ComponentRegistrationConfig)
| CallRoleSelectMenu (cfg : ComponentRegistrationConfig)
| CallChannelSelectMenu (cfg : ComponentRegistrationConfig)
| CallMentionableSelectMenu (cfg : ComponentRegistrationConfig)
| CallModal (cfg : ComponentRegistrationConfig).

Definition registered_id (c : registration) : jsstring :=
  match c with
  | CallSlashCommand cfg => slash_id cfg
  | CallUserContextMenu cfg | CallMessageContextMenu cfg => menu_id cfg
  | CallButton cfg | CallStringSelectMenu cfg | CallUserSelectMenu cfg
  | CallRoleSelectMenu cfg | CallChannelSelectMenu cfg
  | CallMentionableSelectMenu cfg | CallModal cfg => component_id cfg
  end.

Definition perform (c : registration) (p : Pack)
    : M W (completion exn unit * Pack) :=
  match c with
  | CallSlashCommand cfg => slashCommand cfg p
  | CallUserContextMenu cfg => userContextMenu cfg p
  | CallMessageContextMenu cfg => messageContextMenu cfg p
  | CallButton cfg => button cfg p
  | CallStringSelectMenu cfg => stringSelectMenu cfg p
  | CallUserSelectMenu cfg => userSelectMenu cfg p
  | CallRoleSelectMenu cfg => roleSelectMenu cfg p
  | CallChannelSelectMenu cfg => channelSelectMenu cfg p
  | CallMentionableSelectMenu cfg => mentionableSelectMenu cfg p
  | CallModal cfg => modal cfg p
  end.

(** Nothing but the id check can refuse the call: only a slash command
    has its name validated. *)
Definition accepted (c : registration) : Prop :=
  match c with
  | CallSlashCommand cfg =>
      isSlashCommandValid cfg (generateCombinations (slash_name cfg)) = None
  | _ => True
  end.

(** A name combination [isSlashCommandValid] refuses: more than 3 words
    between spaces, or a word of more than 32 code units. *)
Definition too_long (name : jsstring) : Prop :=
  3 < length (split Pattern.SPACE name) \/
  exists word, In word (split Pattern.SPACE name) /\ 32 < length word.

(** A duplicate-id error: the plain [Error] the methods throw first. *)
Definition is_duplicate_id_error (e : exn) : bool :=
  match e with Error _ => true | _ => false end.

(** The packs of a tree, each before its sub-packs. *)
Fixpoint preorder (p : Pack) : list Pack :=
  p :: flat_map (fun kp => preorder (snd kp)) (data_subPacks p).

(** What [emit] puts in its results for one listener. *)
Definition collected (o : outcome) : value :=
  match o with Return v => v | Throw error => Plain error end.

(** Every pack's own [emit], pack after pack, the results in one list. *)
Fixpoint emit_each (ev : jsstring) (args : jsargs) (packs : list Pack)
    : M W (list value) :=
  match packs with
  | [] => ret []
  | p :: rest =>
      ' (results, _) <- Emitter.emit ev args (_events p) ;;
      more <- emit_each ev args rest ;;
      ret (results ++ more)
  end.

(** Every pack's own [emitUntilResult], pack after pack, up to the first
    that gives a result. *)
Fixpoint scan_until_result (ev : jsstring) (args : jsargs)
    (packs : list Pack) : M W value :=
  match packs with
  | [] => ret (Plain Undefined)
  | p :: rest =>
      ' (result, _) <- Emitter.emitUntilResult ev args (_events p) ;;
      match result with
      | Plain Undefined => scan_until_result ev args rest
      | _ => ret result
      end
  end.

(** [emitEventUntilResultAsync]: as the sync one, with every listener's
    result awaited. *)
Fixpoint emitEventUntilResultAsync (ev : jsstring) (args : jsargs) (p : Pack)
    {struct p} : M W (value * Pack) :=
  match p with
  | mkPack id locs subs ints evs insps em =>
      ' (thisResult, em') <- Emitter.emitUntilResultAsync ev args em ;;
      match thisResult with
      | Plain Undefined =>
          ' (subResult, subs') <-
              trySubPacks (emitEventUntilResultAsync ev args) subs ;;
          ret (subResult, mkPack id locs subs' ints evs insps em')
      | _ => ret (thisResult, mkPack id locs subs ints evs insps em')
      end
  end.

(** No listener of [ev] in these packs hands back, for [args], a promise
    fulfilled with a result. *)
Definition plain_listeners (ev : jsstring) (args : jsargs)
    (packs : list Pack) : Prop :=
  forall q e w,
    In q packs ->
    In e (Emitter.getListenerEntries ev (_events q)) ->
    Emitter.fulfilled_with_result
      (fst (fn_run (Emitter.entry_listener e) args w)) = false.

(** [event(cfg)]: the handler goes under an id made of the pack's id, the
    event name and [now], the text of [Date.now()]. *)
Definition eventId (p : Pack) (name now : jsstring) : jsstring :=
  pack_id p ++ 58%N :: name ++ 58%N :: now.

Definition register_event (now : jsstring) (cfg : EventData) (p : Pack)
    : Pack :=
  mkPack (pack_id p) (data_locales p) (data_subPacks p) (data_interactions p)
    (set (eventId p (event cfg) now) cfg (data_events p))
    (data_inspectors p) (_events p).

(** The disposer it returns. *)
Definition register_event_dispose (now : jsstring) (cfg : EventData)
    (p : Pack) : Pack :=
  mkPack (pack_id p) (data_locales p) (data_subPacks p) (data_interactions p)
    (delete (eventId p (event cfg) now) (data_events p))
    (data_inspectors p) (_events p).

(** The disposer [use] returns for a pack. *)
Definition use_dispose (arg : Pack) (p : Pack) : M W Pack :=
  ' (_, p') <-
      emitEvent (js "pack:unloaded") [pack_id arg]
        (mkPack (pack_id p) (data_locales p)
           (delete (pack_id arg) (data_subPacks p))
           (data_interactions p) (data_events p) (data_inspectors p)
           (_events p)) ;;
  ret p'.

(** What a registration call stores when it goes through, and the type
    its events name. *)
Definition interaction_of (c : registration) : Interaction :=
  match c with
  | CallSlashCommand cfg =>
      {| i_id := slash_id cfg;
         i_type := ChatInput;
         i_name := Some (slash_name cfg);
         i_nameCombinations := Some (generateCombinations (slash_name cfg));
         i_handle := slash_handle cfg |}
  | CallUserContextMenu cfg =>
      {| i_id := menu_id cfg; i_type := User; i_name := Some (menu_name cfg);
         i_nameCombinations := None; i_handle := menu_handle cfg |}
  | CallMessageContextMenu cfg =>
      {| i_id := menu_id cfg; i_type := Message;
         i_name := Some (menu_name cfg);
         i_nameCombinations := None; i_handle := menu_handle cfg |}
  | CallButton cfg =>
      {| i_id := component_id cfg; i_type := Button; i_name := None;
         i_nameCombinations := None; i_handle := component_handle cfg |}
  | CallStringSelectMenu cfg =>
      {| i_id := component_id cfg; i_type := StringSelectMenu;
         i_name := None;
         i_nameCombinations := None; i_handle := component_handle cfg |}
  | CallUserSelectMenu cfg =>
      {| i_id := component_id cfg; i_type := UserSelectMenu; i_name := None;
         i_nameCombinations := None; i_handle := component_handle cfg |}
  | CallRoleSelectMenu cfg =>
      {| i_id := component_id cfg; i_type := RoleSelectMenu; i_name := None;
         i_nameCombinations := None; i_handle := component_handle cfg |}
  | CallChannelSelectMenu cfg =>
      {| i_id := component_id cfg; i_type := ChannelSelectMenu;
         i_name := None;
         i_nameCombinations := None; i_handle := component_handle cfg |}
  | CallMentionableSelectMenu cfg =>
      {| i_id := component_id cfg; i_type := MentionableSelectMenu;
         i_name := None;
         i_nameCombinations := None; i_handle := component_handle cfg |}
  | CallModal cfg =>
      {| i_id := component_id cfg; i_type := Modal; i_name := None;
         i_nameCombinations := None; i_handle := component_handle cfg |}
  end.

(** The disposer a registration call returns. *)
Definition dispose (c : registration) (p : Pack) : M W Pack :=
  unregister (registered_id c) (i_type (interaction_of c)) p.

(** Every interaction of the pack sits under its own id. *)
Definition keyed (p : Pack) : Prop :=
  forall k x, In (k, x) (data_interactions p) -> i_id x = k.

(** The entries that listen to [ev] in a row of packs, pack after pack. *)
Definition heard (ev : jsstring) (packs : list Pack) : list nat :=
  flat_map
    (fun q => map (@Emitter.entry_ref W)
                  (Emitter.getListenerEntries ev (_events q)))
    packs.

(** The same pack with other sub-packs. *)
Definition with_subPacks (subs : list (jsstring * Pack)) (p : Pack) : Pack :=
  mkPack (pack_id p) (data_locales p) subs (data_interactions p)
    (data_events p) (data_inspectors p) (_events p).

End WithWorld.

Definition InteractionType_eqb (a b : InteractionType) : bool :=
  match a, b with
  | ChatInput, ChatInput | User, User | Message, Message | Button, Button
  | StringSelectMenu, StringSelectMenu | UserSelectMenu, UserSelectMenu
  | RoleSelectMenu, RoleSelectMenu | ChannelSelectMenu, ChannelSelectMenu
  | MentionableSelectMenu, MentionableSelectMenu | Modal, Modal => true
  | _, _ => false
  end.

End PackTree.

(** A root pack with one sub-pack, one listener of ["ping"] on each: the
    root's listener answers with a promise, the sub-pack's with 1. *)
Module PackExample.

Import PackTree.

Definition listener (ref : nat) (answer : value) : Fn unit :=
  {| fn_ref := ref; fn_run := fun _ w => (Return answer, w) |}.

Definition listening (ref : nat) (answer : value)
    : Emitter.ResultEventEmitter unit :=
  {| Emitter.eventListeners :=
       [(js "ping",
         [{| Emitter.entry_ref := ref;
             Emitter.entry_listener := listener ref answer;
             Emitter.entry_once := false |}])];
     Emitter.lastResults := [] |}.

Definition child : Pack unit :=
  mkPack (js "child") [] [] [] [] [] (listening 2 (Plain (Defined 1))).

Definition start : Run unit := {| world := tt; nextRef := 3; trace := [] |}.

(** [parent.use(child)]. *)
Definition parent (answer : value) : Pack unit :=
  fst (use child
         (mkPack (js "parent") [] [] [] [] [] (listening 1 answer)) start).

(** A pack that holds a slash command under the id ["ping"], and
    configurations to register. *)
Definition handler (ref : nat) : Fn unit :=
  {| fn_ref := ref; fn_run := fun _ w => (Return (Plain Undefined), w) |}.

Definition ping : Interaction unit :=
  {| i_id := js "ping";
     i_type := ChatInput;
     i_name := Some (js "ping");
     i_nameCombinations := Some [js "ping"];
     i_handle := handler 20 |}.

Definition with_ping : Pack unit :=
  mkPack (js "commands") [] [] [(js "ping", ping)] [] []
    (Emitter.empty unit).

Definition slash (id name : string) (ref : nat)
    : SlashCommandRegistrationConfig unit :=
  {| slash_id := js id; slash_name := js name; slash_handle := handler ref |}.

Definition ping_button : ComponentRegistrationConfig unit :=
  {| component_id := js "ping"; component_handle := handler 22 |}.

End PackExample.

(* ------------------------------------------------------------------ *)
(** ** The deep defaults of the [stuffs] package *)

Module Stuffs.

Import LocaleStore.

(** [own] with the keys it lacks taken from [def], level by level. *)
Fixpoint fill (own : ContentValue) (def : option ContentValue)
    : ContentValue :=
  match own with
  | Node fields =>
      match def with
      | Some (Node defaults) =>
          Node (map (fun kv => (fst kv, fill (snd kv) (get (fst kv) defaults)))
                    fields
                ++ filter (fun kv => negb (has (fst kv) fields)) defaults)
      | _ => own
      end
  | Leaf _ => own
  end.

(** Modelled from the spec: [defaultify(obj, def, true)] of the external
    package [stuffs], which src/ does not hold.  The result keeps every
    key of [obj] with [obj]'s value and takes from [def] the keys [obj]
    lacks, going down where both sides hold an object ("defaults do not
    override existing", "back-fills ... any key missing"). *)
Definition defaultify (obj def : ContentTree) : ContentTree :=
  map (fun kv => (fst kv, fill (snd kv) (get (fst kv) def))) obj
  ++ filter (fun kv => negb (has (fst kv) obj)) def.

End Stuffs.

(* ------------------------------------------------------------------ *)
(** ** The root pack (lib/Tessen) and slash-command dispatch
       (utils/handleInteraction) *)

Module Root.

Import LocaleStore PackTree.

Section WithWorld.

Variable W : Type.

(** [defaultify(obj, def, true)] of the [stuffs] package, on content
    trees. *)
Variable defaultify : ContentTree -> ContentTree -> ContentTree.

Record CacheData (T : Type) : Type := {
  path : list jsstring;
  data : T
}.

(** The cached objects are the tree's own objects; the cache below holds
    them as they were when [refresh] ran. *)
Record Cache : Type := {
  cache_locales : Collection (CacheData Locale);
  cache_subPacks : Collection (CacheData (Pack W));
  cache_interactions : Collection (CacheData (Interaction W));
  cache_events : Collection (CacheData (EventData W));
  cache_inspectors : Collection (CacheData (Inspector.Inspector W))
}.

Definition cleared : Cache :=
  {| cache_locales := []; cache_subPacks := []; cache_interactions := [];
     cache_events := []; cache_inspectors := [] |}.

(** [collection.forEach((x, key) => cache.set(key, { path, data: x }))]. *)
Definition push (T : Type) (path : list jsstring) (items : Collection T)
    (cache : Collection (CacheData T)) : Collection (CacheData T) :=
  fold_left
    (fun c item => set (fst item) {| path := path; data := snd item |} c)
    items cache.

(** [subPacks.forEach((subPack, key) => ...)] of [pushCache]; [f] is the
    recursive call. *)
Definition pushCache_subPacks (f : Pack W -> Cache -> Cache)
    (path : list jsstring)
    : list (jsstring * Pack W) -> Cache -> Cache :=
  fix forEach (l : list (jsstring * Pack W)) (cache : Cache) : Cache :=
    match l with
    | [] => cache
    | (key, subPack) :: l' =>
        forEach l'
          (f subPack
             {| cache_locales := cache_locales cache;
                cache_subPacks :=
                  set key {| path := path; data := subPack |}
                      (cache_subPacks cache);
                cache_interactions := cache_interactions cache;
                cache_events := cache_events cache;
                cache_inspectors := cache_inspectors cache |})
    end.

Fixpoint pushCache (pack : Pack W) (path : list jsstring) (cache : Cache)
    {struct pack} : Cache :=
  match pack with
  | mkPack id locs subs ints evs insps _ =>
      pushCache_subPacks
        (fun subPack => pushCache subPack (path ++ [id])) path subs
        {| cache_locales := push path locs (cache_locales cache);
           cache_subPacks := cache_subPacks cache;
           cache_interactions := push path ints (cache_interactions cache);
           cache_events := push path evs (cache_events cache);
           cache_inspectors := push path insps (cache_inspectors cache) |}
  end.

Record Tessen : Type := {
  root : Pack W;
  defaults_language : option jsstring;
  cache : Cache;
  locales_content : Collection ContentTree
}.

(** [this.config.defaults?.language || 'en']. *)
Definition defaultLanguage (t : Tessen) : jsstring :=
  match defaults_language t with
  | Some (c :: l) => c :: l
  | _ => js "en"
  end.

(** First pass of [refresh] over the cached locales, content side. *)
Definition collectContent (locales : Collection (CacheData Locale))
    : Collection ContentTree :=
  fold_left
    (fun acc entry =>
       fold_left
         (fun acc lc =>
            let currentContentLocale :=
              match get (fst lc) acc with Some c => c | None => [] end in
            set (fst lc) (defaultify (snd lc) currentContentLocale) acc)
         (content (data (snd entry))) acc)
    locales [].

(** Second pass of [refresh]: every language but the default one is
    defaultified with the default language's tree. *)
Definition backfill (defaultLang : jsstring)
    (contentMap : Collection ContentTree) : Collection ContentTree :=
  let defaultContentLocale :=
    match get defaultLang contentMap with Some c => c | None => [] end in
  map (fun lc =>
         if jsstring_eqb (fst lc) defaultLang then lc
         else (fst lc, defaultify (snd lc) defaultContentLocale))
      contentMap.

Definition refresh (t : Tessen) : M W Tessen :=
  let cache := pushCache (root t) [] cleared in
  let contentMap := collectContent (cache_locales cache) in
  let contentMap' := backfill (defaultLanguage t) contentMap in
  ' (_, root1) <- emitEvent (js "tessen:cacheRefreshed") [] (root t) ;;
  ' (_, root2) <-
      emitEvent (js "tessen:localesRefreshed") (keys contentMap) root1 ;;
  ret {| root := root2;
         defaults_language := defaults_language t;
         cache := cache;
         locales_content := contentMap' |}.

(** The registrations of a tree in the order [pushCache] meets them,
    each with the path it is cached under. *)
Fixpoint registrations (pack : Pack W) (path : list jsstring)
    : list (jsstring * CacheData (Interaction W)) :=
  map (fun item => (fst item, {| path := path; data := snd item |}))
      (data_interactions pack)
  ++ flat_map (fun kp => registrations (snd kp) (path ++ [pack_id pack]))
       (data_subPacks pack).

(** The last entry under [key] in a list of keyed entries. *)
Definition last_under (T : Type) (key : jsstring) (l : list (jsstring * T))
    : option T :=
  get key (rev l).

(** Dispatch of an inbound slash command. *)

Record ChatInputCommand : Type := {
  commandName : jsstring;
  subcommandGroup : option jsstring;
  subcommand : option jsstring
}.

(** [if (part) fullCommandName += ` ${part}`]. *)
Definition append_part (name : jsstring) (part : option jsstring)
    : jsstring :=
  match part with
  | Some (c :: s) => name ++ Pattern.SPACE :: c :: s
  | _ => name
  end.

Definition fullCommandName (i : ChatInputCommand) : jsstring :=
  append_part (append_part (commandName i) (subcommandGroup i))
              (subcommand i).

(** The test of the first loop of [handleChatInputCommand]; a registered
    interaction always has a type. *)
Definition is_slash_match (full : jsstring) (x : Interaction W) : bool :=
  match i_nameCombinations x with
  | Some combos =>
      existsb (jsstring_eqb full) combos
      && match i_type x with ChatInput => true | _ => false end
  | None => false
  end.

Fixpoint tryInspectors (full : jsstring) (wrapper : jsargs)
    (l : list (jsstring * CacheData (Inspector.Inspector W))) : M W unit :=
  match l with
  | [] => ret tt
  | (_, cachedInspector) :: l' =>
      result <- Inspector.emit Inspector.chatInput full wrapper
                  (data cachedInspector) ;;
      match result with
      | Undefined => tryInspectors full wrapper l'
      | Defined _ => ret tt
      end
  end.

Definition handleChatInputCommand (t : Tessen) (interaction : ChatInputCommand)
    : M W (completion plain unit) :=
  let full := fullCommandName interaction in
  let wrapper := [full] in
  match find (fun entry => is_slash_match full (data (snd entry)))
             (cache_interactions (cache t)) with
  | Some (_, cachedInteraction) =>
      let h := i_handle (data cachedInteraction) in
      o <- call (fn_ref h) h wrapper ;;
      ret (match awaited o with
           | inl _ => Normal tt
           | inr e => Thrown e
           end)
  | None =>
      _ <- tryInspectors full wrapper (cache_inspectors (cache t)) ;;
      ret (Normal tt)
  end.

(** Dispatch of the other kinds of interaction. *)

(** The loop over the cached inspectors, for any kind. *)
Fixpoint tryInspectorsFor (type : Inspector.EmitType) (key : jsstring)
    (wrapper : jsargs)
    (l : list (jsstring * CacheData (Inspector.Inspector W))) : M W unit :=
  match l with
  | [] => ret tt
  | (_, cachedInspector) :: l' =>
      result <- Inspector.emit type key wrapper (data cachedInspector) ;;
      match result with
      | Undefined => tryInspectorsFor type key wrapper l'
      | Defined _ => ret tt
      end
  end.

(** What the handlers share: the first cached interaction that passes
    the test gets the call; without one the inspectors are tried. *)
Definition dispatch (test : Interaction W -> bool)
    (type : Inspector.EmitType) (key : jsstring) (wrapper : jsargs)
    (t : Tessen) : M W (completion plain unit) :=
  match find (fun entry => test (data (snd entry)))
             (cache_interactions (cache t)) with
  | Some (_, cachedInteraction) =>
      let h := i_handle (data cachedInteraction) in
      o <- call (fn_ref h) h wrapper ;;
      ret (match awaited o with
           | inl _ => Normal tt
           | inr e => Thrown e
           end)
  | None =>
      _ <- tryInspectorsFor type key wrapper (cache_inspectors (cache t)) ;;
      ret (Normal tt)
  end.

(** [interactionData.type === type && interactionData.name === commandName]. *)
Definition is_menu_match (type : InteractionType) (commandName : jsstring)
    (x : Interaction W) : bool :=
  InteractionType_eqb (i_type x) type
  && match i_name x with
     | Some name => jsstring_eqb name commandName
     | None => false
     end.

Definition handleUserContextMenuCommand (t : Tessen) (commandName : jsstring)
    : M W (completion plain unit) :=
  dispatch (is_menu_match User commandName) Inspector.userContextMenu
    commandName [commandName] t.

Definition handleMessageContextMenuCommand (t : Tessen)
    (commandName : jsstring) : M W (completion plain unit) :=
  dispatch (is_menu_match Message commandName) Inspector.messageContextMenu
    commandName [commandName] t.

(** [interactionData.type === type && interactionData.id === baseCustomId]. *)
Definition is_component_match (type : InteractionType)
    (baseCustomId : jsstring) (x : Interaction W) : bool :=
  InteractionType_eqb (i_type x) type && jsstring_eqb (i_id x) baseCustomId.

(** The seven handlers of components and modals, from the point where
    [parseCustomData] has given [baseCustomId]; [wrapper] is the context
    built from the interaction and the parsed data. *)
Definition handleComponentInteraction (type : InteractionType)
    (kind : Inspector.EmitType) (t : Tessen) (baseCustomId : jsstring)
    (wrapper : jsargs) : M W (completion plain unit) :=
  dispatch (is_component_match type baseCustomId) kind baseCustomId wrapper t.

Definition handleButtonInteraction :=
  handleComponentInteraction Button Inspector.button.
Definition handleStringSelectMenuInteraction :=
  handleComponentInteraction StringSelectMenu Inspector.stringSelectMenu.
Definition handleUserSelectMenuInteraction :=
  handleComponentInteraction UserSelectMenu Inspector.userSelectMenu.
Definition handleRoleSelectMenuInteraction :=
  handleComponentInteraction RoleSelectMenu Inspector.roleSelectMenu.
Definition handleChannelSelectMenuInteraction :=
  handleComponentInteraction ChannelSelectMenu Inspector.channelSelectMenu.
Definition handleMentionableSelectMenuInteraction :=
  handleComponentInteraction MentionableSelectMenu
    Inspector.mentionableSelectMenu.
Definition handleModalSubmitInteraction :=
  handleComponentInteraction Modal Inspector.modal.

(** Every cached interaction sits under its own id. *)
Definition cache_keyed (c : Cache) : Prop :=
  forall k e, In (k, e) (cache_interactions c) -> i_id (data e) = k.

(** Two caches that hold the same registry data, whatever the state of
    the packs they hold. *)
Definition same_registry (a b : Cache) : Prop :=
  cache_locales a = cache_locales b /\
  cache_interactions a = cache_interactions b /\
  cache_events a = cache_events b /\
  cache_inspectors a = cache_inspectors b.

(** Localization objects (utils/handleInteraction). *)

Definition DASH : code_unit := 45%N.

(** [locale?.split('-')[0]]. *)
Definition base_language (locale : option jsstring) : option jsstring :=
  match locale with
  | Some l => Some (hd [] (split DASH l))
  | None => None
  end.

(** [a || b] on a string that may be missing. *)
Definition or_else (a : option jsstring) (b : jsstring) : jsstring :=
  match a with
  | Some (c :: s) => c :: s
  | _ => b
  end.

Record Localization : Type := {
  locale_guild : ContentTree;
  locale_user : ContentTree
}.

Definition createInteractionLocalizationObjects (t : Tessen)
    (preferredLocale interactionLocale : option jsstring) : Localization :=
  let defaultLocalization :=
    match get (defaultLanguage t) (locales_content t) with
    | Some c => c
    | None => []
    end in
  let guildLocale := or_else (base_language preferredLocale)
                             (defaultLanguage t) in
  let userLocale := or_else (base_language interactionLocale) guildLocale in
  {| locale_guild :=
       match get guildLocale (locales_content t) with
       | Some c => c
       | None => defaultLocalization
       end;
     locale_user :=
       match get userLocale (locales_content t) with
       | Some c => c
       | None => defaultLocalization
       end |}.

End WithWorld.

End Root.

(* ------------------------------------------------------------------ *)
(** ** Helpers of utils/publishInteractions *)

Module Publish.

Definition DISCORD_LOCALES : list jsstring :=
  map js
    ["id"; "da"; "de"; "en-GB"; "en-US"; "es-ES"; "es-419"; "fr"; "hr";
     "it"; "lt"; "hu"; "nl"; "no"; "pl"; "pt-BR"; "ro"; "fi"; "sv-SE";
     "vi"; "tr"; "cs"; "el"; "bg"; "ru"; "uk"; "hi"; "th"; "zh-CN"; "ja";
     "zh-TW"; "ko"]%string.

(** [s.startsWith(prefix)]. *)
Fixpoint startsWith (prefix s : jsstring) : bool :=
  match prefix, s with
  | [], _ => true
  | c :: prefix', d :: s' => N.eqb c d && startsWith prefix' s'
  | _ :: _, [] => false
  end.

Definition getDiscordLocales (internalLocale : jsstring) : list jsstring :=
  filter
    (fun discordLocale =>
       startsWith (internalLocale ++ [Root.DASH]) discordLocale
       || jsstring_eqb discordLocale internalLocale)
    DISCORD_LOCALES.

(** A code unit that [/[A-Z]/] matches. *)
Definition is_capital (c : code_unit) : bool :=
  (N.leb 65 c && N.leb c 90)%bool.

(** [str.replace(/[A-Z]/g, letter => "_" + letter.toLowerCase())]. *)
Definition toSnakeCase (str : jsstring) : jsstring :=
  flat_map (fun c => if is_capital c then [95%N; (c + 32)%N] else [c]) str.

End Publish.

(** A small emitter to run: on ["ready"], a one-shot listener and a
    lasting one, each counting its calls in the world. *)
Module EmitterExample.

Definition counting (ref result : nat) : Fn nat :=
  {| fn_ref := ref;
     fn_run := fun _ w => (Return (Plain (Defined result)), S w) |}.



Definition nothing_yet : Run nat :=
  {| world := 0; nextRef := 0; trace := [] |}.

(** [emitter.once("ready", ...)] and then [emitter.on("ready", ...)]. *)
Definition registering : Emitter.ResultEventEmitter nat * Run nat :=
  (em <- Emitter.once (js "ready") (counting 10 1) (Emitter.empty nat) ;;
   Emitter.on (js "ready") (counting 11 2) em) nothing_yet.

Definition emitter : Emitter.ResultEventEmitter nat := fst registering.

Definition start : Run nat := snd registering.

End EmitterExample.

(** Emissions that are left early or that overlap, on the emitter of
    [EmitterExample]. *)
Module EmissionExample.

Import Emitter EmitterExample.






End EmissionExample.

(** An emitter built by calls of its methods: on ["ready"] one function
    registered twice around another one, and a one-shot listener of
    ["close"]. *)
Module ListenerExample.

Definition promising (ref result : nat) : Fn nat :=
  {| fn_ref := ref;
     fn_run := fun _ w =>
       (Return (Promise (Fulfilled (Defined result))), S w) |}.

Definition program : list (Emitter.operation nat) :=
  [Emitter.CallOn (js "ready") (EmitterExample.counting 10 1);
   Emitter.CallOn (js "ready") (EmitterExample.counting 11 2);
   Emitter.CallOn (js "ready") (EmitterExample.counting 10 1);
   Emitter.CallOnce (js "close") (EmitterExample.counting 12 3)].

Definition built : Emitter.ResultEventEmitter nat * Run nat :=
  Emitter.operate_all program (Emitter.empty nat) EmitterExample.nothing_yet.

Definition emitter : Emitter.ResultEventEmitter nat := fst built.

Definition start : Run nat := snd built.

(** The same with a listener of ["open"] that answers with a promise. *)
Definition with_promise : Emitter.ResultEventEmitter nat :=
  fst (Emitter.on (js "open") (promising 14 5) emitter start).

End ListenerExample.

(** A root to run: two sub-packs that both register a slash command under
    the id ["ping"], an inspector whose handler returns nothing, and one
    locale store with an English and a Turkish fragment. *)
Module RootExample.

Import LocaleStore PackTree Root.

Definition command (name : string) (ref : nat) : Interaction unit :=
  {| i_id := js "ping";
     i_type := ChatInput;
     i_name := Some (js name);
     i_nameCombinations := Some [js name];
     i_handle := PackExample.handler ref |}.

(** [pack.slashCommand({ id: "ping", name, handle })] on a new pack. *)
Definition registered_in (pack name : string) (ref : nat) : Pack unit :=
  snd (fst (slashCommand Pattern.generateCombinations
              (PackExample.slash "ping" name ref)
              (PackTree.new unit (js pack)) PackExample.start)).

Definition left_pack : Pack unit := registered_in "left" "ping" 30.

Definition right_pack : Pack unit := registered_in "right" "pong" 31.

Definition texts : Locale :=
  addLocale (js "turkish") (js "tr")
    [(js "a", Obj [(js "c", Str (js "selam"))])]
    (addLocale (js "english") (js "en")
       [(js "a", Obj [(js "b", Str (js "hello"))])]
       (LocaleStore.new (js "texts"))).

Definition watcher : Inspector.Inspector unit :=
  Inspector.chatInput_register Pattern.generateCombinations
    (js "status") (PackExample.handler 40)
    {| Inspector.id := js "watcher";
       Inspector.domain := js "AllSubPacks";
       Inspector.chatInputCombinationsMap := [];
       Inspector.chatInputHandlers := [];
       Inspector.handlers := fun _ => [] |}.

(** [root.use(left_pack)] and then [root.use(right_pack)]. *)
Definition root_pack : Pack unit :=
  fst ((p <- use left_pack
              (mkPack (js "root") [(js "texts", texts)] [] [] []
                 [(js "watcher", watcher)] (Emitter.empty unit)) ;;
        use right_pack p) PackExample.start).

Definition tessen : Tessen unit :=
  {| root := root_pack;
     defaults_language := Some (js "en");
     cache := cleared unit;
     locales_content := [] |}.

Definition start : Run unit := {| world := tt; nextRef := 50; trace := [] |}.

Definition refreshed : Tessen unit :=
  fst (refresh Stuffs.defaultify tessen start).

Definition status : ChatInputCommand :=
  {| commandName := js "status"; subcommandGroup := None;
     subcommand := None |}.

End RootExample.

(** A root whose one sub-pack registers the button ["vote"], refreshed. *)
Module ComponentExample.

Import PackTree Root.

Definition vote : ComponentRegistrationConfig unit :=
  {| component_id := js "vote"; component_handle := PackExample.handler 60 |}.

(** [pack.button({ id: "vote", handle })] on a new pack. *)
Definition buttons : Pack unit :=
  snd (fst (button vote (PackTree.new unit (js "buttons"))
              PackExample.start)).

Definition root_pack : Pack unit :=
  fst (use buttons (PackTree.new unit (js "root")) PackExample.start).

Definition tessen : Tessen unit :=
  {| root := root_pack;
     defaults_language := None;
     cache := cleared unit;
     locales_content := [] |}.

Definition refreshed : Tessen unit :=
  fst (refresh Stuffs.defaultify tessen RootExample.start).

End ComponentExample.

(* ================================================================== *)
(** * Theorems *)

(* ------------------------------------------------------------------ *)
(** ** Strings and collections *)

Lemma jsstring_eqb_eq (a b : jsstring) : jsstring_eqb a b = true <-> a = b.
Proof.
  revert b; induction a as [|x a IH]; intros [|y b]; simpl;
    try (split; [discriminate | discriminate]); try tauto.
  rewrite andb_true_iff, N.eqb_eq, IH. split.
  - intros [-> ->]; reflexivity.
  - intros E; injection E; auto.
Qed.

Lemma jsstring_eqb_refl (a : jsstring) : jsstring_eqb a a = true.
Proof. apply jsstring_eqb_eq; reflexivity. Qed.

Lemma jsstring_eqb_neq (a b : jsstring) : jsstring_eqb a b = false <-> a <> b.
Proof.
  rewrite <- jsstring_eqb_eq. destruct (jsstring_eqb a b); split; congruence.
Qed.

Lemma split_nonempty (sep : code_unit) (s : jsstring) : split sep s <> [].
Proof.
  destruct s as [|c s]; simpl; [discriminate|].
  destruct (N.eqb c sep); [discriminate|].
  destruct (split sep s); discriminate.
Qed.

Lemma split_without_separator (sep : code_unit) (s : jsstring) :
  ~ In sep s -> split sep s = [s].
Proof.
  induction s as [|c s IH]; simpl; intros H; [reflexivity|].
  destruct (N.eqb_spec c sep) as [E|E]; [exfalso; auto|].
  rewrite IH by tauto. reflexivity.
Qed.

Lemma split_app_separator (sep : code_unit) (s t : jsstring) :
  ~ In sep s -> split sep (s ++ sep :: t) = s :: split sep t.
Proof.
  induction s as [|c s IH]; simpl; intros H.
  - rewrite N.eqb_refl. reflexivity.
  - destruct (N.eqb_spec c sep) as [E|E]; [exfalso; auto|].
    rewrite IH by tauto. reflexivity.
Qed.

Lemma split_join (sep : code_unit) (p : jsstring) (ps : list jsstring) :
  Forall (fun s => ~ In sep s) (p :: ps) ->
  split sep (join [sep] (p :: ps)) = p :: ps.
Proof.
  revert p; induction ps as [|q ps IH]; intros p H.
  - simpl. apply split_without_separator. now inversion H.
  - inversion H as [|? ? Hp Hq]; subst.
    change (join [sep] (p :: q :: ps)) with (p ++ sep :: join [sep] (q :: ps)).
    rewrite split_app_separator by assumption.
    rewrite IH by assumption. reflexivity.
Qed.

(* ------------------------------------------------------------------ *)
(** ** Custom-data codec *)

Section CodecFacts.

Import Codec.

Variable number : Type.
Variable toString : number -> jsstring.
Variable Number : jsstring -> number.

Lemma decodePart_encodeItem (v : CustomDataValue number) :
  carried toString Number v ->
  decodePart Number (encodeItem toString v) = v.
Proof.
  destruct v as [s|n|j]; simpl; [|intros [_ ->]; reflexivity|tauto].
  intros [_ H]. destruct s as [|c s]; simpl in *; [reflexivity|].
  rewrite H. reflexivity.
Qed.

Lemma encodeItem_no_separator (v : CustomDataValue number) :
  carried toString Number v ->
  no_separator (encodeItem toString v).
Proof.
  destruct v as [s|n|j]; simpl; [tauto| |tauto].
  intros [H _] [E|E]; [discriminate E|exact (H E)].
Qed.

Lemma parse_encode (i : jsstring) (d : list (CustomDataValue number)) :
  no_separator i ->
  Forall (carried toString Number) d ->
  parseCustomDataSync Number
    (encodeCustomDataSync toString i (Some d) None) None
  = {| id := i; data := d |}.
Proof.
  intros Hi Hd. destruct d as [|v d].
  - unfold encodeCustomDataSync, parseCustomDataSync.
    rewrite split_without_separator by exact Hi. reflexivity.
  - unfold encodeCustomDataSync, parseCustomDataSync.
    cbn [enc_parsed enc_notParsed app].
    change (i ++ [CUSTOM_DATA_SPLITTER] ++ ?t)
      with (i ++ CUSTOM_DATA_SPLITTER :: t).
    rewrite split_app_separator by exact Hi.
    change (map (encodeItem toString) (v :: d))
      with (encodeItem toString v :: map (encodeItem toString) d).
    rewrite split_join.
    + cbn [dec_parsed dec_notParsed app]. f_equal.
      rewrite <- map_cons, map_map.
      rewrite <- (map_id (v :: d)) at 2.
      apply map_ext_in. intros a Ha. apply decodePart_encodeItem.
      rewrite Forall_forall in Hd. auto.
    + rewrite <- map_cons. apply Forall_forall. intros s Hs.
      apply in_map_iff in Hs. destruct Hs as [a [<- Ha]].
      apply encodeItem_no_separator. rewrite Forall_forall in Hd. auto.
Qed.

Lemma parse_bare_id (i : jsstring) :
  no_separator i ->
  parseCustomDataSync Number i None = {| id := i; data := [] |}.
Proof.
  intros Hi. unfold parseCustomDataSync.
  rewrite split_without_separator by exact Hi. reflexivity.
Qed.

End CodecFacts.

(** Decimal texts of integers. *)

Lemma js_code_units_ascii (s : string) (c : code_unit) :
  In c (js s) -> (c < 256)%N.
Proof.
  unfold js. intros H. apply in_map_iff in H. destruct H as [a [<- _]].
  apply N_ascii_bounded.
Qed.

Lemma ascii_text_js (s : string) : IntNumber.ascii_text (js s) = s.
Proof.
  unfold IntNumber.ascii_text, js. rewrite map_map.
  rewrite (map_ext _ (fun a => a)) by (intros a; apply ascii_N_embedding).
  rewrite map_id. apply string_of_list_ascii_of_string.
Qed.

Lemma IntNumber_roundtrip (z : Z) :
  IntNumber.Number (IntNumber.toString z) = z.
Proof.
  unfold IntNumber.Number, IntNumber.toString. rewrite ascii_text_js.
  rewrite NilZero.isi.
  - apply DecimalZ.of_to.
  - destruct z; simpl; try discriminate.
    intros E; injection E. apply Unsigned.to_uint_nonnil.
  - destruct z; simpl; try discriminate.
    intros E; injection E. apply Unsigned.to_uint_nonnil.
Qed.

Lemma IntNumber_no_separator (z : Z) :
  Codec.no_separator (IntNumber.toString z).
Proof.
  intros H. apply js_code_units_ascii in H.
  unfold Codec.CUSTOM_DATA_SPLITTER in H. lia.
Qed.

Lemma IntNumber_carried (z : Z) :
  Codec.carried IntNumber.toString IntNumber.Number (Codec.VNumber z).
Proof. split; [apply IntNumber_no_separator | apply IntNumber_roundtrip]. Qed.

(** C2, as stated, fails: a string value that holds the separator comes
    back as two values. *)
Lemma custom_data_separator_inside_string :
  let i := js "x" in
  let d := [Codec.VString (js "a" ++ [Codec.CUSTOM_DATA_SPLITTER] ++ js "b")] in
  Codec.no_separator i /\
  Forall (@Codec.builtin Z) d /\
  Codec.parseCustomDataSync IntNumber.Number
    (Codec.encodeCustomDataSync IntNumber.toString i (Some d) None) None
  = {| Codec.id := i;
       Codec.data := [Codec.VString (js "a"); Codec.VString (js "b")] |} /\
  Codec.parseCustomDataSync IntNumber.Number
    (Codec.encodeCustomDataSync IntNumber.toString i (Some d) None) None
  <> {| Codec.id := i; Codec.data := d |}.
Proof.
  cbv zeta. repeat split.
  - intros [H|[]]; discriminate H.
  - repeat constructor.
  - vm_compute. discriminate.
Qed.

(** C2 (amended): for an id without the separator and a list of strings
    and numbers, where no string holds the separator or starts with the
    number indicator and every number prints without the separator and
    reads back as itself, decoding the encoding gives the id and the list
    back; so it does for ["a", 3]; and an identifier without the separator
    decodes to itself with an empty data list. *)
Theorem custom_data_roundtrip :
  (forall (number : Type) (toString : number -> jsstring)
          (Number : jsstring -> number)
          (i : jsstring) (d : list (Codec.CustomDataValue number)),
      Codec.no_separator i ->
      Forall (Codec.carried toString Number) d ->
      Codec.parseCustomDataSync Number
        (Codec.encodeCustomDataSync toString i (Some d) None) None
      = {| Codec.id := i; Codec.data := d |}) /\
  (forall i : jsstring,
      Codec.no_separator i ->
      Codec.parseCustomDataSync IntNumber.Number
        (Codec.encodeCustomDataSync IntNumber.toString i
           (Some [Codec.VString (js "a"); Codec.VNumber 3%Z]) None) None
      = {| Codec.id := i;
           Codec.data := [Codec.VString (js "a"); Codec.VNumber 3%Z] |}) /\
  (forall (number : Type) (Number : jsstring -> number) (i : jsstring),
      Codec.no_separator i ->
      Codec.parseCustomDataSync Number i None
      = {| Codec.id := i; Codec.data := [] |}).
Proof.
  split; [|split].
  - intros. now apply parse_encode.
  - intros i Hi. apply parse_encode; [exact Hi|].
    constructor; [|constructor; [apply IntNumber_carried|constructor]].
    split; [|reflexivity]. intros [H|[]]; discriminate H.
  - intros. now apply parse_bare_id.
Qed.

Lemma custom_data_roundtrip_witness :
  Codec.no_separator (js "vote") /\
  Forall (Codec.carried IntNumber.toString IntNumber.Number)
    [Codec.VString (js "yes"); Codec.VNumber (-42)%Z] /\
  Codec.parseCustomDataSync IntNumber.Number
    (Codec.encodeCustomDataSync IntNumber.toString (js "vote")
       (Some [Codec.VString (js "yes"); Codec.VNumber (-42)%Z]) None) None
  = {| Codec.id := js "vote";
       Codec.data := [Codec.VString (js "yes"); Codec.VNumber (-42)%Z] |}.
Proof.
  assert (Hi : Codec.no_separator (js "vote")).
  { vm_compute. intuition discriminate. }
  assert (Hd : Forall (Codec.carried IntNumber.toString IntNumber.Number)
                 [Codec.VString (js "yes"); Codec.VNumber (-42)%Z]).
  { repeat constructor; vm_compute; intuition discriminate. }
  split; [exact Hi|]. split; [exact Hd|].
  exact (proj1 custom_data_roundtrip Z IntNumber.toString IntNumber.Number
           (js "vote") _ Hi Hd).
Defined.

(* ------------------------------------------------------------------ *)
(** ** Collections *)

Section CollectionFacts.

Variable V : Type.

Lemma get_set_same (k : jsstring) (v : V) (m : Collection V) :
  get k (set k v m) = Some v.
Proof.
  induction m as [|[k' v'] m IH]; simpl.
  - now rewrite jsstring_eqb_refl.
  - destruct (jsstring_eqb k k') eqn:E; simpl; rewrite E; auto.
Qed.

Lemma get_set_other (k k' : jsstring) (v : V) (m : Collection V) :
  k <> k' -> get k (set k' v m) = get k m.
Proof.
  intros Hk. induction m as [|[k0 v0] m IH]; simpl.
  - apply jsstring_eqb_neq in Hk. now rewrite Hk.
  - destruct (jsstring_eqb k' k0) eqn:E; simpl.
    + apply jsstring_eqb_eq in E; subst k0.
      apply jsstring_eqb_neq in Hk. now rewrite Hk.
    + now rewrite IH.
Qed.

Lemma get_none_not_in (k : jsstring) (m : Collection V) :
  get k m = None <-> ~ In k (keys m).
Proof.
  unfold keys. induction m as [|[k' v'] m IH]; simpl; [tauto|].
  destruct (jsstring_eqb k k') eqn:E.
  - apply jsstring_eqb_eq in E; subst. split; [discriminate|].
    intros H; exfalso; apply H; now left.
  - apply jsstring_eqb_neq in E. rewrite IH. split; [|tauto].
    intros H [H'|H']; [congruence|tauto].
Qed.

Lemma keys_set_present (k : jsstring) (v : V) (m : Collection V) :
  In k (keys m) -> keys (set k v m) = keys m.
Proof.
  unfold keys. induction m as [|[k' v'] m IH]; simpl; [tauto|].
  destruct (jsstring_eqb k k') eqn:E; simpl; [reflexivity|].
  apply jsstring_eqb_neq in E. intros [H|H]; [congruence|].
  now rewrite IH.
Qed.

Lemma keys_set_absent (k : jsstring) (v : V) (m : Collection V) :
  ~ In k (keys m) -> keys (set k v m) = keys m ++ [k].
Proof.
  unfold keys. induction m as [|[k' v'] m IH]; simpl; [reflexivity|].
  intros H. destruct (jsstring_eqb k k') eqn:E.
  - apply jsstring_eqb_eq in E. subst. exfalso; apply H; now left.
  - simpl. rewrite IH by tauto. reflexivity.
Qed.

Lemma in_keys_dec (k : jsstring) (m : Collection V) :
  {In k (keys m)} + {~ In k (keys m)}.
Proof. apply in_dec. apply list_eq_dec. apply N.eq_dec. Qed.

Lemma in_keys_set (k k' : jsstring) (v : V) (m : Collection V) :
  In k (keys (set k' v m)) <-> k = k' \/ In k (keys m).
Proof.
  destruct (in_keys_dec k' m) as [H|H].
  - rewrite keys_set_present by assumption. split; [tauto|].
    intros [->|H']; assumption.
  - rewrite keys_set_absent by assumption. rewrite in_app_iff. simpl.
    intuition congruence.
Qed.

Lemma get_in (k : jsstring) (v : V) (m : Collection V) :
  get k m = Some v -> In (k, v) m.
Proof.
  induction m as [|[k' v'] m IH]; simpl; [discriminate|].
  destruct (jsstring_eqb k k') eqn:E.
  - apply jsstring_eqb_eq in E; subst. intros [= ->]. now left.
  - intros H. right. auto.
Qed.

End CollectionFacts.

Lemma unique_keys_NoDup (ks : list jsstring) :
  LocaleStore.unique_keys ks = true <-> NoDup ks.
Proof.
  induction ks as [|k ks IH]; simpl.
  - split; [constructor|reflexivity].
  - rewrite andb_true_iff, negb_true_iff, IH. split.
    + intros [H1 H2]. constructor; [|assumption].
      intros Hin. assert (existsb (jsstring_eqb k) ks = true) as E.
      { apply existsb_exists. exists k. split; [assumption|].
        apply jsstring_eqb_refl. }
      congruence.
    + intros H. inversion H as [|? ? Hn Hd]; subst. split; [|assumption].
      destruct (existsb (jsstring_eqb k) ks) eqn:E; [|reflexivity].
      apply existsb_exists in E. destruct E as [x [Hx Ex]].
      apply jsstring_eqb_eq in Ex. subst. contradiction.
Qed.

Lemma unique_keys_set (V : Type) (k : jsstring) (v : V) (m : Collection V) :
  LocaleStore.unique_keys (keys m) = true ->
  LocaleStore.unique_keys (keys (set k v m)) = true.
Proof.
  rewrite !unique_keys_NoDup. intros H.
  destruct (in_keys_dec k m) as [Hin|Hin].
  - now rewrite keys_set_present.
  - rewrite keys_set_absent by assumption.
    apply NoDup_app; [assumption|repeat constructor; simpl; tauto|].
    intros x Hx [<-|[]]. contradiction.
Qed.

(* ------------------------------------------------------------------ *)
(** ** Content-locale merge *)

Section LocaleFacts.

Import LocaleStore.

Lemma wf_fields_set (k : jsstring) (v : LocaleValue) (o : PlainLocaleData) :
  wf_value v = true -> wf_fields o = true -> wf_fields (set k v o) = true.
Proof.
  intros Hv. induction o as [|[k' v'] o IH]; simpl.
  - now rewrite Hv.
  - rewrite andb_true_iff. intros [H1 H2].
    destruct (jsstring_eqb k k'); simpl; rewrite ?Hv, ?H1, ?H2; auto.
Qed.

Lemma wf_set (k : jsstring) (v : LocaleValue) (o : PlainLocaleData) :
  wf_value v = true -> wf o -> wf (set k v o).
Proof.
  intros Hv [H1 H2]. split;
    [now apply unique_keys_set | now apply wf_fields_set].
Qed.

Lemma wf_value_Obj (f : PlainLocaleData) :
  wf_value (Obj f) = true <-> wf f.
Proof.
  unfold wf. change (wf_value (Obj f))
    with (unique_keys (keys f) && wf_fields f).
  now rewrite andb_true_iff.
Qed.

Lemma wf_get (k : jsstring) (o f : PlainLocaleData) :
  wf o -> get k o = Some (Obj f) -> wf f.
Proof.
  intros [_ H]. induction o as [|[k' v'] o IH]; simpl; [discriminate|].
  simpl in H. apply andb_true_iff in H. destruct H as [H1 H2].
  destruct (jsstring_eqb k k').
  - intros [= ->]. now apply wf_value_Obj.
  - now apply IH.
Qed.

Lemma wf_merge_object (rec : list PlainLocaleData -> PlainLocaleData)
    (obj result : PlainLocaleData) :
  (forall objs, wf (rec objs)) ->
  wf result -> wf (fold_left (deepMerge_entry rec) obj result).
Proof.
  intros Hrec. revert result.
  induction obj as [|[k v] obj IH]; intros result Hr; simpl; [assumption|].
  apply IH. destruct v as [s|f].
  - now apply wf_set.
  - destruct (get k result) as [[s'|e]|];
      apply wf_set; try assumption; apply wf_value_Obj, Hrec.
Qed.

Lemma wf_deepMerge_fuel (n : nat) (objects : list PlainLocaleData) :
  wf (deepMerge_fuel n objects).
Proof.
  revert objects. induction n as [|n IH]; intros objects.
  - split; reflexivity.
  - simpl. assert (H : wf []) by (split; reflexivity).
    revert H. generalize (@nil (jsstring * LocaleValue)).
    induction objects as [|obj objects IHo]; intros result Hr; simpl.
    + assumption.
    + apply IHo. now apply wf_merge_object.
Qed.

(** What one pass of the inner loop leaves at a key. *)
Lemma get_merge_object (rec : list PlainLocaleData -> PlainLocaleData)
    (obj result : PlainLocaleData) (k : jsstring) :
  unique_keys (keys obj) = true ->
  get k (fold_left (deepMerge_entry rec) obj result) =
  match get k obj with
  | None => get k result
  | Some (Str s) => Some (Str s)
  | Some (Obj f) =>
      Some (Obj (rec [match get k result with
                      | Some (Obj e) => e
                      | _ => []
                      end; f]))
  end.
Proof.
  revert result. induction obj as [|[k' v] obj IH]; intros result Hu.
  - reflexivity.
  - simpl in Hu. apply andb_true_iff in Hu. destruct Hu as [Hk Hu].
    apply negb_true_iff in Hk.
    cbn [fold_left]. rewrite IH by assumption.
    change (get k ((k', v) :: obj))
      with (if jsstring_eqb k k' then Some v else get k obj).
    destruct (jsstring_eqb k k') eqn:E.
    + apply jsstring_eqb_eq in E. subst k'.
      assert (Hn : get k obj = None).
      { apply get_none_not_in. intros Hin.
        assert (existsb (jsstring_eqb k) (keys obj) = true) as X.
        { apply existsb_exists. exists k. split; [assumption|].
          apply jsstring_eqb_refl. }
        unfold keys in *. congruence. }
      rewrite Hn. destruct v as [s|f]; simpl.
      * apply get_set_same.
      * destruct (get k result) as [[s'|e]|]; apply get_set_same.
    + apply jsstring_eqb_neq in E.
      assert (Ho : get k (deepMerge_entry rec result (k', v)) = get k result).
      { destruct v as [s|f]; simpl.
        - now apply get_set_other.
        - destruct (get k' result) as [[s'|e]|]; now apply get_set_other. }
      rewrite Ho. reflexivity.
Qed.

Lemma deepMerge_fuel_two (n : nat) (a b : PlainLocaleData) :
  deepMerge_fuel (S n) [a; b] =
  fold_left (deepMerge_entry (deepMerge_fuel n)) b
    (fold_left (deepMerge_entry (deepMerge_fuel n)) a []).
Proof. reflexivity. Qed.

(** The later object's strings win, whatever came before. *)
Lemma text_at_merge_later (path : list jsstring) :
  forall (n : nat) (a b : PlainLocaleData) (s : jsstring),
    wf b -> length path <= n ->
    text_at b path = Some s ->
    text_at (deepMerge_fuel n [a; b]) path = Some s.
Proof.
  induction path as [|k rest IH]; intros n a b s Hb Hn Ht; [discriminate|].
  destruct n as [|n]; [simpl in Hn; lia|].
  rewrite deepMerge_fuel_two. simpl text_at in *.
  rewrite get_merge_object by apply Hb.
  destruct (get k b) as [[s'|f]|] eqn:Eb; [assumption| |discriminate].
  apply IH; [now apply (wf_get k Hb)|simpl in Hn; lia|assumption].
Qed.

(** The earlier object's strings stay where the later object has
    nothing on the way. *)
Lemma text_at_merge_earlier (path : list jsstring) :
  forall (n : nat) (a b : PlainLocaleData) (s : jsstring),
    wf a -> wf b -> length path <= n ->
    text_at a path = Some s -> absent b path = true ->
    text_at (deepMerge_fuel n [a; b]) path = Some s.
Proof.
  induction path as [|k rest IH]; intros n a b s Ha Hb Hn Ht Hab;
    [discriminate|].
  destruct n as [|n]; [simpl in Hn; lia|].
  rewrite deepMerge_fuel_two. simpl text_at in *. simpl absent in Hab.
  rewrite get_merge_object by apply Hb.
  rewrite get_merge_object by apply Ha. simpl get.
  destruct (get k b) as [[s'|fb]|] eqn:Eb; [discriminate| |].
  - destruct (get k a) as [[s'|fa]|] eqn:Ea.
    + destruct rest; [discriminate|discriminate].
    + apply IH; try assumption.
      * apply wf_deepMerge_fuel.
      * now apply (wf_get k Hb).
      * simpl in Hn; lia.
      * apply text_at_merge_later; [now apply (wf_get k Ha)| |assumption].
        simpl in Hn; lia.
    + discriminate.
  - destruct (get k a) as [[s'|fa]|] eqn:Ea; [assumption| |discriminate].
    apply text_at_merge_later; [now apply (wf_get k Ha)| |assumption].
    simpl in Hn; lia.
Qed.

(** Nothing else is in the merge: a string of the merged object comes
    from the later object, or from the earlier one at a path the later
    one leaves alone. *)
Lemma text_at_merge_origin (path : list jsstring) :
  forall (n : nat) (a b : PlainLocaleData) (s : jsstring),
    wf a -> wf b ->
    text_at (deepMerge_fuel n [a; b]) path = Some s ->
    text_at b path = Some s
    \/ (text_at a path = Some s /\ absent b path = true).
Proof.
  induction path as [|k rest IH]; intros n a b s Ha Hb Ht; [discriminate|].
  destruct n as [|n]; [discriminate|].
  rewrite deepMerge_fuel_two in Ht. cbn [text_at absent] in *.
  rewrite get_merge_object in Ht by apply Hb.
  rewrite get_merge_object in Ht by apply Ha. cbn [get] in Ht.
  assert (Hcopy : forall fa, wf fa ->
            text_at (deepMerge_fuel n [[]; fa]) rest = Some s ->
            text_at fa rest = Some s).
  { intros fa Hfa Hc. apply IH in Hc; [|split; reflexivity|exact Hfa].
    destruct Hc as [Hc|[Hc _]]; [exact Hc|].
    destruct rest; discriminate Hc. }
  destruct (get k b) as [[s'|fb]|] eqn:Eb.
  - left. exact Ht.
  - destruct (get k a) as [[s'|fa]|] eqn:Ea.
    + apply IH in Ht; [|split; reflexivity|now apply (wf_get k Hb)].
      destruct Ht as [Ht|[Ht _]]; [now left|].
      destruct rest; discriminate Ht.
    + apply IH in Ht;
        [|apply wf_deepMerge_fuel|now apply (wf_get k Hb)].
      destruct Ht as [Ht|[Ht Habs]]; [now left|]. right.
      split; [|exact Habs]. apply Hcopy; [now apply (wf_get k Ha)|exact Ht].
    + apply IH in Ht; [|split; reflexivity|now apply (wf_get k Hb)].
      destruct Ht as [Ht|[Ht _]]; [now left|].
      destruct rest; discriminate Ht.
  - right. split; [|reflexivity].
    destruct (get k a) as [[s'|fa]|] eqn:Ea; [exact Ht| |discriminate].
    apply Hcopy; [now apply (wf_get k Ha)|exact Ht].
Qed.

Lemma depth_get (k : jsstring) (o : PlainLocaleData) (v : LocaleValue) :
  get k o = Some v -> depth v <= fields_depth o.
Proof.
  induction o as [|[k' v'] o IH]; simpl; [discriminate|].
  destruct (jsstring_eqb k k').
  - intros [= ->]. lia.
  - intros H. apply IH in H. lia.
Qed.

Lemma text_at_length (path : list jsstring) :
  forall (o : PlainLocaleData) (s : jsstring),
    text_at o path = Some s -> length path <= S (fields_depth o).
Proof.
  induction path as [|k rest IH]; intros o s H; simpl; [lia|].
  simpl in H. destruct (get k o) as [[s'|f]|] eqn:E; [| |discriminate].
  - destruct rest; [simpl; lia|discriminate].
  - apply IH in H. apply depth_get in E.
    change (depth (Obj f)) with (S (fields_depth f)) in E. lia.
Qed.

(** Conversion to callable leaves keeps every string where it is. *)
Lemma get_convertFields (k : jsstring) (o : PlainLocaleData) :
  forall result : ContentTree,
    unique_keys (keys o) = true ->
    get k (convertFields o result) =
    match get k o with
    | Some v => Some (convertValue v)
    | None => get k result
    end.
Proof.
  induction o as [|[k' v] o IH]; intros result Hu; [reflexivity|].
  simpl in Hu. apply andb_true_iff in Hu. destruct Hu as [Hk Hu].
  apply negb_true_iff in Hk.
  simpl. rewrite IH by assumption.
  destruct (jsstring_eqb k k') eqn:E.
  - apply jsstring_eqb_eq in E. subst k'.
    assert (Hn : get k o = None).
    { apply get_none_not_in. intros Hin.
      assert (existsb (jsstring_eqb k) (keys o) = true) as X.
      { apply existsb_exists. exists k. split; [assumption|].
        apply jsstring_eqb_refl. }
      unfold keys in *. congruence. }
    rewrite Hn. apply get_set_same.
  - apply jsstring_eqb_neq in E.
    destruct (get k o); [reflexivity|]. now apply get_set_other.
Qed.

Lemma resolve_convert (path : list jsstring) :
  forall o : PlainLocaleData,
    wf o -> resolve (convertToContentValue o) path = text_at o path.
Proof.
  induction path as [|k rest IH]; intros o Ho; [reflexivity|].
  unfold convertToContentValue. simpl.
  rewrite get_convertFields by apply Ho. simpl.
  destruct (get k o) as [[s|f]|] eqn:E; try reflexivity.
  change (convertValue (Obj f)) with (Node (convertFields f [])).
  apply (IH f). now apply (wf_get k Ho).
Qed.

(** The recursion of [deepMerge] never runs out of fuel: the merge is
    no deeper than its arguments, and more fuel changes nothing. *)

Lemma fields_depth_set (k : jsstring) (v : LocaleValue) (m : PlainLocaleData) :
  fields_depth (set k v m) <= Nat.max (fields_depth m) (depth v).
Proof.
  induction m as [|[k' v'] m IH]; simpl; [lia|].
  destruct (jsstring_eqb k k'); simpl; lia.
Qed.

Lemma fields_depth_entry (rec : list PlainLocaleData -> PlainLocaleData)
    (b : nat) (result : PlainLocaleData) (k : jsstring) (v : LocaleValue) :
  (forall e f, S (fields_depth e) <= b -> S (fields_depth f) <= b ->
               S (fields_depth (rec [e; f])) <= b) ->
  depth v <= b -> fields_depth result <= b ->
  fields_depth (deepMerge_entry rec result (k, v)) <= b.
Proof.
  intros Hrec Hv Hr. unfold deepMerge_entry. destruct v as [s|f].
  - pose proof (fields_depth_set k (Str s) result). simpl in *. lia.
  - change (depth (Obj f)) with (S (fields_depth f)) in Hv.
    destruct (get k result) as [[s'|e]|] eqn:E.
    + pose proof (fields_depth_set k (Obj (rec [[]; f])) result) as H.
      change (depth (Obj (rec [[]; f])))
        with (S (fields_depth (rec [[]; f]))) in H.
      assert (S (fields_depth (rec [[]; f])) <= b)
        by (apply Hrec; simpl; lia).
      lia.
    + apply depth_get in E.
      change (depth (Obj e)) with (S (fields_depth e)) in E.
      pose proof (fields_depth_set k (Obj (rec [e; f])) result) as H.
      change (depth (Obj (rec [e; f])))
        with (S (fields_depth (rec [e; f]))) in H.
      assert (S (fields_depth (rec [e; f])) <= b) by (apply Hrec; lia).
      lia.
    + pose proof (fields_depth_set k (Obj (rec [[]; f])) result) as H.
      change (depth (Obj (rec [[]; f])))
        with (S (fields_depth (rec [[]; f]))) in H.
      assert (S (fields_depth (rec [[]; f])) <= b)
        by (apply Hrec; simpl; lia).
      lia.
Qed.

Lemma fields_depth_merge_object
    (rec : list PlainLocaleData -> PlainLocaleData) (b : nat)
    (obj : PlainLocaleData) :
  (forall e f, S (fields_depth e) <= b -> S (fields_depth f) <= b ->
               S (fields_depth (rec [e; f])) <= b) ->
  forall result,
    fields_depth obj <= b -> fields_depth result <= b ->
    fields_depth (fold_left (deepMerge_entry rec) obj result) <= b.
Proof.
  intros Hrec. induction obj as [|[k v] obj IH]; intros result Ho Hr;
    [exact Hr|].
  cbn [fold_left]. simpl in Ho. apply IH; [lia|].
  apply fields_depth_entry; auto. lia.
Qed.

Lemma fields_depth_deepMerge_fuel (n : nat) :
  forall (objects : list PlainLocaleData) (b : nat),
    (forall o, In o objects -> fields_depth o <= b) ->
    fields_depth (deepMerge_fuel n objects) <= b.
Proof.
  induction n as [|n IH]; intros objects b Hb; [simpl; lia|].
  cbn [deepMerge_fuel].
  assert (H0 : fields_depth (@nil (jsstring * LocaleValue)) <= b)
    by (simpl; lia).
  revert H0. generalize (@nil (jsstring * LocaleValue)) as result.
  induction objects as [|obj objects IHo]; intros result Hr; [exact Hr|].
  cbn [fold_left]. apply IHo.
  - intros o Ho. apply Hb. now right.
  - apply fields_depth_merge_object; [|apply Hb; now left|exact Hr].
    intros e f He Hf. destruct b as [|b]; [lia|].
    apply le_n_S. apply IH. intros o [<-|[<-|[]]]; lia.
Qed.

Lemma deepMerge_entry_more_fuel (n : nat) (result : PlainLocaleData)
    (k : jsstring) (v : LocaleValue) :
  (forall e f, S (fields_depth e) <= n -> S (fields_depth f) <= n ->
               deepMerge_fuel n [e; f] = deepMerge_fuel (S n) [e; f]) ->
  depth v <= n -> fields_depth result <= n ->
  deepMerge_entry (deepMerge_fuel n) result (k, v)
  = deepMerge_entry (deepMerge_fuel (S n)) result (k, v).
Proof.
  intros Hrec Hv Hr. unfold deepMerge_entry. destruct v as [s|f];
    [reflexivity|].
  change (depth (Obj f)) with (S (fields_depth f)) in Hv.
  destruct (get k result) as [[s'|e]|] eqn:E.
  - rewrite Hrec by (simpl; lia). reflexivity.
  - apply depth_get in E.
    change (depth (Obj e)) with (S (fields_depth e)) in E.
    rewrite Hrec by lia. reflexivity.
  - rewrite Hrec by (simpl; lia). reflexivity.
Qed.

Lemma deepMerge_fuel_S (n : nat) (objects : list PlainLocaleData) :
  deepMerge_fuel (S n) objects
  = fold_left
      (fun result obj =>
         fold_left (deepMerge_entry (deepMerge_fuel n)) obj result)
      objects [].
Proof. reflexivity. Qed.

Lemma merge_object_more_fuel (n : nat) :
  (forall e f, S (fields_depth e) <= n -> S (fields_depth f) <= n ->
               deepMerge_fuel n [e; f] = deepMerge_fuel (S n) [e; f]) ->
  forall obj res,
    fields_depth obj <= n -> fields_depth res <= n ->
    fold_left (deepMerge_entry (deepMerge_fuel n)) obj res
    = fold_left (deepMerge_entry (deepMerge_fuel (S n))) obj res
    /\ fields_depth (fold_left (deepMerge_entry (deepMerge_fuel n)) obj res)
       <= n.
Proof.
  intros Hrec obj. induction obj as [|[k v] obj IHob]; intros res Ho Hres;
    [split; [reflexivity|exact Hres]|].
  simpl in Ho. cbn [fold_left].
  rewrite <- (deepMerge_entry_more_fuel res k v Hrec) by lia.
  apply IHob; [lia|].
  apply fields_depth_entry; [|lia|exact Hres].
  intros e f He Hf. destruct n as [|n]; [lia|]. apply le_n_S.
  apply fields_depth_deepMerge_fuel. intros o [<-|[<-|[]]]; lia.
Qed.

Lemma deepMerge_fuel_more (n : nat) :
  forall objects : list PlainLocaleData,
    (forall o, In o objects -> fields_depth o <= n) ->
    deepMerge_fuel (S n) objects = deepMerge_fuel (S (S n)) objects.
Proof.
  induction n as [|n IH]; intros objects Hb;
    rewrite (deepMerge_fuel_S _ objects),
            (deepMerge_fuel_S (S _) objects).
  - assert (Hrec : forall e f,
               S (fields_depth e) <= 0 -> S (fields_depth f) <= 0 ->
               deepMerge_fuel 0 [e; f] = deepMerge_fuel 1 [e; f])
      by (intros; lia).
    assert (H0 : fields_depth (@nil (jsstring * LocaleValue)) <= 0)
      by (simpl; lia).
    revert H0. generalize (@nil (jsstring * LocaleValue)) as result.
    induction objects as [|obj objects IHo]; intros result Hr; [reflexivity|].
    cbn [fold_left].
    destruct (merge_object_more_fuel Hrec obj result) as [E1 E2];
      [apply Hb; now left|exact Hr|].
    rewrite <- E1. apply IHo; [intros o Hin; apply Hb; now right|exact E2].
  - assert (Hrec : forall e f,
               S (fields_depth e) <= S n -> S (fields_depth f) <= S n ->
               deepMerge_fuel (S n) [e; f] = deepMerge_fuel (S (S n)) [e; f]).
    { intros e f He Hf. apply IH. intros o [<-|[<-|[]]]; lia. }
    assert (H0 : fields_depth (@nil (jsstring * LocaleValue)) <= S n)
      by (simpl; lia).
    revert H0. generalize (@nil (jsstring * LocaleValue)) as result.
    induction objects as [|obj objects IHo]; intros result Hr; [reflexivity|].
    cbn [fold_left].
    destruct (merge_object_more_fuel Hrec obj result) as [E1 E2];
      [apply Hb; now left|exact Hr|].
    rewrite <- E1. apply IHo; [intros o Hin; apply Hb; now right|exact E2].
Qed.

Lemma fields_depth_bound (objects : list PlainLocaleData)
    (o : PlainLocaleData) :
  In o objects ->
  fields_depth o <= fold_right Nat.max 0 (map fields_depth objects).
Proof.
  induction objects as [|x objects IH]; simpl; [contradiction|].
  intros [->|H]; [lia|]. apply IH in H. lia.
Qed.

Lemma deepMerge_fuel_enough (objects : list PlainLocaleData) (extra : nat) :
  deepMerge_fuel
    (S (fold_right Nat.max 0 (map fields_depth objects) + extra)) objects
  = deepMerge objects.
Proof.
  unfold deepMerge. induction extra as [|extra IH].
  - now rewrite Nat.add_0_r.
  - rewrite <- IH. rewrite Nat.add_succ_r. symmetry.
    apply deepMerge_fuel_more. intros o Ho.
    apply fields_depth_bound in Ho. lia.
Qed.

(** Objects free of the key ["__proto__"] merge to such an object. *)

Lemma ordinary_value_Obj (f : PlainLocaleData) :
  ordinary_value (Obj f) = ordinary_fields f.
Proof. reflexivity. Qed.

Lemma ordinary_set (k : jsstring) (v : LocaleValue) (o : PlainLocaleData) :
  jsstring_eqb k PROTO = false -> ordinary_value v = true ->
  ordinary o -> ordinary (set k v o).
Proof.
  unfold ordinary. intros Hk Hv.
  induction o as [|[k' v'] o IH]; cbn [set ordinary_fields].
  - intros _. now rewrite Hk, Hv.
  - rewrite !andb_true_iff. intros [[H1 H2] H3].
    destruct (jsstring_eqb k k') eqn:E; cbn [ordinary_fields].
    + apply jsstring_eqb_eq in E. subst k'. now rewrite H1, Hv, H3.
    + now rewrite H1, H2, IH.
Qed.

Lemma ordinary_get (k : jsstring) (o f : PlainLocaleData) :
  ordinary o -> get k o = Some (Obj f) -> ordinary f.
Proof.
  unfold ordinary. induction o as [|[k' v'] o IH]; cbn [get ordinary_fields];
    [discriminate|].
  rewrite !andb_true_iff. intros [[H1 H2] H3].
  destruct (jsstring_eqb k k').
  - intros [= ->]. exact H2.
  - now apply IH.
Qed.

Lemma ordinary_merge_object (rec : list PlainLocaleData -> PlainLocaleData)
    (obj : PlainLocaleData) :
  (forall e f, ordinary e -> ordinary f -> ordinary (rec [e; f])) ->
  forall result,
    ordinary obj -> ordinary result ->
    ordinary (fold_left (deepMerge_entry rec) obj result).
Proof.
  intros Hrec. induction obj as [|[k v] obj IH]; intros result Ho Hr;
    [exact Hr|].
  unfold ordinary in Ho. cbn [ordinary_fields] in Ho.
  rewrite !andb_true_iff in Ho. destruct Ho as [[Hk Hv] Ho].
  apply negb_true_iff in Hk.
  cbn [fold_left]. apply IH; [exact Ho|].
  unfold deepMerge_entry. destruct v as [s|f].
  - now apply ordinary_set.
  - assert (Hnil : ordinary []) by reflexivity.
    destruct (get k result) as [[s'|e]|] eqn:E;
      apply ordinary_set; try assumption; rewrite ordinary_value_Obj;
      apply Hrec; try assumption.
    now apply (ordinary_get k Hr).
Qed.

(** The merge has no key that its arguments lack. *)
Lemma ordinary_deepMerge_fuel (n : nat) :
  forall objects : list PlainLocaleData,
    Forall ordinary objects -> ordinary (deepMerge_fuel n objects).
Proof.
  induction n as [|n IH]; intros objects Ho; [reflexivity|].
  cbn [deepMerge_fuel].
  assert (H0 : ordinary []) by reflexivity.
  revert H0. generalize (@nil (jsstring * LocaleValue)) as result.
  induction Ho as [|obj objects Hobj Ho IHo]; intros result Hr; [exact Hr|].
  cbn [fold_left]. apply IHo. apply ordinary_merge_object; try assumption.
  intros e f He Hf. apply IH. repeat constructor; assumption.
Qed.

End LocaleFacts.

Section LocaleMerge.

Import LocaleStore MergeExample.

Lemma merge_registered (store lang idA idB : jsstring) (a b : PlainLocaleData) :
  idA <> idB ->
  mergeContentsForLanguage lang (registered store lang idA idB a b)
  = convertToContentValue (deepMerge [a; b]).
Proof.
  intros Hid. unfold registered, addLocale, mergeContentsForLanguage.
  simpl. assert (E : jsstring_eqb idB idA = false).
  { apply jsstring_eqb_neq. congruence. }
  rewrite E. simpl. rewrite jsstring_eqb_refl. reflexivity.
Qed.

Lemma content_registered (store lang idA idB : jsstring)
    (a b : PlainLocaleData) :
  let st := registered store lang idA idB a b in
  get lang (content st) =
  if Nat.ltb 0 (length (mergeContentsForLanguage lang st))
  then Some (mergeContentsForLanguage lang st) else None.
Proof.
  cbv zeta. unfold registered at 1. unfold addLocale at 1.
  unfold recalculateContentForLanguage at 1. cbn [content].
  match goal with
  | |- context [mergeContentsForLanguage lang ?s] =>
      change (mergeContentsForLanguage lang s)
        with (mergeContentsForLanguage lang (registered store lang idA idB a b))
  end.
  destruct (Nat.ltb 0 _); [apply get_set_same|].
  unfold addLocale, recalculateContentForLanguage. cbn [content new].
  destruct (Nat.ltb 0 _); simpl; [now rewrite jsstring_eqb_refl|reflexivity].
Qed.

(** C1, as stated, fails: with A registered before B the merged tree
    holds B's "2" at x.y, not A's "1". *)
Lemma content_merge_first_value_lost :
  let st := registered (js "store") (js "en") (js "a") (js "b")
              fragmentA fragmentB in
  resolve (mergeContentsForLanguage (js "en") st) [js "x"; js "y"]
    = Some (js "2") /\
  mergeContentsForLanguage (js "en") st
    <> [(js "x", Node [(js "y", Leaf (js "1")); (js "z", Leaf (js "3"))])].
Proof.
  cbv zeta. split; [vm_compute; reflexivity|vm_compute; discriminate].
Qed.

(** C1 (amended): for every language and every pair of well-formed,
    ordinary content fragments registered under different ids in one
    store for that language, the merged content tree holds the later
    fragment's string at
    every key path where the later fragment has one, and the earlier
    fragment's string at every key path that the later fragment leaves
    untouched (some object on the way lacks the next key), and no other
    string; the tree is stored under the language when it has a key; with
    A [{x:{y:"1"}}] before B [{x:{y:"2", z:"3"}}] the merged result is
    [{x:{y:"2", z:"3"}}].  A well-formed fragment is an object with each
    key once at every level; an ordinary one has no key ["__proto__"] at
    any level, the one key that an assignment does not store. *)
Theorem content_merge_last_registered_wins :
  (forall (store lang idA idB : jsstring) (a b : PlainLocaleData),
      idA <> idB -> wf a -> wf b -> ordinary a -> ordinary b ->
      let st := registered store lang idA idB a b in
      let merged := mergeContentsForLanguage lang st in
      (forall path s,
          text_at b path = Some s -> resolve merged path = Some s) /\
      (forall path s,
          text_at a path = Some s -> absent b path = true ->
          resolve merged path = Some s) /\
      (forall path s,
          resolve merged path = Some s ->
          text_at b path = Some s
          \/ (text_at a path = Some s /\ absent b path = true)) /\
      get lang (content st) =
        (if Nat.ltb 0 (length merged) then Some merged else None)) /\
  (forall store lang idA idB : jsstring,
      idA <> idB ->
      mergeContentsForLanguage lang
        (registered store lang idA idB fragmentA fragmentB)
      = [(js "x", Node [(js "y", Leaf (js "2")); (js "z", Leaf (js "3"))])]).
Proof.
  split.
  - intros store lang idA idB a b Hid Ha Hb _ _ st merged.
    assert (Hm : merged = convertToContentValue (deepMerge [a; b])).
    { now apply merge_registered. }
    split; [|split; [|split]].
    + intros path s Ht. rewrite Hm.
      rewrite resolve_convert by apply wf_deepMerge_fuel.
      apply text_at_merge_later; [assumption| |assumption].
      apply text_at_length in Ht. simpl. lia.
    + intros path s Ht Habs. rewrite Hm.
      rewrite resolve_convert by apply wf_deepMerge_fuel.
      apply text_at_merge_earlier; try assumption.
      apply text_at_length in Ht. simpl. lia.
    + intros path s Ht. rewrite Hm in Ht.
      rewrite resolve_convert in Ht by apply wf_deepMerge_fuel.
      now apply text_at_merge_origin in Ht.
    + apply content_registered.
  - intros store lang idA idB Hid. rewrite merge_registered by assumption.
    vm_compute. reflexivity.
Qed.

Lemma content_merge_last_registered_wins_witness :
  js "a" <> js "b" /\ wf fragmentA /\ wf fragmentB /\
  ordinary fragmentA /\ ordinary fragmentB /\
  text_at fragmentB [js "x"; js "z"] = Some (js "3") /\
  resolve
    (mergeContentsForLanguage (js "tr")
       (registered (js "store") (js "tr") (js "a") (js "b")
          fragmentA fragmentB))
    [js "x"; js "z"] = Some (js "3").
Proof.
  assert (Hid : js "a" <> js "b") by (vm_compute; discriminate).
  assert (Ha : wf fragmentA) by (split; reflexivity).
  assert (Hb : wf fragmentB) by (split; reflexivity).
  assert (Oa : ordinary fragmentA) by reflexivity.
  assert (Ob : ordinary fragmentB) by reflexivity.
  assert (Ht : text_at fragmentB [js "x"; js "z"] = Some (js "3"))
    by reflexivity.
  repeat (split; [assumption|]).
  exact (proj1 (proj1 content_merge_last_registered_wins
                  (js "store") (js "tr") (js "a") (js "b")
                  fragmentA fragmentB Hid Ha Hb Oa Ob)
           [js "x"; js "z"] (js "3") Ht).
Defined.

End LocaleMerge.

(* ------------------------------------------------------------------ *)
(** ** ResultEventEmitter *)

Section EmitterFacts.

Import Emitter.

Variable W : Type.

Local Abbreviation Entry := (EventListenerEntry W).

Lemma to_remove_filter (e : Entry) (l : list Entry) :
  to_remove e (filter (@entry_once W) l) = filter (@entry_once W) (e :: l).
Proof. unfold to_remove. simpl. destruct (entry_once e); reflexivity. Qed.

(** The loops that call every listener. *)
Lemma emit_loop_run (es : list Entry) (args : jsargs) :
  forall r : Run W,
    trace (snd (emit_loop es args r)) = trace r ++ map (@entry_ref W) es /\
    snd (fst (emit_loop es args r)) = filter (@entry_once W) es /\
    length (fst (fst (emit_loop es args r))) = length es.
Proof.
  induction es as [|e es IH]; intros r.
  - simpl. rewrite app_nil_r. auto.
  - simpl. unfold bind, call.
    destruct (fn_run (entry_listener e) args (world r)) as [o w'].
    match goal with |- context [emit_loop es args ?r1] =>
      specialize (IH r1); destruct (emit_loop es args r1) as [[res rem] r2]
    end.
    simpl in *. destruct IH as [H1 [H2 H3]]. rewrite H1, H2, H3.
    rewrite <- app_assoc. simpl. rewrite to_remove_filter. auto.
Qed.

Lemma emitAsync_loop_run (es : list Entry) (args : jsargs) :
  forall r : Run W,
    trace (snd (emitAsync_loop es args r))
      = trace r ++ map (@entry_ref W) es /\
    snd (fst (emitAsync_loop es args r)) = filter (@entry_once W) es /\
    length (fst (fst (emitAsync_loop es args r))) = length es.
Proof.
  induction es as [|e es IH]; intros r.
  - simpl. rewrite app_nil_r. auto.
  - simpl. unfold bind, call.
    destruct (fn_run (entry_listener e) args (world r)) as [o w'].
    match goal with |- context [emitAsync_loop es args ?r1] =>
      specialize (IH r1);
      destruct (emitAsync_loop es args r1) as [[res rem] r2]
    end.
    simpl in *. destruct IH as [H1 [H2 H3]]. rewrite H1, H2, H3.
    rewrite <- app_assoc. simpl. rewrite to_remove_filter. auto.
Qed.

(** The loops that stop at a result call a first part of the list. *)
Lemma emitUntilResult_loop_run (es : list Entry) (args : jsargs) :
  forall r : Run W,
    exists n,
      trace (snd (emitUntilResult_loop es args r))
        = trace r ++ map (@entry_ref W) (firstn n es) /\
      snd (fst (emitUntilResult_loop es args r))
        = filter (@entry_once W) (firstn n es).
Proof.
  induction es as [|e es IH]; intros r.
  - exists 0. simpl. rewrite app_nil_r. auto.
  - simpl. unfold bind, call.
    destruct (fn_run (entry_listener e) args (world r)) as [o w'].
    set (r1 := {| world := w'; nextRef := nextRef r;
                  trace := trace r ++ [entry_ref e] |}).
    destruct (IH r1) as [n [H1 H2]].
    assert (Hstop :
      trace (snd (ret (W:=W) (Plain Undefined, to_remove e []) r1))
        = trace r ++ map (@entry_ref W) (firstn 1 (e :: es)) /\
      to_remove e [] = filter (@entry_once W) (firstn 1 (e :: es))).
    { simpl. unfold to_remove. destruct (entry_once e); auto. }
    assert (Hgo :
      exists n0,
        trace (snd ((' (result, toRemove) <- emitUntilResult_loop es args ;;
                     ret (result, to_remove e toRemove)) r1))
          = trace r ++ map (@entry_ref W) (firstn n0 (e :: es)) /\
        snd (fst ((' (result, toRemove) <- emitUntilResult_loop es args ;;
                   ret (result, to_remove e toRemove)) r1))
          = filter (@entry_once W) (firstn n0 (e :: es))).
    { exists (S n). unfold bind.
      destruct (emitUntilResult_loop es args r1) as [[res rem] r2].
      simpl in *. rewrite H1, H2. rewrite <- app_assoc. simpl.
      rewrite to_remove_filter. auto. }
    destruct o as [[[|d]|s]|err]; try exact Hgo.
    exists 1. exact Hstop.
Qed.

Lemma emitUntilResultAsync_loop_run (es : list Entry) (args : jsargs) :
  forall r : Run W,
    exists n,
      trace (snd (emitUntilResultAsync_loop es args r))
        = trace r ++ map (@entry_ref W) (firstn n es) /\
      snd (fst (emitUntilResultAsync_loop es args r))
        = filter (@entry_once W) (firstn n es).
Proof.
  induction es as [|e es IH]; intros r.
  - exists 0. simpl. rewrite app_nil_r. auto.
  - simpl. unfold bind, call.
    destruct (fn_run (entry_listener e) args (world r)) as [o w'].
    set (r1 := {| world := w'; nextRef := nextRef r;
                  trace := trace r ++ [entry_ref e] |}).
    destruct (IH r1) as [n [H1 H2]].
    assert (Hgo :
      exists n0,
        trace (snd ((' (result, toRemove) <-
                       emitUntilResultAsync_loop es args ;;
                     ret (result, to_remove e toRemove)) r1))
          = trace r ++ map (@entry_ref W) (firstn n0 (e :: es)) /\
        snd (fst ((' (result, toRemove) <-
                     emitUntilResultAsync_loop es args ;;
                   ret (result, to_remove e toRemove)) r1))
          = filter (@entry_once W) (firstn n0 (e :: es))).
    { exists (S n). unfold bind.
      destruct (emitUntilResultAsync_loop es args r1) as [[res rem] r2].
      simpl in *. rewrite H1, H2. rewrite <- app_assoc. simpl.
      rewrite to_remove_filter. auto. }
    destruct (awaited o) as [[|d]|err]; try exact Hgo.
    exists 1. simpl. unfold to_remove. destruct (entry_once e); auto.
Qed.

Lemma skipn_app_exact (A : Type) (a b : list A) :
  skipn (length a) (a ++ b) = b.
Proof. induction a; simpl; auto. Qed.

Lemma calls_between_app (r r' : Run W) (calls : list nat) :
  trace r' = trace r ++ calls -> calls_between r r' = calls.
Proof. unfold calls_between. intros ->. apply skipn_app_exact. Qed.

Lemma get_delete_same (V : Type) (k : jsstring) (m : Collection V) :
  NoDup (keys m) -> get k (delete k m) = None.
Proof.
  unfold keys. induction m as [|[k' v'] m IH]; simpl; intros H; [reflexivity|].
  inversion H as [|? ? Hn Hd]; subst.
  destruct (jsstring_eqb k k') eqn:E.
  - apply jsstring_eqb_eq in E. subst. now apply get_none_not_in.
  - simpl. rewrite E. auto.
Qed.

Lemma fold_delete_entry (toRemove : list Entry) :
  forall ls : list Entry,
    fold_left (fun acc e => delete_entry e acc) toRemove ls
    = filter (kept toRemove) ls.
Proof.
  induction toRemove as [|e rem IH]; intros ls; simpl.
  - induction ls as [|x ls IHl]; simpl; [reflexivity|]. now rewrite <- IHl.
  - rewrite IH. unfold delete_entry.
    induction ls as [|x ls IHl]; simpl; [reflexivity|].
    unfold kept at 2. simpl.
    destruct (Nat.eqb (entry_ref x) (entry_ref e)); simpl.
    + exact IHl.
    + fold (kept rem x). destruct (kept rem x); simpl; now rewrite IHl.
Qed.

Lemma entries_after_removal (ev : jsstring) (toRemove : list Entry)
    (em : ResultEventEmitter W) :
  NoDup (keys (eventListeners em)) ->
  getListenerEntries ev (removeOnceListeners ev toRemove em)
  = filter (kept toRemove) (getListenerEntries ev em).
Proof.
  intros Hk. destruct toRemove as [|e rem].
  - simpl. generalize (getListenerEntries ev em).
    induction l as [|x l IHl]; simpl; [reflexivity|]. now rewrite <- IHl.
  - unfold removeOnceListeners, getListenerEntries.
    destruct (get ev (eventListeners em)) as [ls|] eqn:E.
    + rewrite fold_delete_entry. cbn [eventListeners].
      destruct (Nat.eqb (length (filter (kept (e :: rem)) ls)) 0) eqn:L.
      * rewrite get_delete_same by assumption.
        apply Nat.eqb_eq in L.
        destruct (filter (kept (e :: rem)) ls); [reflexivity|discriminate].
      * now rewrite get_set_same.
    + rewrite E. reflexivity.
Qed.


Lemma firstn_incl (A : Type) (n : nat) (l : list A) (x : A) :
  In x (firstn n l) -> In x l.
Proof.
  revert l; induction n as [|n IH]; intros [|y l]; simpl; try tauto.
  intros [->|H]; auto.
Qed.


End EmitterFacts.


Lemma NoDup_map_filter (A B : Type) (f : A -> B) (keep : A -> bool)
    (xs : list A) (H : NoDup (map f xs)) :
  NoDup (map f (filter keep xs)).
Proof.
  induction xs as [|x xs IH]; simpl in *; [constructor|].
  inversion H as [|? ? Hx Hd]; subst.
  destruct (keep x); simpl; auto. constructor; auto.
  intros Hin. apply Hx. apply in_map_iff in Hin.
  destruct Hin as [y [E Hy]]. apply filter_In in Hy.
  rewrite <- E. apply in_map. tauto.
Qed.

(* ------------------------------------------------------------------ *)
(** ** Emissions in progress *)

Section InProgress.

Import Emitter.

Variable W : Type.

Local Abbreviation Entry := (EventListenerEntry W).








Ltac fields :=
  unfold loop_done, settled_entry, settle, removal, found, pending,
         collected, pushed, advanced, moved, waiting in *;
  cbn [emitting emitting_event emitting_args listenerEntries
       listenersToRemove results promises result at_ fst snd
       eventListeners lastResults] in *.



Lemma entries_by_listeners (ev : jsstring) (em em0 : ResultEventEmitter W) :
  eventListeners em = eventListeners em0 ->
  getListenerEntries ev em = getListenerEntries ev em0.
Proof. unfold getListenerEntries. now intros ->. Qed.



























End InProgress.




(* ------------------------------------------------------------------ *)
(** ** Event propagation through the pack tree *)

Section PackFacts.

Import PackTree.

Variable W : Type.

Lemma Pack_tree_ind (P : Pack W -> Prop) :
  (forall id locs subs ints evs insps em,
      Forall (fun kp => P (snd kp)) subs ->
      P (mkPack id locs subs ints evs insps em)) ->
  forall p, P p.
Proof.
  intros H. fix IH 1. intros [id locs subs ints evs insps em]. apply H.
  induction subs as [|[k sp] subs IHs]; constructor; [apply IH|exact IHs].
Qed.

Lemma emit_each_app (ev : jsstring) (args : jsargs) (a b : list (Pack W)) :
  forall r,
    emit_each ev args (a ++ b) r
    = (ra <- emit_each ev args a ;;
       rb <- emit_each ev args b ;;
       ret (ra ++ rb)) r.
Proof.
  induction a as [|p a IH]; intros r; cbn [emit_each app].
  - unfold bind, ret. destruct (emit_each ev args b r). reflexivity.
  - unfold bind, ret in *.
    destruct (Emitter.emit ev args (_events p) r) as [[res em'] r1].
    rewrite IH.
    destruct (emit_each ev args a r1) as [ra r2].
    destruct (emit_each ev args b r2) as [rb r3].
    now rewrite app_assoc.
Qed.

(** [emitEvent] on a tree gives what the packs' own emitters give, taken
    in preorder. *)
Lemma emitEvent_flat (ev : jsstring) (args : jsargs) (p : Pack W) :
  forall r,
    (fst (fst (emitEvent ev args p r)), snd (emitEvent ev args p r))
    = emit_each ev args (preorder p) r.
Proof.
  induction p as [id locs subs ints evs insps em IH] using Pack_tree_ind.
  intros r. cbn [emitEvent preorder emit_each _events data_subPacks].
  unfold bind, ret.
  destruct (Emitter.emit ev args em r) as [[res em'] r1].
  assert (Hsubs : forall r0,
    (fst (fst (forEach_subPacks (emitEvent ev args) subs r0)),
     snd (forEach_subPacks (emitEvent ev args) subs r0))
    = emit_each ev args
        (flat_map (fun kp => preorder (snd kp)) subs) r0).
  { clear - IH. induction subs as [|[k sp] subs IHs]; intros r0.
    - reflexivity.
    - inversion IH as [|? ? Hsp Hrest]; subst.
      cbn [flat_map forEach_subPacks snd]. rewrite emit_each_app.
      unfold bind, ret.
      specialize (Hsp r0). cbn [snd] in Hsp.
      destruct (emitEvent ev args sp r0) as [[rs sp'] r1].
      cbn [fst snd] in Hsp. rewrite <- Hsp.
      specialize (IHs Hrest r1).
      destruct (forEach_subPacks (emitEvent ev args) subs r1)
        as [[rr l''] r2].
      cbn [fst snd] in IHs. rewrite <- IHs. reflexivity. }
  specialize (Hsubs r1).
  destruct (forEach_subPacks (emitEvent ev args) subs r1)
    as [[rr subs'] r2].
  cbn [fst snd] in Hsubs. rewrite <- Hsubs. reflexivity.
Qed.

Lemma emit_single (ev : jsstring) (args : jsargs)
    (em : Emitter.ResultEventEmitter W) (e : Emitter.EventListenerEntry W)
    (r : Run W) :
  Emitter.getListenerEntries ev em = [e] ->
  fst (fst (Emitter.emit ev args em r))
    = [collected (fst (fn_run (Emitter.entry_listener e) args (world r)))]
  /\ world (snd (Emitter.emit ev args em r))
      = snd (fn_run (Emitter.entry_listener e) args (world r))
  /\ trace (snd (Emitter.emit ev args em r))
      = trace r ++ [Emitter.entry_ref e].
Proof.
  intros H. unfold Emitter.emit. rewrite H. simpl.
  unfold bind, call, ret.
  destruct (fn_run (Emitter.entry_listener e) args (world r)) as [o w'].
  simpl. auto.
Qed.

End PackFacts.

(** C3: [emitEvent] on a pack tree returns, and calls, what the packs'
    own emitters return and call when taken in depth-first order, each
    pack before its sub-packs, the sub-packs in registration order; on a
    root with one sub-pack, each with one listener for the event, the
    result has exactly two entries, the root's listener's first, and the
    root's listener is called before the sub-pack's. *)
Theorem emitEvent_depth_first :
  forall (W : Type) (ev : jsstring) (args : jsargs),
    (forall (p : PackTree.Pack W) (r : Run W),
        (fst (fst (PackTree.emitEvent ev args p r)),
         snd (PackTree.emitEvent ev args p r))
        = PackTree.emit_each ev args (PackTree.preorder p) r) /\
    (forall id locs key ints evs insps em
            child_id child_locs child_ints child_evs child_insps child_em
            (e1 e2 : Emitter.EventListenerEntry W) (r : Run W),
        Emitter.getListenerEntries ev em = [e1] ->
        Emitter.getListenerEntries ev child_em = [e2] ->
        let child :=
          PackTree.mkPack child_id child_locs [] child_ints child_evs
            child_insps child_em in
        let root :=
          PackTree.mkPack id locs [(key, child)] ints evs insps em in
        let first := fn_run (Emitter.entry_listener e1) args (world r) in
        let second := fn_run (Emitter.entry_listener e2) args (snd first) in
        fst (fst (PackTree.emitEvent ev args root r))
          = [PackTree.collected (fst first); PackTree.collected (fst second)]
        /\ trace (snd (PackTree.emitEvent ev args root r))
            = trace r ++ [Emitter.entry_ref e1; Emitter.entry_ref e2]).
Proof.
  intros W ev args. split.
  - intros p r. apply emitEvent_flat.
  - intros id locs key ints evs insps em cid clocs cints cevs cinsps cem
           e1 e2 r H1 H2 child root first second.
    pose proof (emitEvent_flat ev args root r) as Hflat.
    remember (PackTree.emitEvent ev args root r) as X eqn:EX. clear EX.
    cbn [PackTree.preorder PackTree.data_subPacks root child flat_map snd
         app PackTree.emit_each PackTree._events] in Hflat.
    unfold bind in Hflat.
    destruct (emit_single ev args em r H1) as [A1 [A2 A3]].
    destruct (Emitter.emit ev args em r) as [[res1 em'] r1].
    cbn [fst snd] in A1, A2, A3.
    destruct (emit_single ev args cem r1 H2) as [B1 [B2 B3]].
    destruct (Emitter.emit ev args cem r1) as [[res2 cem'] r2].
    cbn [fst snd] in B1, B2, B3. unfold ret in Hflat.
    injection Hflat as Hres Hrun.
    rewrite Hres, Hrun. subst res1 res2. unfold second, first.
    rewrite <- A2. split; [reflexivity|].
    rewrite B3, A3, <- app_assoc. reflexivity.
Qed.

Lemma emitEvent_depth_first_witness :
  Emitter.getListenerEntries (js "ping")
    (PackTree._events (PackExample.parent (Plain (Defined 5))))
  = [{| Emitter.entry_ref := 1;
        Emitter.entry_listener := PackExample.listener 1 (Plain (Defined 5));
        Emitter.entry_once := false |}] /\
  fst (fst (PackTree.emitEvent (js "ping") []
              (PackExample.parent (Plain (Defined 5))) PackExample.start))
  = [Plain (Defined 5); Plain (Defined 1)].
Proof.
  split; [reflexivity|].
  exact (proj1 (proj2 (@emitEvent_depth_first unit (js "ping") [])
           (js "parent") [] (js "child") [] [] []
           (PackExample.listening 1 (Plain (Defined 5)))
           (js "child") [] [] [] []
           (PackExample.listening 2 (Plain (Defined 1)))
           _ _ PackExample.start eq_refl eq_refl)).
Defined.

Section UntilResultFacts.

Import PackTree.

Variable W : Type.

Lemma scan_app (ev : jsstring) (args : jsargs) (a b : list (Pack W)) :
  forall r,
    scan_until_result ev args (a ++ b) r
    = (v <- scan_until_result ev args a ;;
       match v with
       | Plain Undefined => scan_until_result ev args b
       | _ => ret v
       end) r.
Proof.
  induction a as [|p a IH]; intros r; cbn [scan_until_result app].
  - reflexivity.
  - unfold bind, ret in *.
    destruct (Emitter.emitUntilResult ev args (_events p) r)
      as [[res em'] r1].
    destruct res as [[|d]|s]; [apply IH|reflexivity|reflexivity].
Qed.

(** [emitEventUntilResultSync] on a tree gives what scanning the packs'
    own emitters in preorder gives. *)
Lemma emitEventUntilResultSync_flat (ev : jsstring) (args : jsargs)
    (p : Pack W) :
  forall r,
    (fst (fst (emitEventUntilResultSync ev args p r)),
     snd (emitEventUntilResultSync ev args p r))
    = scan_until_result ev args (preorder p) r.
Proof.
  induction p as [id locs subs ints evs insps em IH] using Pack_tree_ind.
  intros r.
  cbn [emitEventUntilResultSync preorder scan_until_result _events
       data_subPacks].
  unfold bind, ret.
  destruct (Emitter.emitUntilResult ev args em r) as [[res em'] r1].
  destruct res as [[|d]|s]; [|reflexivity|reflexivity].
  assert (Hsubs : forall r0,
    (fst (fst (trySubPacks (emitEventUntilResultSync ev args) subs r0)),
     snd (trySubPacks (emitEventUntilResultSync ev args) subs r0))
    = scan_until_result ev args
        (flat_map (fun kp => preorder (snd kp)) subs) r0).
  { clear - IH. induction subs as [|[k sp] subs IHs]; intros r0.
    - reflexivity.
    - inversion IH as [|? ? Hsp Hrest]; subst.
      cbn [flat_map trySubPacks snd]. rewrite scan_app.
      unfold bind, ret.
      specialize (Hsp r0). cbn [snd] in Hsp.
      destruct (emitEventUntilResultSync ev args sp r0) as [[v sp'] r1].
      cbn [fst snd] in Hsp. rewrite <- Hsp.
      destruct v as [[|d]|s]; [|reflexivity|reflexivity].
      specialize (IHs Hrest r1).
      destruct (trySubPacks (emitEventUntilResultSync ev args) subs r1)
        as [[v' l''] r2].
      cbn [fst snd] in IHs. rewrite <- IHs. reflexivity. }
  specialize (Hsubs r1).
  destruct (trySubPacks (emitEventUntilResultSync ev args) subs r1)
    as [[v subs'] r2].
  cbn [fst snd] in Hsubs. rewrite <- Hsubs. reflexivity.
Qed.

Lemma emitUntilResult_loop_plain (es : list (Emitter.EventListenerEntry W))
    (args : jsargs) :
  forall r, exists p,
    fst (fst (Emitter.emitUntilResult_loop es args r)) = Plain p.
Proof.
  induction es as [|e es IH]; intros r; cbn [Emitter.emitUntilResult_loop].
  - exists Undefined. reflexivity.
  - unfold bind, ret, call.
    destruct (fn_run (Emitter.entry_listener e) args (world r)) as [o w'].
    set (r1 := {| world := w'; nextRef := nextRef r;
                  trace := trace r ++ [Emitter.entry_ref e] |}).
    destruct (IH r1) as [p Hp].
    destruct o as [[[|d]|s]|err];
      try (destruct (Emitter.emitUntilResult_loop es args r1)
             as [[v rem] r2];
           cbn [fst snd] in *; exists p; exact Hp).
    exists (Defined d). reflexivity.
Qed.

Lemma scan_plain (ev : jsstring) (args : jsargs) (packs : list (Pack W)) :
  forall r, exists p, fst (scan_until_result ev args packs r) = Plain p.
Proof.
  induction packs as [|c packs IH]; intros r; cbn [scan_until_result].
  - exists Undefined. reflexivity.
  - unfold bind, ret, Emitter.emitUntilResult.
    destruct (emitUntilResult_loop_plain
                (Emitter.getListenerEntries ev (_events c)) args r)
      as [p Hp].
    unfold bind.
    destruct (Emitter.emitUntilResult_loop
                (Emitter.getListenerEntries ev (_events c)) args r)
      as [[v rem] r1].
    cbn [fst snd] in Hp. subst v. unfold ret.
    destruct p as [|d]; [apply IH|]. exists (Defined d). reflexivity.
Qed.

(** Within one emitter: the listeners before the first one with a result
    are called, then that one, and none after it. *)
Lemma emitUntilResult_loop_first (args : jsargs)
    (l1 : list (Emitter.EventListenerEntry W)) :
  forall (e : Emitter.EventListenerEntry W) l2 (r : Run W) (d : nat),
    fst (fst (Emitter.emitUntilResult_loop l1 args r)) = Plain Undefined ->
    fst (fn_run (Emitter.entry_listener e) args
           (world (snd (Emitter.emitUntilResult_loop l1 args r))))
      = Return (Plain (Defined d)) ->
    fst (fst (Emitter.emitUntilResult_loop (l1 ++ e :: l2) args r))
      = Plain (Defined d) /\
    trace (snd (Emitter.emitUntilResult_loop (l1 ++ e :: l2) args r))
      = trace r ++ map (@Emitter.entry_ref W) l1 ++ [Emitter.entry_ref e].
Proof.
  induction l1 as [|x l1 IH]; intros e l2 r d Hnone He;
    cbn [Emitter.emitUntilResult_loop app map] in *.
  - unfold bind, ret, call in *. cbn [fst snd world] in He.
    destruct (fn_run (Emitter.entry_listener e) args (world r)) as [o w'].
    cbn [fst] in He. subst o. cbn [fst snd trace]. auto.
  - unfold bind, ret, call in *.
    destruct (fn_run (Emitter.entry_listener x) args (world r)) as [o w'].
    set (r1 := {| world := w'; nextRef := nextRef r;
                  trace := trace r ++ [Emitter.entry_ref x] |}) in *.
    specialize (IH e l2 r1 d).
    destruct o as [[[|d']|s]|err];
      try (destruct (Emitter.emitUntilResult_loop l1 args r1)
             as [[v rem] r2] eqn:E1;
           cbn [fst snd] in *;
           specialize (IH Hnone He);
           destruct (Emitter.emitUntilResult_loop (l1 ++ e :: l2) args r1)
             as [[v' rem'] r2'];
           cbn [fst snd] in *;
           destruct IH as [IH1 IH2]; split; [exact IH1|];
           rewrite IH2; unfold r1; cbn [trace];
           rewrite <- app_assoc; reflexivity).
    cbn [fst snd] in Hnone. discriminate.
Qed.

End UntilResultFacts.

(** C4, as stated, fails: the root's listener hands back a promise, which
    is not [undefined], yet the sub-pack's listener is called next and its
    result is the one returned. *)
Lemma until_result_passes_over_promise :
  let root := PackExample.parent (Promise (Fulfilled (Defined 7))) in
  fst (fst (Emitter.emit (js "ping") [] (PackTree._events root)
              PackExample.start))
    = [Promise (Fulfilled (Defined 7))] /\
  fst (fst (PackTree.emitEventUntilResultSync (js "ping") [] root
              PackExample.start))
    = Plain (Defined 1) /\
  trace (snd (PackTree.emitEventUntilResultSync (js "ping") [] root
                PackExample.start))
    = [1; 2].
Proof. cbv zeta. repeat split; reflexivity. Qed.

(** C4 (amended): for every pack tree, [emitEventUntilResultSync] returns,
    and calls, what scanning the packs' own emitters gives when the packs
    are taken self first and then the sub-packs in registration order,
    each with its own sub-packs before the next; the first pack whose
    emitter gives a result decides, and the run stops with that pack's own
    emission, whatever packs come after it; within a pack the listeners
    are called in order up to the first whose result is neither
    [undefined] nor a [Promise], and none after it; what is returned is
    that result, or [undefined], never a [Promise]. *)
Theorem emitEventUntilResultSync_first_result :
  forall (W : Type) (ev : jsstring) (args : jsargs),
    (forall (p : PackTree.Pack W) (r : Run W),
        (fst (fst (PackTree.emitEventUntilResultSync ev args p r)),
         snd (PackTree.emitEventUntilResultSync ev args p r))
        = PackTree.scan_until_result ev args (PackTree.preorder p) r) /\
    (forall (before : list (PackTree.Pack W)) (c : PackTree.Pack W)
            (after : list (PackTree.Pack W)) (r : Run W) (d : nat),
        fst (PackTree.scan_until_result ev args before r)
          = Plain Undefined ->
        fst (fst (Emitter.emitUntilResult ev args (PackTree._events c)
                    (snd (PackTree.scan_until_result ev args before r))))
          = Plain (Defined d) ->
        PackTree.scan_until_result ev args (before ++ c :: after) r
        = (Plain (Defined d),
           snd (Emitter.emitUntilResult ev args (PackTree._events c)
                  (snd (PackTree.scan_until_result ev args before r))))) /\
    (forall (em : Emitter.ResultEventEmitter W)
            (l1 : list (Emitter.EventListenerEntry W))
            (e : Emitter.EventListenerEntry W)
            (l2 : list (Emitter.EventListenerEntry W))
            (r : Run W) (d : nat),
        Emitter.getListenerEntries ev em = l1 ++ e :: l2 ->
        fst (fst (Emitter.emitUntilResult_loop l1 args r))
          = Plain Undefined ->
        fst (fn_run (Emitter.entry_listener e) args
               (world (snd (Emitter.emitUntilResult_loop l1 args r))))
          = Return (Plain (Defined d)) ->
        fst (fst (Emitter.emitUntilResult ev args em r))
          = Plain (Defined d) /\
        Emitter.calls_between r
          (snd (Emitter.emitUntilResult ev args em r))
          = map (@Emitter.entry_ref W) l1 ++ [Emitter.entry_ref e]) /\
    (forall (p : PackTree.Pack W) (r : Run W),
        exists v : plain,
          fst (fst (PackTree.emitEventUntilResultSync ev args p r))
            = Plain v).
Proof.
  intros W ev args. split; [|split; [|split]].
  - intros p r. apply emitEventUntilResultSync_flat.
  - intros before c after r d Hb Hc. rewrite scan_app.
    unfold bind, ret.
    destruct (PackTree.scan_until_result ev args before r) as [v r1].
    cbn [fst snd] in *. subst v. cbn [PackTree.scan_until_result].
    unfold bind, ret.
    destruct (Emitter.emitUntilResult ev args (PackTree._events c) r1)
      as [[res em'] r2].
    cbn [fst snd] in *. subst res. reflexivity.
  - intros em l1 e l2 r d Hl Hnone He.
    destruct (@emitUntilResult_loop_first W args l1 e l2 r d Hnone He)
      as [H1 H2].
    unfold Emitter.emitUntilResult, bind, ret. rewrite Hl.
    destruct (Emitter.emitUntilResult_loop (l1 ++ e :: l2) args r)
      as [[v rem] r1].
    cbn [fst snd] in *. split; [exact H1|].
    now apply calls_between_app.
  - intros p r.
    pose proof (emitEventUntilResultSync_flat ev args p r) as Hflat.
    destruct (scan_plain ev args (PackTree.preorder p) r) as [v Hv].
    exists v. rewrite <- Hflat in Hv. exact Hv.
Qed.

Lemma emitEventUntilResultSync_first_result_witness :
  fst (PackTree.scan_until_result (js "ping") []
         [PackExample.parent (Plain Undefined)] PackExample.start)
    = Plain Undefined /\
  PackTree.scan_until_result (js "ping") []
    ([PackExample.parent (Plain Undefined)]
       ++ PackExample.child :: [PackExample.child]) PackExample.start
  = (Plain (Defined 1),
     {| world := tt; nextRef := 3; trace := [1; 2] |}).
Proof.
  split; [reflexivity|].
  exact (proj1 (proj2 (@emitEventUntilResultSync_first_result unit
                         (js "ping") []))
           [PackExample.parent (Plain Undefined)] PackExample.child
           [PackExample.child] PackExample.start 1 eq_refl eq_refl).
Defined.

(* ------------------------------------------------------------------ *)
(** ** Registration *)

Section RegistrationFacts.

Import PackTree.

Variable W : Type.
Variable generateCombinations : jsstring -> list jsstring.

Lemma emitEvent_keeps_interactions (ev : jsstring) (args : jsargs)
    (p : Pack W) (r : Run W) :
  data_interactions (snd (fst (emitEvent ev args p r)))
  = data_interactions p.
Proof.
  destruct p as [id locs subs ints evs insps em]. cbn [emitEvent].
  unfold bind, ret.
  destruct (Emitter.emit ev args em r) as [[res em'] r1].
  destruct (forEach_subPacks (emitEvent ev args) subs r1)
    as [[rr subs'] r2].
  reflexivity.
Qed.

Lemma register_has (x : Interaction W) (p : Pack W) (r : Run W) :
  has (i_id x) (data_interactions (fst (register x p r))) = true.
Proof.
  unfold register, bind, ret.
  match goal with |- context [emitEvent ?ev ?args ?p1 r] =>
    pose proof (emitEvent_keeps_interactions ev args p1 r) as H;
    destruct (emitEvent ev args p1 r) as [[res p'] r1]
  end.
  cbn [fst snd] in *. rewrite H. cbn [data_interactions].
  unfold has. now rewrite get_set_same.
Qed.

Lemma perform_duplicate (c : registration W) (p : Pack W) (r : Run W) :
  has (registered_id c) (data_interactions p) = true ->
  exists e,
    perform generateCombinations c p r = ((Thrown e, p), r)
    /\ is_duplicate_id_error e = true.
Proof.
  intros H.
  destruct c as [cfg|cfg|cfg|cfg|cfg|cfg|cfg|cfg|cfg|cfg];
    cbn [perform registered_id] in *;
    unfold slashCommand, userContextMenu, messageContextMenu, contextMenu,
      button, stringSelectMenu, userSelectMenu, roleSelectMenu,
      channelSelectMenu, mentionableSelectMenu, modal, component;
    rewrite H; eexists; split; reflexivity.
Qed.

Lemma perform_fresh (c : registration W) (p : Pack W) (r : Run W) :
  has (registered_id c) (data_interactions p) = false ->
  accepted generateCombinations c ->
  fst (fst (perform generateCombinations c p r)) = Normal tt /\
  has (registered_id c)
      (data_interactions (snd (fst (perform generateCombinations c p r))))
    = true.
Proof.
  intros H Hacc.
  destruct c as [cfg|cfg|cfg|cfg|cfg|cfg|cfg|cfg|cfg|cfg];
    cbn [perform registered_id accepted] in *;
    unfold slashCommand, userContextMenu, messageContextMenu, contextMenu,
      button, stringSelectMenu, userSelectMenu, roleSelectMenu,
      channelSelectMenu, mentionableSelectMenu, modal, component;
    rewrite H; try rewrite Hacc; unfold bind, ret;
    match goal with |- context [register ?x p r] =>
      pose proof (register_has x p r) as Hr;
      destruct (register x p r) as [p' r1]
    end;
    cbn [fst snd i_id] in *; auto.
Qed.

Lemma isSlashCommandValid_too_long
    (cfg : SlashCommandRegistrationConfig W) (combos : list jsstring) :
  (exists name, In name combos /\ too_long name) ->
  exists msg splited,
    isSlashCommandValid cfg combos
    = Some (CommandNameExceededMaxLengthError msg splited).
Proof.
  intros [name [Hin Hlong]]. unfold isSlashCommandValid.
  destruct combos as [|c0 combos]; [contradiction|].
  cbn [length Nat.eqb].
  match goal with |- context [existsb ?f ?l] =>
    assert (E : existsb f l = true)
  end.
  { apply existsb_exists. exists (split Pattern.SPACE name). split.
    - now apply in_map.
    - apply orb_true_iff. destruct Hlong as [H3|[word [Hw H32]]].
      + left. now apply Nat.ltb_lt.
      + right. apply existsb_exists. exists word. split; [assumption|].
        now apply Nat.ltb_lt. }
  rewrite E. eexists. eexists. reflexivity.
Qed.

End RegistrationFacts.

(** C5, as stated, fails: when the id is already registered the plain
    duplicate-id [Error] is thrown first, whatever the name expands to. *)
Lemma slashCommand_duplicate_id_comes_first :
  let cfg := PackExample.slash "ping" "a b c d" 21 in
  (exists name,
      In name (Pattern.generateCombinations (PackTree.slash_name cfg))
      /\ PackTree.too_long name) /\
  fst (fst (PackTree.slashCommand Pattern.generateCombinations cfg
              PackExample.with_ping PackExample.start))
  = Thrown (PackTree.already_exists (js "name") (js "ping")).
Proof.
  cbv zeta. split; [|reflexivity].
  exists (js "a b c d"). split; [left; reflexivity|].
  left. vm_compute. lia.
Qed.

(** C5 (amended): for every slash-command registration on a pack that
    does not yet hold the id: if the name's expansion includes a
    combination with more than 3 words between spaces, or one with a word
    longer than 32 code units, registration throws
    [CommandNameExceededMaxLengthError]; if the expansion gives no
    combination, it throws [CommandNameNoCombinationsError]; either way
    the pack is left as it was, the command is not among its interactions
    and no listener is called. *)
Theorem slashCommand_name_validation :
  forall (W : Type) (generateCombinations : jsstring -> list jsstring)
         (cfg : PackTree.SlashCommandRegistrationConfig W)
         (p : PackTree.Pack W) (r : Run W),
    has (PackTree.slash_id cfg) (PackTree.data_interactions p) = false ->
    ((exists name,
         In name (generateCombinations (PackTree.slash_name cfg))
         /\ PackTree.too_long name) ->
     exists msg splited,
       PackTree.slashCommand generateCombinations cfg p r
       = ((Thrown (PackTree.CommandNameExceededMaxLengthError msg splited),
           p), r)) /\
    (generateCombinations (PackTree.slash_name cfg) = [] ->
     exists msg,
       PackTree.slashCommand generateCombinations cfg p r
       = ((Thrown (PackTree.CommandNameNoCombinationsError msg), p), r)).
Proof.
  intros W gc cfg p r Hfresh. split.
  - intros Hlong.
    destruct (isSlashCommandValid_too_long cfg _ Hlong) as [msg [sp E]].
    exists msg, sp. unfold PackTree.slashCommand. rewrite Hfresh, E.
    reflexivity.
  - intros Hnone. unfold PackTree.slashCommand. rewrite Hfresh, Hnone.
    eexists. reflexivity.
Qed.

Lemma slashCommand_name_validation_witness :
  (exists msg splited,
      PackTree.slashCommand Pattern.generateCombinations
        (PackExample.slash "pong" "a (b|c) (d)? e" 21)
        PackExample.with_ping PackExample.start
      = ((Thrown (PackTree.CommandNameExceededMaxLengthError msg splited),
          PackExample.with_ping), PackExample.start)) /\
  (exists msg,
      PackTree.slashCommand Pattern.generateCombinations
        (PackExample.slash "pong" "a ()" 21)
        PackExample.with_ping PackExample.start
      = ((Thrown (PackTree.CommandNameNoCombinationsError msg),
          PackExample.with_ping), PackExample.start)).
Proof.
  split.
  - refine (proj1 (@slashCommand_name_validation unit
                     Pattern.generateCombinations
                     (PackExample.slash "pong" "a (b|c) (d)? e" 21)
                     PackExample.with_ping PackExample.start eq_refl) _).
    exists (js "a b d e"). split; [left; reflexivity|].
    left. vm_compute. lia.
  - exact (proj2 (@slashCommand_name_validation unit
                    Pattern.generateCombinations
                    (PackExample.slash "pong" "a ()" 21)
                    PackExample.with_ping PackExample.start eq_refl)
             eq_refl).
Defined.

(** C6: each of the ten registration methods, called with an id the
    pack's interaction collection already holds, throws the duplicate-id
    error and leaves the pack, and the run state, as they were; called on
    two different packs neither of which holds the id (the name being
    valid when it is a slash command), it succeeds on both and each then
    holds the id. *)
Theorem duplicate_id_rejected_per_pack :
  forall (W : Type) (generateCombinations : jsstring -> list jsstring)
         (c : PackTree.registration W),
    (forall (p : PackTree.Pack W) (r : Run W),
        has (PackTree.registered_id c) (PackTree.data_interactions p)
          = true ->
        exists e,
          PackTree.perform generateCombinations c p r = ((Thrown e, p), r)
          /\ PackTree.is_duplicate_id_error e = true) /\
    (forall (p1 p2 : PackTree.Pack W) (r : Run W),
        has (PackTree.registered_id c) (PackTree.data_interactions p1)
          = false ->
        has (PackTree.registered_id c) (PackTree.data_interactions p2)
          = false ->
        PackTree.accepted generateCombinations c ->
        let first := PackTree.perform generateCombinations c p1 r in
        let second :=
          PackTree.perform generateCombinations c p2 (snd first) in
        fst (fst first) = Normal tt /\
        fst (fst second) = Normal tt /\
        has (PackTree.registered_id c)
            (PackTree.data_interactions (snd (fst first))) = true /\
        has (PackTree.registered_id c)
            (PackTree.data_interactions (snd (fst second))) = true).
Proof.
  intros W gc c. split.
  - intros p r H. now apply perform_duplicate.
  - intros p1 p2 r H1 H2 Hacc first second.
    destruct (perform_fresh gc c p1 r H1 Hacc) as [A1 A2].
    destruct (perform_fresh gc c p2 (snd first) H2 Hacc) as [B1 B2].
    auto.
Qed.

Lemma duplicate_id_rejected_per_pack_witness :
  has (js "ping") (PackTree.data_interactions PackExample.with_ping) = true /\
  exists e,
    PackTree.perform Pattern.generateCombinations
      (PackTree.CallButton PackExample.ping_button)
      PackExample.with_ping PackExample.start
    = ((Thrown e, PackExample.with_ping), PackExample.start)
    /\ PackTree.is_duplicate_id_error e = true.
Proof.
  split; [reflexivity|].
  exact (proj1 (@duplicate_id_rejected_per_pack unit
                  Pattern.generateCombinations
                  (PackTree.CallButton PackExample.ping_button))
           PackExample.with_ping PackExample.start eq_refl).
Defined.

(* ------------------------------------------------------------------ *)
(** ** Slash-command dispatch *)

Section DispatchFacts.

Import Root.

Variable W : Type.

Lemma find_all_false (A : Type) (f : A -> bool) (l : list A) :
  (forall x, In x l -> f x = false) -> find f l = None.
Proof.
  induction l as [|x l IH]; intros H; simpl; [reflexivity|].
  rewrite (H x) by now left. apply IH. intros y Hy. apply H. now right.
Qed.

Lemma emit_without_handler (key : jsstring) (ctx : jsargs)
    (insp : Inspector.Inspector W) (r : Run W) :
  Inspector.chatInput_handler key insp = None ->
  Inspector.emit Inspector.chatInput key ctx insp r = (Undefined, r).
Proof.
  unfold Inspector.chatInput_handler, Inspector.emit.
  destruct (get key (Inspector.chatInputCombinationsMap insp))
    as [[|c pattern]|]; try reflexivity.
  intros ->. reflexivity.
Qed.

Lemma tryInspectors_without_handler (full : jsstring) (wrapper : jsargs)
    (l : list (jsstring * CacheData (Inspector.Inspector W))) (r : Run W) :
  (forall entry, In entry l ->
                 Inspector.chatInput_handler full (data (snd entry)) = None) ->
  tryInspectors full wrapper l r = (tt, r).
Proof.
  induction l as [|[k cached] l IH]; intros H; [reflexivity|].
  cbn [tryInspectors]. unfold bind.
  rewrite emit_without_handler by (apply (H (k, cached)); now left).
  apply IH. intros entry Hin. apply H. now right.
Qed.

End DispatchFacts.

(** C8, as stated, fails: the name matches no cached command and the one
    cached inspector returns [undefined], yet the inspector's handler has
    been called. *)
Lemma dispatch_calls_handler_that_returns_nothing :
  let t := RootExample.refreshed in
  let full := Root.fullCommandName RootExample.status in
  (forall entry, In entry (Root.cache_interactions (Root.cache t)) ->
                 Root.is_slash_match full (Root.data (snd entry)) = false) /\
  (forall entry, In entry (Root.cache_inspectors (Root.cache t)) ->
                 fst (Inspector.emit Inspector.chatInput full [full]
                        (Root.data (snd entry)) RootExample.start)
                 = Undefined) /\
  Emitter.calls_between RootExample.start
    (snd (Root.handleChatInputCommand t RootExample.status RootExample.start))
  = [40].
Proof.
  cbv zeta. split; [|split].
  - intros entry [<-|[]]. reflexivity.
  - intros entry [<-|[]]. reflexivity.
  - reflexivity.
Qed.

(** C8 (amended): for every inbound slash command whose full name
    (command, sub-command group and sub-command joined by spaces) matches
    no cached command's name combinations, dispatch throws no error; and
    when, besides, no cached inspector holds a chat-input handler for that
    name, dispatch calls no handler at all and leaves the run state as it
    was. *)
Theorem unmatched_slash_command_is_silent :
  forall (W : Type) (t : Root.Tessen W)
         (interaction : Root.ChatInputCommand) (r : Run W),
    (forall entry, In entry (Root.cache_interactions (Root.cache t)) ->
       Root.is_slash_match (Root.fullCommandName interaction)
         (Root.data (snd entry)) = false) ->
    fst (Root.handleChatInputCommand t interaction r) = Normal tt /\
    ((forall entry, In entry (Root.cache_inspectors (Root.cache t)) ->
        Inspector.chatInput_handler (Root.fullCommandName interaction)
          (Root.data (snd entry)) = None) ->
     Root.handleChatInputCommand t interaction r = (Normal tt, r)).
Proof.
  intros W t interaction r Hnone.
  unfold Root.handleChatInputCommand.
  rewrite find_all_false by exact Hnone. unfold bind, ret. split.
  - destruct (Root.tryInspectors (Root.fullCommandName interaction)
                [Root.fullCommandName interaction]
                (Root.cache_inspectors (Root.cache t)) r).
    reflexivity.
  - intros Hi. rewrite tryInspectors_without_handler by exact Hi.
    reflexivity.
Qed.

Lemma unmatched_slash_command_is_silent_witness :
  let unknown :=
    {| Root.commandName := js "help";
       Root.subcommandGroup := None;
       Root.subcommand := Some (js "me") |} in
  Root.handleChatInputCommand RootExample.refreshed unknown RootExample.start
  = (Normal tt, RootExample.start).
Proof.
  cbv zeta.
  refine (proj2 (@unmatched_slash_command_is_silent unit
                   RootExample.refreshed _ RootExample.start _) _).
  - intros entry [<-|[]]. reflexivity.
  - intros entry [<-|[]]. reflexivity.
Defined.

(* ------------------------------------------------------------------ *)
(** ** The flattened cache *)

Section CacheFacts.

Import PackTree Root.

Variable W : Type.

Lemma push_as_fold (T : Type) (path : list jsstring) (items : Collection T) :
  forall acc : Collection (CacheData T),
    push path items acc
    = fold_left (@store (CacheData T))
        (map (fun item => (fst item, {| path := path; data := snd item |}))
             items)
        acc.
Proof.
  unfold push. induction items as [|[k v] items IH]; intros acc;
    [reflexivity|].
  simpl. apply IH.
Qed.

Lemma cache_interactions_pushCache (p : Pack W) :
  forall (path : list jsstring) (c : Cache W),
    cache_interactions (pushCache p path c)
    = fold_left (@store (CacheData (Interaction W)))
        (registrations p path) (cache_interactions c).
Proof.
  induction p as [id locs subs ints evs insps em IH] using Pack_tree_ind.
  intros path c. cbn [pushCache registrations data_interactions
                      data_subPacks pack_id].
  assert (Hsubs : forall c0 : Cache W,
    cache_interactions
      (pushCache_subPacks (fun subPack => pushCache subPack (path ++ [id]))
         path subs c0)
    = fold_left (@store (CacheData (Interaction W)))
        (flat_map (fun kp => registrations (snd kp) (path ++ [id])) subs)
        (cache_interactions c0)).
  { clear c. induction subs as [|[k sp] subs IHs]; intros c0; [reflexivity|].
    inversion IH as [|? ? Hsp Hrest]; subst.
    cbn [pushCache_subPacks flat_map snd]. rewrite fold_left_app.
    rewrite (IHs Hrest). f_equal. cbn [snd] in Hsp. rewrite Hsp.
    reflexivity. }
  rewrite Hsubs. cbn [cache_interactions].
  rewrite fold_left_app, <- push_as_fold. reflexivity.
Qed.

Lemma get_app (T : Type) (k : jsstring) (a b : Collection T) :
  get k (a ++ b) = match get k a with Some v => Some v | None => get k b end.
Proof.
  induction a as [|[k' v] a IH]; simpl; [reflexivity|].
  destruct (jsstring_eqb k k'); auto.
Qed.

(** Storing a row of keyed entries leaves, under each key, the last entry
    of the row that has it. *)
Lemma get_stored (T : Type) (k : jsstring) (l : list (jsstring * T)) :
  forall acc : Collection T,
    get k (fold_left (@store T) l acc)
    = match last_under k l with Some v => Some v | None => get k acc end.
Proof.
  unfold last_under. induction l as [|[k' v] l IH]; intros acc;
    [reflexivity|].
  cbn [fold_left rev]. rewrite IH, get_app. unfold store. cbn [fst snd get].
  destruct (get k (rev l)); [reflexivity|].
  destruct (jsstring_eqb k k') eqn:E.
  - apply jsstring_eqb_eq in E. subst. apply get_set_same.
  - apply jsstring_eqb_neq in E. now apply get_set_other.
Qed.

Lemma NoDup_keys_stored (T : Type) (l : list (jsstring * T)) :
  forall acc : Collection T,
    NoDup (keys acc) -> NoDup (keys (fold_left (@store T) l acc)).
Proof.
  induction l as [|[k v] l IH]; intros acc H; [assumption|].
  cbn [fold_left]. apply IH. unfold store. cbn [fst snd].
  apply unique_keys_NoDup, unique_keys_set, unique_keys_NoDup, H.
Qed.

Lemma get_of_in (T : Type) (k : jsstring) (v : T) (m : Collection T) :
  NoDup (keys m) -> In (k, v) m -> get k m = Some v.
Proof.
  unfold keys. induction m as [|[k' v'] m IH]; simpl; intros Hn Hin;
    [contradiction|].
  inversion Hn as [|? ? Hk Hd]; subst.
  destruct Hin as [E|Hin].
  - injection E as -> ->. now rewrite jsstring_eqb_refl.
  - destruct (jsstring_eqb k k') eqn:E.
    + apply jsstring_eqb_eq in E. subst k'. exfalso. apply Hk.
      change k with (fst (k, v)). now apply in_map.
    + auto.
Qed.

Lemma get_map_values (T U : Type) (g : T -> U) (k : jsstring)
    (m : Collection T) :
  get k (map (fun item => (fst item, g (snd item))) m)
  = option_map g (get k m).
Proof.
  induction m as [|[k' v] m IH]; simpl; [reflexivity|].
  destruct (jsstring_eqb k k'); auto.
Qed.

Lemma get_rev (T : Type) (k : jsstring) (m : Collection T) :
  NoDup (keys m) -> get k (rev m) = get k m.
Proof.
  intros Hn.
  assert (Hr : NoDup (keys (rev m))).
  { unfold keys. rewrite map_rev. apply NoDup_rev. exact Hn. }
  destruct (get k m) as [v|] eqn:E.
  - apply get_of_in; [assumption|]. apply in_rev. rewrite rev_involutive.
    now apply get_in.
  - apply get_none_not_in. apply get_none_not_in in E.
    unfold keys in *. rewrite map_rev. intros Hin. apply E.
    now apply in_rev.
Qed.

End CacheFacts.

(** C10: after [refresh] the interaction cache holds each id once; what it
    holds under an id is the registration the depth-first walk met last,
    with the path of the pack it came from; so with the same id registered
    in two sibling sub-packs the second one's registration is the one
    cached; and when dispatch finds a cached slash command to call, it is
    such a surviving registration, and its handler is the one call made. *)
Theorem cache_keeps_last_registration :
  forall (W : Type)
         (defaultify : LocaleStore.ContentTree -> LocaleStore.ContentTree
                       -> LocaleStore.ContentTree)
         (t : Root.Tessen W) (r : Run W),
    let t' := fst (Root.refresh defaultify t r) in
    let cached := Root.cache_interactions (Root.cache t') in
    let met := Root.registrations (Root.root t) [] in
    NoDup (keys cached) /\
    (forall id, get id cached = Root.last_under id met) /\
    (forall rid locs ints evs insps em k1 c1 k2 c2 id x,
        Root.root t
        = PackTree.mkPack rid locs [(k1, c1); (k2, c2)] ints evs insps em ->
        NoDup (keys (PackTree.data_interactions c2)) ->
        PackTree.data_subPacks c2 = [] ->
        get id (PackTree.data_interactions c2) = Some x ->
        get id cached = Some {| Root.path := [rid]; Root.data := x |}) /\
    (forall (interaction : Root.ChatInputCommand) (r2 : Run W) key entry,
        find (fun e => Root.is_slash_match
                         (Root.fullCommandName interaction)
                         (Root.data (snd e))) cached
        = Some (key, entry) ->
        Root.last_under key met = Some entry /\
        Emitter.calls_between r2
          (snd (Root.handleChatInputCommand t' interaction r2))
        = [fn_ref (PackTree.i_handle (Root.data entry))]).
Proof.
  intros W defaultify t r t' cached met.
  assert (Hc : cached
               = fold_left (@store (Root.CacheData (PackTree.Interaction W)))
                   met []).
  { unfold cached, t', Root.refresh, bind, ret.
    destruct (PackTree.emitEvent (js "tessen:cacheRefreshed") [] (Root.root t) r)
      as [[res1 root1] r1].
    match goal with |- context [PackTree.emitEvent ?ev ?args root1 r1] =>
      destruct (PackTree.emitEvent ev args root1 r1) as [[res2 root2] r2]
    end.
    cbn [fst Root.cache]. apply cache_interactions_pushCache. }
  assert (Hn : NoDup (keys cached)).
  { rewrite Hc. apply NoDup_keys_stored. constructor. }
  assert (Hg : forall id, get id cached = Root.last_under id met).
  { intros id. rewrite Hc, get_stored.
    destruct (Root.last_under id met); reflexivity. }
  split; [exact Hn|]. split; [exact Hg|]. split.
  - intros rid locs ints evs insps em k1 c1 k2 c2 id x Hroot Hk Hleaf Hx.
    rewrite Hg. unfold met, Root.last_under. rewrite Hroot.
    cbn [Root.registrations PackTree.data_interactions
         PackTree.data_subPacks PackTree.pack_id flat_map snd app].
    rewrite app_nil_r, !rev_app_distr, !get_app.
    destruct c2 as [id2 locs2 subs2 ints2 evs2 insps2 em2].
    cbn [PackTree.data_subPacks PackTree.data_interactions] in *.
    subst subs2.
    cbn [Root.registrations PackTree.data_interactions
         PackTree.data_subPacks flat_map].
    rewrite app_nil_r.
    assert (E : get id
                  (rev (map (fun item =>
                               (fst item,
                                {| Root.path := [rid];
                                   Root.data := snd item |})) ints2))
                = Some {| Root.path := [rid]; Root.data := x |}).
    { rewrite get_rev.
      - rewrite get_map_values, Hx. reflexivity.
      - unfold keys in *. rewrite map_map. cbn [fst]. exact Hk. }
    rewrite E. reflexivity.
  - intros interaction r2 key entry Hfind.
    assert (Hin : In (key, entry) cached).
    { apply find_some in Hfind. tauto. }
    split.
    + rewrite <- Hg. exact (@get_of_in _ key entry cached Hn Hin).
    + unfold Root.handleChatInputCommand. fold cached. rewrite Hfind.
      unfold bind, ret, call.
      destruct (fn_run (PackTree.i_handle (Root.data entry))
                  [Root.fullCommandName interaction] (world r2)) as [o w'].
      cbn [snd]. apply calls_between_app. reflexivity.
Qed.

Lemma cache_keeps_last_registration_witness :
  get (js "ping")
    (Root.cache_interactions (Root.cache RootExample.refreshed))
  = Some {| Root.path := [js "root"];
            Root.data := RootExample.command "pong" 31 |}.
Proof.
  refine (proj1 (proj2 (proj2
            (@cache_keeps_last_registration unit Stuffs.defaultify
               RootExample.tessen RootExample.start)))
            (js "root") _ _ _ _ _ (js "left") RootExample.left_pack
            (js "right") RootExample.right_pack (js "ping") _
            eq_refl _ eq_refl eq_refl).
  vm_compute. repeat constructor. simpl. tauto.
Defined.

(* ------------------------------------------------------------------ *)
(** ** Default-language fallback *)

Section FallbackFacts.

Import LocaleStore Root.

Lemma get_filter_absent (T : Type) (k : jsstring) (obj m : Collection T) :
  get k obj = None ->
  get k (filter (fun kv => negb (has (fst kv) obj)) m) = get k m.
Proof.
  intros Hk. induction m as [|[k' v] m IH]; simpl; [reflexivity|].
  destruct (jsstring_eqb k k') eqn:E.
  - apply jsstring_eqb_eq in E. subst k'. unfold has. rewrite Hk. simpl.
    now rewrite jsstring_eqb_refl.
  - destruct (negb (has k' obj)); simpl; [rewrite E|]; exact IH.
Qed.

Lemma get_defaultify (k : jsstring) (obj def : ContentTree) :
  get k (Stuffs.defaultify obj def)
  = match get k obj with
    | Some v => Some (Stuffs.fill v (get k def))
    | None => get k def
    end.
Proof.
  unfold Stuffs.defaultify. rewrite get_app.
  assert (E : get k (map (fun kv => (fst kv,
                                     Stuffs.fill (snd kv) (get (fst kv) def)))
                         obj)
              = option_map (fun v => Stuffs.fill v (get k def)) (get k obj)).
  { induction obj as [|[k' v] obj IH]; simpl; [reflexivity|].
    destruct (jsstring_eqb k k') eqn:Ek; [|exact IH].
    apply jsstring_eqb_eq in Ek. subst k'. reflexivity. }
  rewrite E. destruct (get k obj) as [v|] eqn:Ek; simpl; [reflexivity|].
  now apply get_filter_absent.
Qed.

(** The modelled [defaultify] fills what its first argument lacks. *)
Lemma defaultify_fills (path : list jsstring) :
  forall (obj def : ContentTree) (s : jsstring),
    resolve def path = Some s -> missing obj path = true ->
    resolve (Stuffs.defaultify obj def) path = Some s.
Proof.
  induction path as [|k rest IH]; intros obj def s Hd Hm; [discriminate|].
  cbn [resolve missing] in *. rewrite get_defaultify.
  destruct (get k obj) as [[t|own]|] eqn:Eo; [discriminate| |].
  - destruct (get k def) as [[t|d]|] eqn:Ed.
    + destruct rest; [discriminate Hm|discriminate Hd].
    + cbn [Stuffs.fill].
      change (map _ own ++ filter _ d) with (Stuffs.defaultify own d).
      now apply IH.
    + discriminate.
  - exact Hd.
Qed.

Variable W : Type.
Variable defaultify : ContentTree -> ContentTree -> ContentTree.

Lemma get_backfill (lang dflt : jsstring) (m : Collection ContentTree) :
  get lang (backfill defaultify dflt m)
  = match get lang m with
    | Some tree =>
        Some (if jsstring_eqb lang dflt then tree
              else defaultify tree
                     match get dflt m with Some c => c | None => [] end)
    | None => None
    end.
Proof.
  unfold backfill. generalize (match get dflt m with
                               | Some c => c | None => [] end) as dtree.
  intros dtree. induction m as [|[k v] m IH]; simpl; [reflexivity|].
  destruct (jsstring_eqb k dflt) eqn:Ed; simpl;
    destruct (jsstring_eqb lang k) eqn:Ek; try exact IH.
  - apply jsstring_eqb_eq in Ek. subst k. now rewrite Ed.
  - apply jsstring_eqb_eq in Ek. subst k. now rewrite Ed.
Qed.

Lemma locales_content_refresh (t : Tessen W) (r : Run W) :
  locales_content (fst (refresh defaultify t r))
  = backfill defaultify (defaultLanguage t)
      (collectContent defaultify
         (cache_locales (pushCache (root t) [] (cleared W)))).
Proof.
  unfold refresh, bind, ret.
  destruct (PackTree.emitEvent (js "tessen:cacheRefreshed") [] (root t) r)
    as [[res1 root1] r1].
  match goal with |- context [PackTree.emitEvent ?ev ?args root1 r1] =>
    destruct (PackTree.emitEvent ev args root1 r1) as [[res2 root2] r2]
  end.
  reflexivity.
Qed.

End FallbackFacts.

(** C7: let [defaultify] fill, at every key path its first argument lacks
    (some object on the way has no such key), the string its second
    argument holds there.  Then after [refresh], with the configured
    default language (["en"] when it is configured as ["en"] or not at
    all), the default language's tree is the merged one, and every other
    language present in the content map has a tree that holds, at every
    key path its own merged tree lacks, the string of the default
    language's tree.  With the modelled [defaultify], a ["tr"] tree
    [{a: {c: "selam"}}] next to an ["en"] tree [{a: {b: "hello"}}]
    resolves a.b to "hello" and keeps a.c. *)
Theorem refresh_backfills_from_default_language :
  (forall (W : Type)
          (defaultify : LocaleStore.ContentTree -> LocaleStore.ContentTree
                        -> LocaleStore.ContentTree),
      (forall obj def path s,
          LocaleStore.resolve def path = Some s ->
          LocaleStore.missing obj path = true ->
          LocaleStore.resolve (defaultify obj def) path = Some s) ->
      forall (t : Root.Tessen W) (r : Run W),
        let t' := fst (Root.refresh defaultify t r) in
        let merged :=
          Root.collectContent defaultify
            (Root.cache_locales
               (Root.pushCache (Root.root t) [] (Root.cleared W))) in
        let dflt := Root.defaultLanguage t in
        let defaultTree :=
          match get dflt merged with Some c => c | None => [] end in
        (Root.defaults_language t = Some (js "en") \/
         Root.defaults_language t = None -> dflt = js "en") /\
        get dflt (Root.locales_content t') = get dflt merged /\
        (forall lang tree,
            lang <> dflt -> get lang merged = Some tree ->
            exists tree',
              get lang (Root.locales_content t') = Some tree' /\
              forall path s,
                LocaleStore.resolve defaultTree path = Some s ->
                LocaleStore.missing tree path = true ->
                LocaleStore.resolve tree' path = Some s)) /\
  (exists tree',
      get (js "tr") (Root.locales_content RootExample.refreshed)
        = Some tree' /\
      LocaleStore.resolve tree' [js "a"; js "b"] = Some (js "hello") /\
      LocaleStore.resolve tree' [js "a"; js "c"] = Some (js "selam")).
Proof.
  split.
  - intros W defaultify Hfill t r t' merged dflt defaultTree.
    split; [|split].
    + unfold dflt, Root.defaultLanguage. intros [-> | ->]; reflexivity.
    + unfold t'. rewrite locales_content_refresh, get_backfill.
      fold merged dflt. rewrite jsstring_eqb_refl.
      destruct (get dflt merged); reflexivity.
    + intros lang tree Hl Hg.
      exists (defaultify tree defaultTree). split.
      * unfold t'. rewrite locales_content_refresh, get_backfill.
        fold merged dflt. rewrite Hg.
        apply jsstring_eqb_neq in Hl. rewrite Hl. reflexivity.
      * intros path s Hd Hm. now apply Hfill.
  - eexists. split; [reflexivity|]. split; reflexivity.
Qed.

Lemma refresh_backfills_from_default_language_witness :
  (forall obj def path s,
      LocaleStore.resolve def path = Some s ->
      LocaleStore.missing obj path = true ->
      LocaleStore.resolve (Stuffs.defaultify obj def) path = Some s) /\
  get (js "en") (Root.locales_content RootExample.refreshed)
  = Some [(js "a", LocaleStore.Node [(js "b", LocaleStore.Leaf (js "hello"))])].
Proof.
  assert (H : forall obj def path s,
             LocaleStore.resolve def path = Some s ->
             LocaleStore.missing obj path = true ->
             LocaleStore.resolve (Stuffs.defaultify obj def) path = Some s).
  { intros obj def path. revert obj def. exact (defaultify_fills path). }
  split; [exact H|].
  exact (proj1 (proj2 (proj1 refresh_backfills_from_default_language
                         unit Stuffs.defaultify H
                         RootExample.tessen RootExample.start))).
Defined.

(* ------------------------------------------------------------------ *)
(** ** The emitter's listener bookkeeping *)

Section EmitterApiFacts.

Import Emitter.

Variable W : Type.

Local Abbreviation Entry := (EventListenerEntry W).

Lemma get_delete_other (V : Type) (k k' : jsstring) (m : Collection V) :
  k <> k' -> get k (delete k' m) = get k m.
Proof.
  intros Hk. induction m as [|[k0 v0] m IH]; simpl; [reflexivity|].
  destruct (jsstring_eqb k' k0) eqn:E.
  - apply jsstring_eqb_eq in E. subst k0.
    destruct (jsstring_eqb k k') eqn:E2; [|reflexivity].
    apply jsstring_eqb_eq in E2. contradiction.
  - simpl. now rewrite IH.
Qed.

Lemma NoDup_keys_set (V : Type) (k : jsstring) (v : V) (m : Collection V) :
  NoDup (keys m) -> NoDup (keys (set k v m)).
Proof.
  intros H. destruct (in_keys_dec k m) as [Hin|Hout].
  - now rewrite keys_set_present.
  - rewrite keys_set_absent by assumption.
    apply (Permutation_NoDup (Permutation_cons_append (keys m) k)).
    now constructor.
Qed.

Lemma in_keys_delete (V : Type) (x k : jsstring) (m : Collection V) :
  In x (keys (delete k m)) -> In x (keys m).
Proof.
  unfold keys. induction m as [|[k0 v0] m IH]; simpl; [tauto|].
  destruct (jsstring_eqb k k0); simpl; tauto.
Qed.

Lemma NoDup_keys_delete (V : Type) (k : jsstring) (m : Collection V) :
  NoDup (keys m) -> NoDup (keys (delete k m)).
Proof.
  induction m as [|[k0 v0] m IH]; simpl; intros H; [constructor|].
  inversion H as [|? ? Hx Hd]; subst.
  destruct (jsstring_eqb k k0); [exact Hd|].
  simpl. constructor; [|now apply IH].
  intros Hin. apply Hx. now apply (@in_keys_delete V k0 k m).
Qed.

(** The listeners of every event after the set of one event is replaced
    the way [off] and [removeOnceListeners] do it. *)
Lemma entries_replaced (ev event : jsstring) (ls' : list Entry)
    (em : ResultEventEmitter W) (lr : list value) :
  NoDup (keys (eventListeners em)) ->
  getListenerEntries ev
    {| eventListeners :=
         if Nat.eqb (length ls') 0
         then delete event (eventListeners em)
         else set event ls' (eventListeners em);
       lastResults := lr |}
  = if jsstring_eqb ev event then ls' else getListenerEntries ev em.
Proof.
  intros Hk. unfold getListenerEntries. cbn [eventListeners].
  destruct (jsstring_eqb ev event) eqn:E.
  - apply jsstring_eqb_eq in E. subst event.
    destruct (Nat.eqb (length ls') 0) eqn:L.
    + rewrite get_delete_same by assumption. apply Nat.eqb_eq in L.
      destruct ls'; [reflexivity|discriminate].
    + now rewrite get_set_same.
  - apply jsstring_eqb_neq in E.
    destruct (Nat.eqb (length ls') 0).
    + now rewrite get_delete_other.
    + now rewrite get_set_other.
Qed.

Lemma keys_replaced (event : jsstring) (ls' : list Entry) (b : bool)
    (m : Collection (list Entry)) :
  NoDup (keys m) ->
  NoDup (keys (if b then delete event m else set event ls' m)).
Proof.
  intros H. destruct b; [now apply NoDup_keys_delete|now apply NoDup_keys_set].
Qed.

Lemma entries_set (ev event : jsstring) (ls' : list Entry)
    (em : ResultEventEmitter W) (lr : list value) :
  getListenerEntries ev
    {| eventListeners := set event ls' (eventListeners em);
       lastResults := lr |}
  = if jsstring_eqb ev event then ls' else getListenerEntries ev em.
Proof.
  unfold getListenerEntries. cbn [eventListeners].
  destruct (jsstring_eqb ev event) eqn:E.
  - apply jsstring_eqb_eq in E. subst event. now rewrite get_set_same.
  - apply jsstring_eqb_neq in E. now rewrite get_set_other.
Qed.

Lemma removeOnceListeners_entries (ev event : jsstring)
    (toRemove : list Entry) (em : ResultEventEmitter W) :
  NoDup (keys (eventListeners em)) ->
  getListenerEntries ev (removeOnceListeners event toRemove em)
  = if jsstring_eqb ev event
    then filter (kept toRemove) (getListenerEntries event em)
    else getListenerEntries ev em.
Proof.
  intros Hk. destruct (jsstring_eqb ev event) eqn:E.
  - apply jsstring_eqb_eq in E. subst event.
    now apply entries_after_removal.
  - unfold removeOnceListeners. destruct toRemove as [|e rem]; [reflexivity|].
    destruct (get event (eventListeners em)) as [ls|]; [|reflexivity].
    rewrite entries_replaced by assumption. now rewrite E.
Qed.

Lemma removeOnceListeners_keys (event : jsstring) (toRemove : list Entry)
    (em : ResultEventEmitter W) :
  NoDup (keys (eventListeners em)) ->
  NoDup (keys (eventListeners (removeOnceListeners event toRemove em))).
Proof.
  intros Hk. unfold removeOnceListeners.
  destruct toRemove as [|e rem]; [assumption|].
  destruct (get event (eventListeners em)) as [ls|]; [|assumption].
  cbn [eventListeners]. now apply keys_replaced.
Qed.

(** Calls leave the allocation counter alone. *)
Lemma emit_loop_nextRef (es : list Entry) (args : jsargs) :
  forall r : Run W, nextRef (snd (emit_loop es args r)) = nextRef r.
Proof.
  induction es as [|e es IH]; intros r; [reflexivity|].
  simpl. unfold bind, call.
  destruct (fn_run (entry_listener e) args (world r)) as [o w'].
  match goal with |- context [emit_loop es args ?r1] =>
    specialize (IH r1); destruct (emit_loop es args r1) as [[res rem] r2]
  end.
  exact IH.
Qed.

Lemma emitAsync_loop_nextRef (es : list Entry) (args : jsargs) :
  forall r : Run W, nextRef (snd (emitAsync_loop es args r)) = nextRef r.
Proof.
  induction es as [|e es IH]; intros r; [reflexivity|].
  simpl. unfold bind, call.
  destruct (fn_run (entry_listener e) args (world r)) as [o w'].
  match goal with |- context [emitAsync_loop es args ?r1] =>
    specialize (IH r1); destruct (emitAsync_loop es args r1) as [[res rem] r2]
  end.
  exact IH.
Qed.

Lemma emitUntilResult_loop_nextRef (es : list Entry) (args : jsargs) :
  forall r : Run W, nextRef (snd (emitUntilResult_loop es args r)) = nextRef r.
Proof.
  induction es as [|e es IH]; intros r; [reflexivity|].
  simpl. unfold bind, call.
  destruct (fn_run (entry_listener e) args (world r)) as [o w'].
  set (r1 := {| world := w'; nextRef := nextRef r;
                trace := trace r ++ [entry_ref e] |}).
  specialize (IH r1).
  destruct o as [[[|d]|s]|err]; try reflexivity;
    destruct (emitUntilResult_loop es args r1) as [[res rem] r2]; exact IH.
Qed.

Lemma emitUntilResultAsync_loop_nextRef (es : list Entry) (args : jsargs) :
  forall r : Run W,
    nextRef (snd (emitUntilResultAsync_loop es args r)) = nextRef r.
Proof.
  induction es as [|e es IH]; intros r; [reflexivity|].
  simpl. unfold bind, call.
  destruct (fn_run (entry_listener e) args (world r)) as [o w'].
  set (r1 := {| world := w'; nextRef := nextRef r;
                trace := trace r ++ [entry_ref e] |}).
  specialize (IH r1).
  destruct (awaited o) as [[|d]|err]; try reflexivity;
    destruct (emitUntilResultAsync_loop es args r1) as [[res rem] r2];
    exact IH.
Qed.

Lemma emission_nextRef (m : mode W) (ev : jsstring) (args : jsargs)
    (em : ResultEventEmitter W) (r : Run W) :
  nextRef (snd (emission m ev args em r)) = nextRef r.
Proof.
  destruct m as [| |completion| |]; simpl;
    unfold emit, emitAsync, emitParallel, emitUntilResult,
           emitUntilResultAsync, bind, ret.
  - generalize (emit_loop_nextRef (getListenerEntries ev em) args r).
    destruct (emit_loop (getListenerEntries ev em) args r) as [[res rem] r'].
    auto.
  - generalize (emitAsync_loop_nextRef (getListenerEntries ev em) args r).
    destruct (emitAsync_loop (getListenerEntries ev em) args r)
      as [[res rem] r'].
    auto.
  - generalize (emitAsync_loop_nextRef (getListenerEntries ev em) args r).
    destruct (emitAsync_loop (getListenerEntries ev em) args r)
      as [[res rem] r'].
    auto.
  - generalize (emitUntilResult_loop_nextRef (getListenerEntries ev em) args r).
    destruct (emitUntilResult_loop (getListenerEntries ev em) args r)
      as [[res rem] r'].
    auto.
  - generalize
      (emitUntilResultAsync_loop_nextRef (getListenerEntries ev em) args r).
    destruct (emitUntilResultAsync_loop (getListenerEntries ev em) args r)
      as [[res rem] r'].
    auto.
Qed.

(** In every mode the listeners left are those of the one removal. *)
Lemma emission_listeners (m : mode W) (ev : jsstring) (args : jsargs)
    (em : ResultEventEmitter W) (r : Run W) :
  eventListeners (fst (emission m ev args em r))
  = eventListeners
      (removeOnceListeners ev (fst (removals m ev args em r)) em).
Proof.
  destruct m as [| |completion| |]; simpl;
    unfold emit, emitAsync, emitParallel, emitUntilResult,
           emitUntilResultAsync, bind, ret.
  - destruct (emit_loop (getListenerEntries ev em) args r) as [[res rem] r'].
    reflexivity.
  - destruct (emitAsync_loop (getListenerEntries ev em) args r)
      as [[res rem] r'].
    reflexivity.
  - destruct (emitAsync_loop (getListenerEntries ev em) args r)
      as [[res rem] r'].
    reflexivity.
  - destruct (emitUntilResult_loop (getListenerEntries ev em) args r)
      as [[res rem] r'].
    reflexivity.
  - destruct (emitUntilResultAsync_loop (getListenerEntries ev em) args r)
      as [[res rem] r'].
    reflexivity.
Qed.

End EmitterApiFacts.

Section EmitterInvariant.

Import Emitter.

Variable W : Type.

Local Abbreviation Entry := (EventListenerEntry W).

Lemma NoDup_refs_snoc (es : list Entry) (e : Entry) (bound : nat) :
  NoDup (map (@entry_ref W) es) ->
  (forall x, In x es -> entry_ref x < bound) ->
  bound <= entry_ref e ->
  NoDup (map (@entry_ref W) (es ++ [e])) /\
  NoDup (map (@entry_ref W) (e :: es)).
Proof.
  intros Hn Hb He.
  assert (Hout : ~ In (entry_ref e) (map (@entry_ref W) es)).
  { intros Hin. apply in_map_iff in Hin. destruct Hin as [x [Ex Hx]].
    apply Hb in Hx. lia. }
  split.
  - rewrite map_app. cbn [map].
    apply (Permutation_NoDup (Permutation_cons_append _ (entry_ref e))).
    now constructor.
  - cbn [map]. now constructor.
Qed.

(** Adding an entry made of a new object, at either end of the set. *)
Lemma added_entry_invariant (event : jsstring) (l : Fn W) (once front : bool)
    (em : ResultEventEmitter W) (r : Run W) :
  (forall ev, distinct_entries ev em) -> allocated em r ->
  let e := {| entry_ref := nextRef r; entry_listener := l;
              entry_once := once |} in
  let em' :=
    {| eventListeners :=
         set event
           (if front then e :: getListenerEntries event em
            else getListenerEntries event em ++ [e])
           (eventListeners em);
       lastResults := lastResults em |} in
  let r' := {| world := world r; nextRef := S (nextRef r);
               trace := trace r |} in
  (forall ev, distinct_entries ev em') /\ allocated em' r'.
Proof.
  intros Hd Ha e em' r'.
  destruct (@NoDup_refs_snoc (getListenerEntries event em) e (nextRef r))
    as [Hback Hfront].
  { apply (Hd event). } { intros x. apply Ha. } { simpl. lia. }
  split.
  - intros ev. split.
    + unfold em'. cbn [eventListeners]. apply NoDup_keys_set. apply (Hd ev).
    + unfold em'. rewrite entries_set.
      destruct (jsstring_eqb ev event); [|apply (Hd ev)].
      destruct front; assumption.
  - intros ev x. unfold em'. rewrite entries_set. unfold r'. cbn [nextRef].
    destruct (jsstring_eqb ev event).
    + destruct front; [intros [<-|Hx]|intros Hx; apply in_app_or in Hx;
                                       destruct Hx as [Hx|[<-|[]]]];
        try (simpl; lia); apply Ha in Hx; lia.
    + intros Hx. apply Ha in Hx. lia.
Qed.

Lemma off_entries (ev event : jsstring) (l : Fn W)
    (em : ResultEventEmitter W) :
  NoDup (keys (eventListeners em)) ->
  getListenerEntries ev (off event l em)
  = if jsstring_eqb ev event
    then match find (fun entry =>
                       Nat.eqb (fn_ref (entry_listener entry)) (fn_ref l))
                    (getListenerEntries event em) with
         | Some entry => delete_entry entry (getListenerEntries event em)
         | None => getListenerEntries event em
         end
    else getListenerEntries ev em.
Proof.
  intros Hk. unfold off.
  destruct (get event (eventListeners em)) as [ls|] eqn:E.
  - rewrite entries_replaced by assumption.
    assert (Hls : getListenerEntries event em = ls).
    { unfold getListenerEntries. now rewrite E. }
    rewrite Hls. reflexivity.
  - destruct (jsstring_eqb ev event) eqn:Ee; [|reflexivity].
    apply jsstring_eqb_eq in Ee. subst event.
    unfold getListenerEntries. rewrite E. reflexivity.
Qed.

Lemma off_keys (event : jsstring) (l : Fn W) (em : ResultEventEmitter W) :
  NoDup (keys (eventListeners em)) ->
  NoDup (keys (eventListeners (off event l em))).
Proof.
  intros Hk. unfold off.
  destruct (get event (eventListeners em)) as [ls|]; [|assumption].
  cbn [eventListeners]. now apply keys_replaced.
Qed.

(** One call of a method keeps the entries distinct and allocated. *)
Lemma operate_invariant (op : operation W) (em : ResultEventEmitter W)
    (r : Run W) :
  (forall ev, distinct_entries ev em) -> allocated em r ->
  (forall ev, distinct_entries ev (fst (operate op em r))) /\
  allocated (fst (operate op em r)) (snd (operate op em r)).
Proof.
  intros Hd Ha.
  assert (Hk : NoDup (keys (eventListeners em))) by apply (Hd []).
  destruct op as [event l|event l|event l|event l|event l|event|m event args].
  - exact (@added_entry_invariant event l false false em r Hd Ha).
  - exact (@added_entry_invariant event l true false em r Hd Ha).
  - exact (@added_entry_invariant event l false true em r Hd Ha).
  - exact (@added_entry_invariant event l true true em r Hd Ha).
  - cbn [operate ret fst snd].
    assert (Hsub : forall ev x,
               In x (getListenerEntries ev (off event l em)) ->
               In x (getListenerEntries ev em)).
    { intros ev x. rewrite off_entries by assumption.
      destruct (jsstring_eqb ev event) eqn:E; [|tauto].
      apply jsstring_eqb_eq in E. subst event.
      destruct (find _ (getListenerEntries ev em)); [|tauto].
      unfold delete_entry. intros Hx. apply filter_In in Hx. tauto. }
    split.
    + intros ev. split; [now apply off_keys|].
      rewrite off_entries by assumption.
      destruct (jsstring_eqb ev event) eqn:E; [|apply (Hd ev)].
      destruct (find _ (getListenerEntries event em)); [|apply (Hd event)].
      unfold delete_entry. apply NoDup_map_filter. apply (Hd event).
    + intros ev x Hx. apply (Ha ev). now apply Hsub.
  - cbn [operate ret fst snd].
    assert (Hsub : forall ev x,
               In x (getListenerEntries ev (removeAllListeners event em)) ->
               In x (getListenerEntries ev em)).
    { intros ev x. unfold removeAllListeners, getListenerEntries.
      cbn [eventListeners]. destruct event as [ev0|]; [|intros []].
      destruct (jsstring_eqb ev ev0) eqn:E.
      - apply jsstring_eqb_eq in E. subst ev0.
        rewrite get_delete_same by assumption. intros [].
      - apply jsstring_eqb_neq in E. rewrite get_delete_other by assumption.
        tauto. }
    split.
    + intros ev. split.
      * unfold removeAllListeners. cbn [eventListeners].
        destruct event; [now apply NoDup_keys_delete|constructor].
      * unfold removeAllListeners, getListenerEntries.
        cbn [eventListeners]. destruct event as [ev0|]; [|constructor].
        destruct (jsstring_eqb ev ev0) eqn:E.
        -- apply jsstring_eqb_eq in E. subst ev0.
           rewrite get_delete_same by assumption. constructor.
        -- apply jsstring_eqb_neq in E.
           rewrite get_delete_other by assumption. apply (Hd ev).
    + intros ev x Hx. apply (Ha ev). now apply Hsub.
  - cbn [operate].
    assert (He : forall ev,
               getListenerEntries ev (fst (emission m event args em r))
               = if jsstring_eqb ev event
                 then filter (kept (fst (removals m event args em r)))
                        (getListenerEntries event em)
                 else getListenerEntries ev em).
    { intros ev.
      rewrite (@entries_by_listeners W ev _ _
                 (emission_listeners m event args em r)).
      now apply removeOnceListeners_entries. }
    split.
    + intros ev. split.
      * rewrite emission_listeners. now apply removeOnceListeners_keys.
      * rewrite He. destruct (jsstring_eqb ev event); [|apply (Hd ev)].
        apply NoDup_map_filter. apply (Hd event).
    + intros ev x. rewrite He, emission_nextRef.
      destruct (jsstring_eqb ev event); [|apply Ha].
      intros Hx. apply filter_In in Hx. apply (Ha event). tauto.
Qed.

Lemma operate_all_invariant (ops : list (operation W)) :
  forall (em : ResultEventEmitter W) (r : Run W),
    (forall ev, distinct_entries ev em) -> allocated em r ->
    (forall ev, distinct_entries ev (fst (operate_all ops em r))) /\
    allocated (fst (operate_all ops em r)) (snd (operate_all ops em r)).
Proof.
  induction ops as [|op ops IH]; intros em r Hd Ha; [now split|].
  cbn [operate_all]. unfold bind.
  destruct (operate_invariant op Hd Ha) as [Hd' Ha'].
  destruct (operate op em r) as [em' r']. now apply IH.
Qed.

Lemma empty_invariant (r : Run W) :
  (forall ev, distinct_entries ev (empty W)) /\ allocated (empty W) r.
Proof.
  split.
  - intros ev. split; constructor.
  - intros ev x [].
Qed.

End EmitterInvariant.

(** X1: whatever sequence of [on], [once], [prependListener],
    [prependOnceListener], [off], [removeAllListeners] and emissions (in
    any of the five modes) is run on a new emitter, the map holds every
    event once and the entries of every event are distinct objects, all
    allocated before the run state reached. *)
Theorem emitter_entries_always_distinct :
  forall (W : Type) (ops : list (Emitter.operation W)) (r : Run W)
         (event : jsstring),
    let em := fst (Emitter.operate_all ops (Emitter.empty W) r) in
    Emitter.distinct_entries event em /\
    Emitter.allocated em (snd (Emitter.operate_all ops (Emitter.empty W) r)).
Proof.
  intros W ops r event em.
  destruct (empty_invariant r) as [Hd Ha].
  destruct (operate_all_invariant ops Hd Ha) as [Hd' Ha'].
  split; [apply Hd'|exact Ha'].
Qed.

Section EmitterMethodFacts.

Import Emitter.

Variable W : Type.

Local Abbreviation Entry := (EventListenerEntry W).

Lemma listeners_of_entries (ev : jsstring) (em : ResultEventEmitter W) :
  listeners ev em = map (@entry_listener W) (getListenerEntries ev em).
Proof.
  unfold listeners, getListenerEntries.
  destruct (get ev (eventListeners em)); reflexivity.
Qed.

Lemma listenerCount_of_entries (ev : jsstring) (em : ResultEventEmitter W) :
  listenerCount ev em = length (getListenerEntries ev em).
Proof.
  unfold listenerCount, getListenerEntries.
  destruct (get ev (eventListeners em)); reflexivity.
Qed.

Lemma find_first (A : Type) (p : A -> bool) (l1 : list A) (e : A)
    (l2 : list A) :
  (forall x, In x l1 -> p x = false) -> p e = true ->
  find p (l1 ++ e :: l2) = Some e.
Proof.
  intros H1 He. induction l1 as [|x l1 IH]; simpl.
  - now rewrite He.
  - rewrite (H1 x) by now left. apply IH. intros y Hy. apply H1. now right.
Qed.

(** Deleting one object from a set of distinct objects. *)
Lemma delete_entry_middle (l1 : list Entry) (e : Entry) (l2 : list Entry) :
  NoDup (map (@entry_ref W) (l1 ++ e :: l2)) ->
  delete_entry e (l1 ++ e :: l2) = l1 ++ l2.
Proof.
  intros Hn. unfold delete_entry.
  assert (Hkeep : forall x, In x (l1 ++ l2) ->
             negb (Nat.eqb (entry_ref x) (entry_ref e)) = true).
  { intros x Hx. apply negb_true_iff, Nat.eqb_neq. intros E.
    rewrite map_app in Hn. cbn [map] in Hn.
    apply NoDup_remove_2 in Hn. apply Hn. rewrite <- E, <- map_app.
    now apply in_map. }
  rewrite filter_app. cbn [filter]. rewrite Nat.eqb_refl. cbn [negb].
  rewrite <- filter_app.
  revert Hkeep. generalize (l1 ++ l2). intros l Hkeep.
  induction l as [|x l IH]; simpl; [reflexivity|].
  rewrite (Hkeep x) by now left. f_equal. apply IH.
  intros y Hy. apply Hkeep. now right.
Qed.

(** The two until-result loops agree unless a listener hands back a
    promise fulfilled with a result. *)
Lemma until_result_loops_agree (args : jsargs) (es : list Entry) :
  forall r : Run W,
    (forall e w, In e es ->
       fulfilled_with_result (fst (fn_run (entry_listener e) args w))
       = false) ->
    emitUntilResultAsync_loop es args r = emitUntilResult_loop es args r.
Proof.
  induction es as [|e es IH]; intros r H; [reflexivity|].
  cbn [emitUntilResultAsync_loop emitUntilResult_loop]. unfold bind, call.
  assert (He := H e (world r) (or_introl eq_refl)).
  destruct (fn_run (entry_listener e) args (world r)) as [o w'].
  cbn [fst] in He.
  assert (Hrest : forall r1,
             emitUntilResultAsync_loop es args r1
             = emitUntilResult_loop es args r1).
  { intros r1. apply IH. intros x w Hx. apply H. now right. }
  destruct o as [[[|d]|[[|d]|reason]]|err]; cbn [awaited];
    try discriminate He; try rewrite Hrest; reflexivity.
Qed.

(** The calls of an emission, in any mode, are a first part of the
    entries of its event. *)
Lemma emission_calls (m : mode W) (ev : jsstring) (args : jsargs)
    (em : ResultEventEmitter W) (r : Run W) :
  exists n,
    calls_between r (snd (emission m ev args em r))
    = map (@entry_ref W) (firstn n (getListenerEntries ev em)).
Proof.
  set (es := getListenerEntries ev em).
  destruct m as [| |completion| |]; simpl;
    unfold emit, emitAsync, emitParallel, emitUntilResult,
           emitUntilResultAsync, bind, ret; fold es.
  - exists (length es). destruct (emit_loop_run es args r) as [H1 _].
    destruct (emit_loop es args r) as [[res rem] r']. cbn [snd] in *.
    rewrite firstn_all. now apply calls_between_app.
  - exists (length es). destruct (emitAsync_loop_run es args r) as [H1 _].
    destruct (emitAsync_loop es args r) as [[res rem] r']. cbn [snd] in *.
    rewrite firstn_all. now apply calls_between_app.
  - exists (length es). destruct (emitAsync_loop_run es args r) as [H1 _].
    destruct (emitAsync_loop es args r) as [[res rem] r']. cbn [snd] in *.
    rewrite firstn_all. now apply calls_between_app.
  - destruct (emitUntilResult_loop_run es args r) as [n [H1 _]].
    exists n. destruct (emitUntilResult_loop es args r) as [[res rem] r'].
    cbn [snd] in *. now apply calls_between_app.
  - destruct (emitUntilResultAsync_loop_run es args r) as [n [H1 _]].
    exists n.
    destruct (emitUntilResultAsync_loop es args r) as [[res rem] r'].
    cbn [snd] in *. now apply calls_between_app.
Qed.

End EmitterMethodFacts.

(** X2: an emission of one event, in any mode, leaves the listeners of
    every other event as they were, one-shot ones included, and calls
    entries of its own event only. *)
Theorem emission_leaves_other_events :
  forall (W : Type) (m : Emitter.mode W) (ev other : jsstring)
         (args : jsargs) (em : Emitter.ResultEventEmitter W) (r : Run W),
    NoDup (keys (Emitter.eventListeners em)) ->
    other <> ev ->
    let em' := fst (Emitter.emission m ev args em r) in
    Emitter.getListenerEntries other em'
      = Emitter.getListenerEntries other em /\
    Emitter.listeners other em' = Emitter.listeners other em /\
    Emitter.listenerCount other em' = Emitter.listenerCount other em /\
    (forall ref,
        In ref (Emitter.calls_between r
                  (snd (Emitter.emission m ev args em r))) ->
        In ref (map (@Emitter.entry_ref W)
                  (Emitter.getListenerEntries ev em))).
Proof.
  intros W m ev other args em r Hk Hne em'.
  assert (He : Emitter.getListenerEntries other em'
               = Emitter.getListenerEntries other em).
  { unfold em'.
    rewrite (@entries_by_listeners W other _ _
               (emission_listeners m ev args em r)).
    rewrite removeOnceListeners_entries by assumption.
    apply jsstring_eqb_neq in Hne. now rewrite Hne. }
  split; [exact He|]. split; [|split].
  - now rewrite !listeners_of_entries, He.
  - now rewrite !listenerCount_of_entries, He.
  - intros ref. destruct (emission_calls m ev args em r) as [n ->].
    intros Hin. apply in_map_iff in Hin. destruct Hin as [x [Ex Hx]].
    rewrite <- Ex. apply in_map. now apply (firstn_incl n).
Qed.

(** X3: [off(event, l)] on an emitter with distinct entries takes out
    the first entry of [event] whose listener is [l] and nothing else: a
    second registration of the same function stays, the others keep
    their order, the count drops by one, an event left without listeners
    leaves [eventNames]; without such an entry, and for every other
    event, the listeners are unchanged. *)
Theorem off_removes_first_registration :
  forall (W : Type) (ev : jsstring) (l : Fn W)
         (em : Emitter.ResultEventEmitter W),
    Emitter.distinct_entries ev em ->
    (forall l1 e l2,
        Emitter.getListenerEntries ev em = l1 ++ e :: l2 ->
        fn_ref (Emitter.entry_listener e) = fn_ref l ->
        (forall x, In x l1 ->
                   fn_ref (Emitter.entry_listener x) <> fn_ref l) ->
        Emitter.getListenerEntries ev (Emitter.off ev l em) = l1 ++ l2 /\
        S (Emitter.listenerCount ev (Emitter.off ev l em))
          = Emitter.listenerCount ev em /\
        (l1 ++ l2 = [] ->
         ~ In ev (Emitter.eventNames (Emitter.off ev l em)))) /\
    ((forall x, In x (Emitter.getListenerEntries ev em) ->
                fn_ref (Emitter.entry_listener x) <> fn_ref l) ->
     Emitter.getListenerEntries ev (Emitter.off ev l em)
       = Emitter.getListenerEntries ev em) /\
    (forall other,
        other <> ev ->
        Emitter.getListenerEntries other (Emitter.off ev l em)
          = Emitter.getListenerEntries other em).
Proof.
  intros W ev l em [Hk Hn]. split; [|split].
  - intros l1 e l2 Hes He Hl1.
    assert (Hoff : Emitter.getListenerEntries ev (Emitter.off ev l em)
                   = l1 ++ l2).
    { rewrite off_entries by assumption. rewrite jsstring_eqb_refl, Hes.
      rewrite find_first.
      - apply delete_entry_middle. now rewrite <- Hes.
      - intros x Hx. apply Nat.eqb_neq. now apply Hl1.
      - now apply Nat.eqb_eq. }
    split; [exact Hoff|]. split.
    + rewrite !listenerCount_of_entries, Hoff, Hes, !length_app.
      simpl. lia.
    + intros Hempty Hin. unfold Emitter.eventNames in Hin.
      assert (Hget : get ev (Emitter.eventListeners (Emitter.off ev l em))
                     = None).
      { unfold Emitter.off.
        assert (Hsome : exists ls, get ev (Emitter.eventListeners em)
                                   = Some ls /\ ls = l1 ++ e :: l2).
        { unfold Emitter.getListenerEntries in Hes.
          destruct (get ev (Emitter.eventListeners em)) as [ls|].
          - now exists ls.
          - destruct l1; discriminate Hes. }
        destruct Hsome as [ls [Hg ->]]. rewrite Hg.
        rewrite find_first.
        - rewrite delete_entry_middle.
          + rewrite Hempty. cbn [length Nat.eqb Emitter.eventListeners].
            now apply get_delete_same.
          + unfold Emitter.getListenerEntries in Hn. now rewrite Hg in Hn.
        - intros x Hx. apply Nat.eqb_neq. now apply Hl1.
        - now apply Nat.eqb_eq. }
      apply get_none_not_in in Hget. contradiction.
  - intros Hnone. rewrite off_entries by assumption.
    rewrite jsstring_eqb_refl, find_all_false; [reflexivity|].
    intros x Hx. apply Nat.eqb_neq. now apply Hnone.
  - intros other Hne. rewrite off_entries by assumption.
    apply jsstring_eqb_neq in Hne. now rewrite Hne.
Qed.

(** X4: [on(event, l)] followed by [off(event, l)] gives back the
    listeners of every event, when [l] was not already listening to
    [event]. *)
Theorem on_then_off_restores_listeners :
  forall (W : Type) (ev : jsstring) (l : Fn W)
         (em : Emitter.ResultEventEmitter W) (r : Run W),
    (forall event, Emitter.distinct_entries event em) ->
    Emitter.allocated em r ->
    (forall x, In x (Emitter.getListenerEntries ev em) ->
               fn_ref (Emitter.entry_listener x) <> fn_ref l) ->
    forall event,
      Emitter.getListenerEntries event
        (Emitter.off ev l (fst (Emitter.on ev l em r)))
      = Emitter.getListenerEntries event em.
Proof.
  intros W ev l em r Hd Ha Hnew event.
  destruct (@operate_invariant W (Emitter.CallOn ev l) em r Hd Ha)
    as [Hd' _].
  cbn [Emitter.operate] in Hd'.
  assert (Hon : forall e0, Emitter.getListenerEntries e0
                             (fst (Emitter.on ev l em r))
                = if jsstring_eqb e0 ev
                  then Emitter.getListenerEntries ev em
                         ++ [{| Emitter.entry_ref := nextRef r;
                                Emitter.entry_listener := l;
                                Emitter.entry_once := false |}]
                  else Emitter.getListenerEntries e0 em).
  { intros e0. apply entries_set. }
  rewrite off_entries by apply (Hd' ev).
  destruct (jsstring_eqb event ev) eqn:E.
  - apply jsstring_eqb_eq in E. subst event.
    rewrite Hon, jsstring_eqb_refl. rewrite find_first.
    + rewrite delete_entry_middle; [apply app_nil_r|].
      generalize (proj2 (Hd' ev)). now rewrite Hon, jsstring_eqb_refl.
    + intros x Hx. apply Nat.eqb_neq. now apply Hnew.
    + apply Nat.eqb_refl.
  - now rewrite Hon, E.
Qed.

(** X5: the two until-result emissions differ only on promises: when no
    listener of the event hands back a promise fulfilled with a result,
    [emitUntilResultAsync] gives the result, the run and the emitter
    that [emitUntilResult] gives; and when the first listener does hand
    back such a promise, the async emission stops there with its
    value. *)
Theorem until_result_async_agrees_with_sync :
  forall (W : Type) (ev : jsstring) (args : jsargs)
         (em : Emitter.ResultEventEmitter W) (r : Run W),
    ((forall e w,
         In e (Emitter.getListenerEntries ev em) ->
         Emitter.fulfilled_with_result
           (fst (fn_run (Emitter.entry_listener e) args w)) = false) ->
     Emitter.emitUntilResultAsync ev args em r
     = Emitter.emitUntilResult ev args em r) /\
    (forall e rest d,
        Emitter.getListenerEntries ev em = e :: rest ->
        fst (fn_run (Emitter.entry_listener e) args (world r))
          = Return (Promise (Fulfilled (Defined d))) ->
        fst (fst (Emitter.emitUntilResultAsync ev args em r))
          = Plain (Defined d) /\
        Emitter.calls_between r
          (snd (Emitter.emitUntilResultAsync ev args em r))
          = [Emitter.entry_ref e]).
Proof.
  intros W ev args em r. split.
  - intros H. unfold Emitter.emitUntilResultAsync, Emitter.emitUntilResult.
    unfold bind. now rewrite until_result_loops_agree.
  - intros e rest d Hes Ho. unfold Emitter.emitUntilResultAsync, bind.
    rewrite Hes. cbn [Emitter.emitUntilResultAsync_loop]. unfold bind, call.
    destruct (fn_run (Emitter.entry_listener e) args (world r)) as [o w'].
    cbn [fst] in Ho. subst o. cbn [awaited ret fst snd].
    split; [reflexivity|]. now apply calls_between_app.
Qed.

(** X6: listeners run in the order of their registration: after
    [on(event, l)] the new entry is called last and [listeners(event)]
    ends with [l]; after [prependListener(event, l)] it is called first
    and [listeners(event)] begins with [l]. *)
Theorem listeners_run_in_registration_order :
  forall (W : Type) (ev : jsstring) (l : Fn W) (args : jsargs)
         (em : Emitter.ResultEventEmitter W) (r : Run W),
    let added := Emitter.on ev l em r in
    let put_first := Emitter.prependListener ev l em r in
    let before := map (@Emitter.entry_ref W)
                    (Emitter.getListenerEntries ev em) in
    Emitter.listeners ev (fst added) = Emitter.listeners ev em ++ [l] /\
    Emitter.listeners ev (fst put_first) = l :: Emitter.listeners ev em /\
    Emitter.calls_between (snd added)
      (snd (Emitter.emit ev args (fst added) (snd added)))
      = before ++ [nextRef r] /\
    Emitter.calls_between (snd put_first)
      (snd (Emitter.emit ev args (fst put_first) (snd put_first)))
      = nextRef r :: before.
Proof.
  intros W ev l args em r added put_first before.
  assert (Ha : Emitter.getListenerEntries ev (fst added)
               = Emitter.getListenerEntries ev em
                   ++ [{| Emitter.entry_ref := nextRef r;
                          Emitter.entry_listener := l;
                          Emitter.entry_once := false |}]).
  { unfold added. etransitivity; [apply entries_set|].
    now rewrite jsstring_eqb_refl. }
  assert (Hp : Emitter.getListenerEntries ev (fst put_first)
               = {| Emitter.entry_ref := nextRef r;
                    Emitter.entry_listener := l;
                    Emitter.entry_once := false |}
                   :: Emitter.getListenerEntries ev em).
  { unfold put_first. etransitivity; [apply entries_set|].
    now rewrite jsstring_eqb_refl. }
  assert (Hcalls : forall em0 r0,
             Emitter.calls_between r0 (snd (Emitter.emit ev args em0 r0))
             = map (@Emitter.entry_ref W)
                 (Emitter.getListenerEntries ev em0)).
  { intros em0 r0. unfold Emitter.emit, bind.
    destruct (emit_loop_run (Emitter.getListenerEntries ev em0) args r0)
      as [H1 _].
    destruct (Emitter.emit_loop (Emitter.getListenerEntries ev em0) args r0)
      as [[res rem] r']. cbn [snd ret] in *. now apply calls_between_app. }
  split; [|split; [|split]].
  - now rewrite !listeners_of_entries, Ha, map_app.
  - now rewrite !listeners_of_entries, Hp.
  - rewrite Hcalls, Ha, map_app. reflexivity.
  - rewrite Hcalls, Hp. reflexivity.
Qed.

Lemma emission_leaves_other_events_witness :
  NoDup (keys (Emitter.eventListeners ListenerExample.emitter)) /\
  js "close" <> js "ready" /\
  Emitter.getListenerEntries (js "close")
    (fst (Emitter.emission (Emitter.Emit nat) (js "ready") []
            ListenerExample.emitter ListenerExample.start))
  = Emitter.getListenerEntries (js "close") ListenerExample.emitter.
Proof.
  assert (Hk : NoDup (keys (Emitter.eventListeners ListenerExample.emitter))).
  { vm_compute. repeat constructor; simpl; intuition discriminate. }
  assert (Hne : js "close" <> js "ready") by discriminate.
  split; [exact Hk|]. split; [exact Hne|].
  exact (proj1 (@emission_leaves_other_events nat (Emitter.Emit nat)
                  (js "ready") (js "close") [] ListenerExample.emitter
                  ListenerExample.start Hk Hne)).
Defined.

Lemma off_removes_first_registration_witness :
  Emitter.distinct_entries (js "ready") ListenerExample.emitter /\
  Emitter.getListenerEntries (js "ready")
    (Emitter.off (js "ready") (EmitterExample.counting 10 1)
       ListenerExample.emitter)
  = [{| Emitter.entry_ref := 1;
        Emitter.entry_listener := EmitterExample.counting 11 2;
        Emitter.entry_once := false |};
     {| Emitter.entry_ref := 2;
        Emitter.entry_listener := EmitterExample.counting 10 1;
        Emitter.entry_once := false |}].
Proof.
  assert (Hd : Emitter.distinct_entries (js "ready") ListenerExample.emitter).
  { split; vm_compute; repeat constructor; simpl; intuition discriminate. }
  split; [exact Hd|].
  refine (proj1 (proj1 (@off_removes_first_registration nat (js "ready")
                          (EmitterExample.counting 10 1)
                          ListenerExample.emitter Hd)
                   [] _ _ eq_refl eq_refl _)).
  intros x [].
Defined.

Lemma on_then_off_restores_listeners_witness :
  (forall event,
      Emitter.distinct_entries event ListenerExample.emitter) /\
  Emitter.allocated ListenerExample.emitter ListenerExample.start /\
  Emitter.getListenerEntries (js "ready")
    (Emitter.off (js "ready") (EmitterExample.counting 13 4)
       (fst (Emitter.on (js "ready") (EmitterExample.counting 13 4)
               ListenerExample.emitter ListenerExample.start)))
  = Emitter.getListenerEntries (js "ready") ListenerExample.emitter.
Proof.
  destruct (empty_invariant EmitterExample.nothing_yet) as [Hd0 Ha0].
  destruct (operate_all_invariant ListenerExample.program Hd0 Ha0)
    as [Hd Ha].
  split; [exact Hd|]. split; [exact Ha|].
  apply (@on_then_off_restores_listeners nat (js "ready")
           (EmitterExample.counting 13 4) ListenerExample.emitter
           ListenerExample.start Hd Ha).
  intros x Hx. vm_compute in Hx.
  destruct Hx as [<-|[<-|[<-|[]]]]; discriminate.
Defined.

Lemma until_result_async_agrees_with_sync_witness :
  (forall e w,
      In e (Emitter.getListenerEntries (js "ready") ListenerExample.emitter) ->
      Emitter.fulfilled_with_result
        (fst (fn_run (Emitter.entry_listener e) [] w)) = false) /\
  Emitter.emitUntilResultAsync (js "ready") [] ListenerExample.emitter
    ListenerExample.start
  = Emitter.emitUntilResult (js "ready") [] ListenerExample.emitter
      ListenerExample.start /\
  fst (fst (Emitter.emitUntilResultAsync (js "open") []
              ListenerExample.with_promise ListenerExample.start))
  = Plain (Defined 5).
Proof.
  assert (H : forall e w,
             In e (Emitter.getListenerEntries (js "ready")
                     ListenerExample.emitter) ->
             Emitter.fulfilled_with_result
               (fst (fn_run (Emitter.entry_listener e) [] w)) = false).
  { intros e w Hx. vm_compute in Hx.
    destruct Hx as [<-|[<-|[<-|[]]]]; reflexivity. }
  split; [exact H|]. split.
  - exact (proj1 (@until_result_async_agrees_with_sync nat (js "ready") []
                    ListenerExample.emitter ListenerExample.start) H).
  - exact (proj1 (proj2 (@until_result_async_agrees_with_sync nat (js "open")
                           [] ListenerExample.with_promise
                           ListenerExample.start)
                    _ _ 5 eq_refl eq_refl)).
Defined.

(* ------------------------------------------------------------------ *)
(** ** The custom-data codec read backwards *)

Lemma join_split (sep : code_unit) (s : jsstring) :
  join [sep] (split sep s) = s.
Proof.
  induction s as [|c s IH]; [reflexivity|].
  cbn [split]. destruct (N.eqb c sep) eqn:E.
  - apply N.eqb_eq in E. subst c.
    destruct (split sep s) as [|p ps] eqn:Es.
    + now destruct (split_nonempty sep s).
    + change (join [sep] ([] :: p :: ps))
        with ([] ++ [sep] ++ join [sep] (p :: ps)).
      now rewrite IH.
  - destruct (split sep s) as [|p ps] eqn:Es.
    + now destruct (split_nonempty sep s).
    + destruct ps as [|q qs].
      * cbn [join] in *. now rewrite IH.
      * change (join [sep] ((c :: p) :: q :: qs))
          with (c :: (p ++ [sep] ++ join [sep] (q :: qs))).
        change (join [sep] (p :: q :: qs))
          with (p ++ [sep] ++ join [sep] (q :: qs)) in IH.
        now rewrite IH.
Qed.

Lemma split_parts_without_separator (sep : code_unit) (s : jsstring) :
  Forall (fun part => ~ In sep part) (split sep s).
Proof.
  induction s as [|c s IH]; cbn [split].
  - constructor; [intros []|constructor].
  - destruct (N.eqb c sep) eqn:E.
    + constructor; [intros []|exact IH].
    + destruct (split sep s) as [|p ps]; [repeat constructor|].
      * intros [->|[]]. now rewrite N.eqb_refl in E.
      * inversion IH as [|? ? Hp Hps]; subst. constructor; [|exact Hps].
        intros [->|Hin]; [now rewrite N.eqb_refl in E|now apply Hp].
Qed.

Lemma split_prefix_head (sep : code_unit) (s t : jsstring) :
  hd [] (split sep (s ++ sep :: t)) = hd [] (split sep s).
Proof.
  induction s as [|c s IH]; cbn [app split].
  - now rewrite N.eqb_refl.
  - destruct (N.eqb c sep); [reflexivity|].
    destruct (split sep (s ++ sep :: t)) as [|p ps] eqn:E1;
      [now destruct (split_nonempty sep (s ++ sep :: t))|].
    destruct (split sep s) as [|q qs] eqn:E2;
      [now destruct (split_nonempty sep s)|].
    cbn [hd] in *. now rewrite IH.
Qed.

Section CodecReverse.

Import Codec.

Variable number : Type.
Variable toString : number -> jsstring.
Variable Number : jsstring -> number.

Lemma encodeItem_decodePart (part : jsstring) :
  canonical toString Number part ->
  encodeItem toString (decodePart Number part) = part.
Proof.
  destruct part as [|c t]; [reflexivity|].
  unfold canonical, decodePart.
  destruct (N.eqb c CUSTOM_DATA_NUMBER_INDICATOR) eqn:E; [|reflexivity].
  intros H. cbn [encodeItem]. rewrite (H eq_refl).
  apply N.eqb_eq in E. now subst c.
Qed.

Lemma parsed_id_is_head (customId : jsstring)
    (dec : option (CustomDataDecodeEventData number
                   -> CustomDataDecodeEventData number)) :
  id (parseCustomDataSync Number customId dec)
  = hd [] (split CUSTOM_DATA_SPLITTER customId).
Proof.
  unfold parseCustomDataSync.
  destruct (split CUSTOM_DATA_SPLITTER customId) as [|i [|p ps]]; reflexivity.
Qed.

Lemma encoded_head (i : jsstring)
    (d : option (list (CustomDataValue number)))
    (enc : option (CustomDataEncodeEventData number
                   -> CustomDataEncodeEventData number)) :
  hd [] (split CUSTOM_DATA_SPLITTER (encodeCustomDataSync toString i d enc))
  = hd [] (split CUSTOM_DATA_SPLITTER i).
Proof.
  unfold encodeCustomDataSync. destruct d as [[|x xs]|]; try reflexivity.
  cbn [app]. apply split_prefix_head.
Qed.

End CodecReverse.

(** X7: decoding a custom id and encoding what was decoded gives the
    custom id back, whenever each number part of it holds the text of
    the number it reads as (so in particular when no part begins with
    the number indicator). *)
Theorem custom_id_reencodes :
  forall (number : Type) (toString : number -> jsstring)
         (Number : jsstring -> number) (customId : jsstring),
    Forall (Codec.canonical toString Number)
      (tl (split Codec.CUSTOM_DATA_SPLITTER customId)) ->
    let parsed := Codec.parseCustomDataSync Number customId None in
    Codec.encodeCustomDataSync toString (Codec.id parsed)
      (Some (Codec.data parsed)) None
    = customId.
Proof.
  intros number toString Number customId Hc parsed.
  unfold parsed, Codec.parseCustomDataSync.
  generalize (join_split Codec.CUSTOM_DATA_SPLITTER customId).
  destruct (split Codec.CUSTOM_DATA_SPLITTER customId) as [|i [|p ps]] eqn:Es.
  - now destruct (split_nonempty Codec.CUSTOM_DATA_SPLITTER customId).
  - intros <-. reflexivity.
  - intros <-. cbn [tl] in Hc.
    cbn [Codec.id Codec.data Codec.dec_parsed Codec.dec_notParsed app].
    unfold Codec.encodeCustomDataSync.
    cbn [map Codec.enc_parsed Codec.enc_notParsed app].
    assert (E : map (Codec.encodeItem toString)
                  (map (Codec.decodePart Number) (p :: ps)) = p :: ps).
    { rewrite map_map. rewrite <- (map_id (p :: ps)) at 2.
      apply map_ext_in. intros part Hin.
      apply encodeItem_decodePart.
      rewrite Forall_forall in Hc. now apply Hc. }
    cbn [map] in E. rewrite E. reflexivity.
Qed.

Lemma custom_id_reencodes_witness :
  let customId :=
    js "vote" ++ [Codec.CUSTOM_DATA_SPLITTER] ++ js "yes"
      ++ [Codec.CUSTOM_DATA_SPLITTER; Codec.CUSTOM_DATA_NUMBER_INDICATOR]
      ++ js "-42" in
  Forall (Codec.canonical IntNumber.toString IntNumber.Number)
    (tl (split Codec.CUSTOM_DATA_SPLITTER customId)) /\
  Codec.encodeCustomDataSync IntNumber.toString (js "vote")
    (Some [Codec.VString (js "yes"); Codec.VNumber (-42)%Z]) None
  = customId.
Proof.
  intros customId.
  assert (H : Forall (Codec.canonical IntNumber.toString IntNumber.Number)
                (tl (split Codec.CUSTOM_DATA_SPLITTER customId))).
  { vm_compute. repeat constructor; discriminate. }
  split; [exact H|].
  exact (@custom_id_reencodes Z IntNumber.toString IntNumber.Number
           customId H).
Defined.

(** X8: the id read from an encoded custom id is the base id it was
    made from, whatever data goes with it and whatever the encode and
    decode listeners do, exactly when the base id is free of the
    separator. *)
Theorem base_id_survives_any_data :
  forall (number : Type) (toString : number -> jsstring)
         (Number : jsstring -> number) (baseId : jsstring)
         (d : option (list (Codec.CustomDataValue number)))
         (enc : option (Codec.CustomDataEncodeEventData number
                        -> Codec.CustomDataEncodeEventData number))
         (dec : option (Codec.CustomDataDecodeEventData number
                        -> Codec.CustomDataDecodeEventData number)),
    Codec.id
      (Codec.parseCustomDataSync Number
         (Codec.encodeCustomDataSync toString baseId d enc) dec)
    = baseId
    <-> Codec.no_separator baseId.
Proof.
  intros number toString Number baseId d enc dec.
  rewrite parsed_id_is_head, encoded_head. split.
  - intros E.
    assert (Hall := split_parts_without_separator
                      Codec.CUSTOM_DATA_SPLITTER baseId).
    destruct (split Codec.CUSTOM_DATA_SPLITTER baseId) as [|p ps] eqn:Es.
    + now destruct (split_nonempty Codec.CUSTOM_DATA_SPLITTER baseId).
    + cbn [hd] in E. subst p. now inversion Hall.
  - intros Hn. now rewrite (split_without_separator _ _ Hn).
Qed.

(* ------------------------------------------------------------------ *)
(** ** Merging any number of fragments *)

Section LocaleNary.

Import LocaleStore.

Lemma max_depth_app (objs : list PlainLocaleData) (b : PlainLocaleData) :
  fold_right Nat.max 0 (map fields_depth (objs ++ [b]))
  = Nat.max (fold_right Nat.max 0 (map fields_depth objs)) (fields_depth b).
Proof.
  induction objs as [|o objs IH]; simpl; [lia|]. rewrite IH. lia.
Qed.

(** The merge of a list is its last object merged into the merge of the
    others. *)
Lemma deepMerge_snoc (objs : list PlainLocaleData) (b : PlainLocaleData) :
  deepMerge (objs ++ [b])
  = fold_left
      (deepMerge_entry
         (deepMerge_fuel
            (fold_right Nat.max 0 (map fields_depth (objs ++ [b])))))
      b (deepMerge objs).
Proof.
  unfold deepMerge at 1. rewrite deepMerge_fuel_S, fold_left_app.
  cbn [fold_left]. rewrite <- deepMerge_fuel_S. f_equal.
  rewrite max_depth_app.
  set (n0 := fold_right Nat.max 0 (map fields_depth objs)).
  replace (Nat.max n0 (fields_depth b))
    with (n0 + (Nat.max n0 (fields_depth b) - n0)) by lia.
  apply deepMerge_fuel_enough.
Qed.

Lemma text_at_nil (path : list jsstring) : text_at [] path = None.
Proof. destruct path; reflexivity. Qed.

(** What one object merged into another holds at a path. *)
Lemma text_at_merged_into (n : nat) (acc b : PlainLocaleData)
    (path : list jsstring) (s : jsstring) :
  wf acc -> wf b -> fields_depth acc <= n -> fields_depth b <= n ->
  text_at (fold_left (deepMerge_entry (deepMerge_fuel n)) b acc) path = Some s
  <-> text_at b path = Some s
      \/ (text_at acc path = Some s /\ absent b path = true).
Proof.
  intros Ha Hb Da Db. destruct path as [|k rest].
  - cbn [text_at]. split; [discriminate|].
    intros [H|[H _]]; discriminate H.
  - cbn [text_at absent]. rewrite get_merge_object by apply Hb.
    destruct (get k b) as [[s'|f]|] eqn:Eb.
    + split; [now left|]. intros [H|[_ H]]; [exact H|discriminate H].
    + assert (Hf : wf f) by now apply (wf_get k Hb).
      assert (Df : S (fields_depth f) <= n).
      { apply depth_get in Eb.
        change (depth (Obj f)) with (S (fields_depth f)) in Eb. lia. }
      destruct (get k acc) as [[s'|e]|] eqn:Ea.
      * split.
        -- intros H. apply text_at_merge_origin in H;
             [|split; reflexivity|exact Hf].
           destruct H as [H|[H _]]; [now left|].
           now rewrite text_at_nil in H.
        -- intros [H|[H Habs]].
           ++ apply text_at_merge_later; [exact Hf| |exact H].
              apply text_at_length in H. lia.
           ++ destruct rest; discriminate.
      * assert (He : wf e) by now apply (wf_get k Ha).
        assert (De : S (fields_depth e) <= n).
        { apply depth_get in Ea.
          change (depth (Obj e)) with (S (fields_depth e)) in Ea. lia. }
        split.
        -- intros H. apply text_at_merge_origin in H; [|exact He|exact Hf].
           destruct H as [H|[H Habs]]; [now left|now right].
        -- intros [H|[H Habs]].
           ++ apply text_at_merge_later; [exact Hf| |exact H].
              apply text_at_length in H. lia.
           ++ apply text_at_merge_earlier; try assumption.
              apply text_at_length in H. lia.
      * split.
        -- intros H. apply text_at_merge_origin in H;
             [|split; reflexivity|exact Hf].
           destruct H as [H|[H _]]; [now left|].
           now rewrite text_at_nil in H.
        -- intros [H|[H _]]; [|discriminate H].
           apply text_at_merge_later; [exact Hf| |exact H].
           apply text_at_length in H. lia.
    + split; [intros H; right; now split|].
      intros [H|[H _]]; [discriminate H|exact H].
Qed.

Lemma mergeContents_of_fragments (lang : jsstring) (l : Locale) :
  mergeContentsForLanguage lang l
  = match fragments lang l with
    | [] => []
    | _ => convertToContentValue (deepMerge (fragments lang l))
    end.
Proof. reflexivity. Qed.

End LocaleNary.

(** X9: of any number of ordinary fragments merged, the last one wins
    key by key: the merge of [objs] followed by [b] holds a string at a
    key path exactly when [b] holds it there, or the merge of [objs]
    holds it there and [b] has nothing on the way; the content a store
    shows for a language whose fragments are [objs] followed by [b]
    resolves accordingly; and the merge is ordinary again, so that no
    assignment of the merge or of the conversion meets the key
    ["__proto__"]. *)
Theorem deepMerge_last_fragment_wins :
  forall (objs : list LocaleStore.PlainLocaleData)
         (b : LocaleStore.PlainLocaleData),
    LocaleStore.wf b ->
    Forall LocaleStore.ordinary objs -> LocaleStore.ordinary b ->
    (forall path s,
        LocaleStore.text_at (LocaleStore.deepMerge (objs ++ [b])) path
          = Some s
        <-> LocaleStore.text_at b path = Some s
            \/ (LocaleStore.text_at (LocaleStore.deepMerge objs) path = Some s
                /\ LocaleStore.absent b path = true)) /\
    (forall (lang : jsstring) (l : LocaleStore.Locale) path,
        LocaleStore.fragments lang l = objs ++ [b] ->
        LocaleStore.resolve (LocaleStore.mergeContentsForLanguage lang l) path
        = LocaleStore.text_at (LocaleStore.deepMerge (objs ++ [b])) path) /\
    LocaleStore.ordinary (LocaleStore.deepMerge objs) /\
    LocaleStore.ordinary (LocaleStore.deepMerge (objs ++ [b])).
Proof.
  intros objs b Hb Hobjs Hob. split; [|split; [|split]].
  - intros path s. rewrite deepMerge_snoc.
    apply text_at_merged_into.
    + apply wf_deepMerge_fuel.
    + exact Hb.
    + apply fields_depth_deepMerge_fuel. intros o Ho.
      apply fields_depth_bound. apply in_or_app. now left.
    + apply fields_depth_bound. apply in_or_app. right. now left.
  - intros lang l path Hf. rewrite mergeContents_of_fragments, Hf.
    destruct (objs ++ [b]) eqn:E; [now destruct objs|].
    apply resolve_convert. apply wf_deepMerge_fuel.
  - now apply ordinary_deepMerge_fuel.
  - apply ordinary_deepMerge_fuel. apply Forall_app. split; [exact Hobjs|].
    now constructor.
Qed.

Lemma deepMerge_last_fragment_wins_witness :
  LocaleStore.wf MergeExample.fragmentA /\
  Forall LocaleStore.ordinary
    [MergeExample.fragmentA; MergeExample.fragmentB] /\
  LocaleStore.ordinary MergeExample.fragmentA /\
  LocaleStore.text_at
    (LocaleStore.deepMerge
       ([MergeExample.fragmentA; MergeExample.fragmentB]
          ++ [MergeExample.fragmentA]))
    [js "x"; js "z"]
  = Some (js "3").
Proof.
  assert (Hw : LocaleStore.wf MergeExample.fragmentA) by (split; reflexivity).
  assert (Ho : Forall LocaleStore.ordinary
                 [MergeExample.fragmentA; MergeExample.fragmentB]).
  { repeat constructor. }
  assert (Hb : LocaleStore.ordinary MergeExample.fragmentA) by reflexivity.
  split; [exact Hw|]. split; [exact Ho|]. split; [exact Hb|].
  apply (proj1 (@deepMerge_last_fragment_wins
                  [MergeExample.fragmentA; MergeExample.fragmentB]
                  MergeExample.fragmentA Hw Ho Hb)).
  right. split; reflexivity.
Defined.

(* ------------------------------------------------------------------ *)
(** ** A store's content and its fragments *)

Section LocaleStoreFacts.

Import LocaleStore.

Lemma set_fresh (V : Type) (k : jsstring) (v : V) (m : Collection V) :
  get k m = None -> set k v m = m ++ [(k, v)].
Proof.
  induction m as [|[k' v'] m IH]; simpl; [reflexivity|].
  destruct (jsstring_eqb k k'); [discriminate|].
  intros H. now rewrite IH.
Qed.

Lemma delete_set_fresh (V : Type) (k : jsstring) (v : V) (m : Collection V) :
  get k m = None -> delete k (set k v m) = m.
Proof.
  induction m as [|[k' v'] m IH]; simpl.
  - now rewrite jsstring_eqb_refl.
  - destruct (jsstring_eqb k k') eqn:E; [discriminate|].
    intros H. simpl. rewrite E. now rewrite IH.
Qed.

Lemma fragments_by_contents (lang : jsstring) (a b : Locale) :
  contents a = contents b -> fragments lang a = fragments lang b.
Proof. unfold fragments. now intros ->. Qed.

Lemma merge_by_contents (lang : jsstring) (a b : Locale) :
  contents a = contents b ->
  mergeContentsForLanguage lang a = mergeContentsForLanguage lang b.
Proof. unfold mergeContentsForLanguage. now intros ->. Qed.

(** Fragments of another language are not touched by [set] or [delete]
    at an id that holds no fragment of that language. *)
Lemma other_fragments_set (other id : jsstring) (f : Fragment)
    (m : Collection Fragment) :
  language f <> other ->
  (forall f0, get id m = Some f0 -> language f0 <> other) ->
  filter (fun item => jsstring_eqb (language item) other) (values (set id f m))
  = filter (fun item => jsstring_eqb (language item) other) (values m).
Proof.
  intros Hf. apply jsstring_eqb_neq in Hf.
  induction m as [|[k v] m IH]; simpl; intros H.
  - now rewrite Hf.
  - destruct (jsstring_eqb id k) eqn:E; simpl.
    + rewrite Hf.
      assert (Hv : jsstring_eqb (language v) other = false).
      { apply jsstring_eqb_neq. now apply H. }
      now rewrite Hv.
    + rewrite IH by assumption. reflexivity.
Qed.

Lemma other_fragments_delete (other id : jsstring) (m : Collection Fragment) :
  (forall f0, get id m = Some f0 -> language f0 <> other) ->
  filter (fun item => jsstring_eqb (language item) other)
         (values (delete id m))
  = filter (fun item => jsstring_eqb (language item) other) (values m).
Proof.
  induction m as [|[k v] m IH]; simpl; intros H; [reflexivity|].
  destruct (jsstring_eqb id k) eqn:E; simpl.
  - assert (Hv : jsstring_eqb (language v) other = false).
    { apply jsstring_eqb_neq. now apply H. }
    now rewrite Hv.
  - rewrite IH by assumption. reflexivity.
Qed.

Lemma recalculated_in_step (lang : jsstring) (l : Locale) :
  NoDup (keys (content l)) ->
  in_step lang (recalculateContentForLanguage lang l).
Proof.
  intros Hk. unfold in_step.
  rewrite (@merge_by_contents lang (recalculateContentForLanguage lang l) l)
    by reflexivity.
  unfold recalculateContentForLanguage. cbn [content].
  destruct (Nat.ltb 0 (length (mergeContentsForLanguage lang l))).
  - apply get_set_same.
  - now apply get_delete_same.
Qed.

Lemma recalculated_other (lang other : jsstring) (l : Locale) :
  other <> lang ->
  get other (content (recalculateContentForLanguage lang l))
  = get other (content l).
Proof.
  intros Hne. unfold recalculateContentForLanguage. cbn [content].
  destruct (Nat.ltb 0 (length (mergeContentsForLanguage lang l))).
  - now apply get_set_other.
  - now apply get_delete_other.
Qed.

Lemma recalculated_keys (lang : jsstring) (l : Locale) :
  NoDup (keys (content l)) ->
  NoDup (keys (content (recalculateContentForLanguage lang l))).
Proof.
  intros Hk. unfold recalculateContentForLanguage. cbn [content].
  destruct (Nat.ltb 0 (length (mergeContentsForLanguage lang l))).
  - now apply NoDup_keys_set.
  - now apply NoDup_keys_delete.
Qed.

End LocaleStoreFacts.

(** X10: [content] stays in step with the fragments.  After
    [addLocale] and after its disposer, the language concerned holds the
    merge of its fragments (and no entry when that is empty); every
    other language that was in step stays so, provided the id did not
    hold a fragment of that language. *)
Theorem content_stays_in_step :
  forall (id lang : jsstring) (data : LocaleStore.PlainLocaleData)
         (l : LocaleStore.Locale),
    NoDup (keys (LocaleStore.content l)) ->
    LocaleStore.in_step lang (LocaleStore.addLocale id lang data l) /\
    LocaleStore.in_step lang (LocaleStore.addLocale_dispose id lang l) /\
    (forall other,
        other <> lang ->
        (forall f, get id (LocaleStore.contents l) = Some f ->
                   LocaleStore.language f <> other) ->
        LocaleStore.in_step other l ->
        LocaleStore.in_step other (LocaleStore.addLocale id lang data l) /\
        LocaleStore.in_step other (LocaleStore.addLocale_dispose id lang l)).
Proof.
  intros id lang data l Hk. split; [|split].
  - unfold LocaleStore.addLocale. now apply recalculated_in_step.
  - unfold LocaleStore.addLocale_dispose. now apply recalculated_in_step.
  - intros other Hne Hid Hs. unfold LocaleStore.in_step in *. split.
    + unfold LocaleStore.addLocale. rewrite recalculated_other by assumption.
      cbn [LocaleStore.content].
      assert (Hm : LocaleStore.mergeContentsForLanguage other
                     (LocaleStore.recalculateContentForLanguage lang
                        {| LocaleStore.locale_id := LocaleStore.locale_id l;
                           LocaleStore.content := LocaleStore.content l;
                           LocaleStore.contents :=
                             set id
                               {| LocaleStore.language := lang;
                                  LocaleStore.fragment_data := data |}
                               (LocaleStore.contents l) |})
                   = LocaleStore.mergeContentsForLanguage other l).
      { unfold LocaleStore.mergeContentsForLanguage.
        cbn [LocaleStore.contents LocaleStore.recalculateContentForLanguage].
        rewrite other_fragments_set; [reflexivity| |exact Hid].
        cbn [LocaleStore.language]. congruence. }
      rewrite Hm. exact Hs.
    + unfold LocaleStore.addLocale_dispose.
      rewrite recalculated_other by assumption. cbn [LocaleStore.content].
      assert (Hm : LocaleStore.mergeContentsForLanguage other
                     (LocaleStore.recalculateContentForLanguage lang
                        {| LocaleStore.locale_id := LocaleStore.locale_id l;
                           LocaleStore.content := LocaleStore.content l;
                           LocaleStore.contents :=
                             delete id (LocaleStore.contents l) |})
                   = LocaleStore.mergeContentsForLanguage other l).
      { unfold LocaleStore.mergeContentsForLanguage.
        cbn [LocaleStore.contents LocaleStore.recalculateContentForLanguage].
        rewrite other_fragments_delete; [reflexivity|exact Hid]. }
      rewrite Hm. exact Hs.
Qed.

Lemma content_stays_in_step_witness :
  NoDup (keys (LocaleStore.content RootExample.texts)) /\
  LocaleStore.in_step (js "tr")
    (LocaleStore.addLocale (js "more") (js "tr")
       [(js "bye", LocaleStore.Str (js "hos"))] RootExample.texts).
Proof.
  assert (Hk : NoDup (keys (LocaleStore.content RootExample.texts))).
  { vm_compute. repeat constructor; simpl; intuition discriminate. }
  split; [exact Hk|].
  exact (proj1 (@content_stays_in_step (js "more") (js "tr")
                  [(js "bye", LocaleStore.Str (js "hos"))]
                  RootExample.texts Hk)).
Defined.

(** X11: adding a fragment under an unused id and calling the disposer
    gives the store back: the same fragments, and for every language
    the content it had, when the language added to was in step. *)
Theorem addLocale_then_dispose_restores :
  forall (id lang : jsstring) (data : LocaleStore.PlainLocaleData)
         (l : LocaleStore.Locale),
    NoDup (keys (LocaleStore.content l)) ->
    get id (LocaleStore.contents l) = None ->
    LocaleStore.in_step lang l ->
    let l' := LocaleStore.addLocale_dispose id lang
                (LocaleStore.addLocale id lang data l) in
    LocaleStore.contents l' = LocaleStore.contents l /\
    (forall other,
        get other (LocaleStore.content l')
        = get other (LocaleStore.content l)).
Proof.
  intros id lang data l Hk Hfresh Hs l'.
  assert (Hc : LocaleStore.contents l' = LocaleStore.contents l).
  { unfold l', LocaleStore.addLocale_dispose, LocaleStore.addLocale.
    cbn [LocaleStore.contents LocaleStore.recalculateContentForLanguage].
    now apply delete_set_fresh. }
  split; [exact Hc|]. intros other.
  destruct (jsstring_eqb other lang) eqn:E.
  - apply jsstring_eqb_eq in E. subst other.
    assert (Hl' : LocaleStore.in_step lang l').
    { unfold l', LocaleStore.addLocale_dispose.
      apply recalculated_in_step. cbn [LocaleStore.content].
      unfold LocaleStore.addLocale. now apply recalculated_keys. }
    unfold LocaleStore.in_step in Hl', Hs.
    rewrite Hl', Hs. now rewrite (merge_by_contents lang l' l Hc).
  - apply jsstring_eqb_neq in E.
    unfold l', LocaleStore.addLocale_dispose.
    rewrite recalculated_other by assumption. cbn [LocaleStore.content].
    unfold LocaleStore.addLocale. now rewrite recalculated_other.
Qed.

Lemma addLocale_then_dispose_restores_witness :
  NoDup (keys (LocaleStore.content RootExample.texts)) /\
  get (js "more") (LocaleStore.contents RootExample.texts) = None /\
  LocaleStore.in_step (js "tr") RootExample.texts /\
  get (js "tr")
    (LocaleStore.content
       (LocaleStore.addLocale_dispose (js "more") (js "tr")
          (LocaleStore.addLocale (js "more") (js "tr")
             [(js "bye", LocaleStore.Str (js "hos"))] RootExample.texts)))
  = get (js "tr") (LocaleStore.content RootExample.texts).
Proof.
  assert (Hk : NoDup (keys (LocaleStore.content RootExample.texts))).
  { vm_compute. repeat constructor; simpl; intuition discriminate. }
  assert (Hs : LocaleStore.in_step (js "tr") RootExample.texts)
    by reflexivity.
  split; [exact Hk|]. split; [reflexivity|]. split; [exact Hs|].
  exact (proj2 (@addLocale_then_dispose_restores (js "more") (js "tr")
                  [(js "bye", LocaleStore.Str (js "hos"))]
                  RootExample.texts Hk eq_refl Hs) (js "tr")).
Defined.

(* ------------------------------------------------------------------ *)
(** ** Interaction locales *)

Section InteractionLocaleFacts.

Import LocaleStore.

Variable D : Type.




End InteractionLocaleFacts.





(* ------------------------------------------------------------------ *)
(** ** Inspector registrations *)

Section InspectorFacts.

Variable W : Type.
Variable generateCombinations : jsstring -> list jsstring.

Lemma get_fold_set (V : Type) (k : jsstring) (v : V) (cs : list jsstring) :
  forall m : Collection V,
    get k (fold_left (fun m c => set c v m) cs m)
    = if existsb (jsstring_eqb k) cs then Some v else get k m.
Proof.
  induction cs as [|c cs IH]; intros m; cbn [fold_left existsb];
    [reflexivity|].
  rewrite IH. destruct (existsb (jsstring_eqb k) cs);
    [now rewrite orb_true_r|]. rewrite orb_false_r.
  destruct (jsstring_eqb k c) eqn:E.
  - apply jsstring_eqb_eq in E. subst c. apply get_set_same.
  - apply jsstring_eqb_neq in E. now apply get_set_other.
Qed.

Lemma NoDup_keys_fold_delete (V : Type) (cs : list jsstring) :
  forall m : Collection V,
    NoDup (keys m) ->
    NoDup (keys (fold_left (fun m c => delete c m) cs m)).
Proof.
  induction cs as [|c cs IH]; intros m H; cbn [fold_left]; [exact H|].
  apply IH. now apply NoDup_keys_delete.
Qed.

Lemma get_fold_delete (V : Type) (k : jsstring) (cs : list jsstring) :
  forall m : Collection V,
    NoDup (keys m) ->
    get k (fold_left (fun m c => delete c m) cs m)
    = if existsb (jsstring_eqb k) cs then None else get k m.
Proof.
  induction cs as [|c cs IH]; intros m H; cbn [fold_left existsb];
    [reflexivity|].
  rewrite IH by now apply NoDup_keys_delete.
  destruct (existsb (jsstring_eqb k) cs);
    [now rewrite orb_true_r|]. rewrite orb_false_r.
  destruct (jsstring_eqb k c) eqn:E.
  - apply jsstring_eqb_eq in E. subst c. now apply get_delete_same.
  - apply jsstring_eqb_neq in E. now apply get_delete_other.
Qed.

Lemma existsb_eqb_In (k : jsstring) (cs : list jsstring) :
  existsb (jsstring_eqb k) cs = true <-> In k cs.
Proof.
  rewrite existsb_exists. split.
  - intros [x [Hx E]]. apply jsstring_eqb_eq in E. now subst x.
  - intros H. exists k. split; [exact H|apply jsstring_eqb_refl].
Qed.

Lemma EmitType_eqb_eq (a b : Inspector.EmitType) :
  Inspector.EmitType_eqb a b = true <-> a = b.
Proof. destruct a, b; simpl; split; intros H; congruence. Qed.

End InspectorFacts.

(** X14: once a chat-input pattern (not the empty string) is registered
    on an inspector, emitting any of its combinations runs its handler
    and gives what the handler resolves to, [undefined] when it throws
    or rejects; this holds whatever the inspector held before, so a
    combination that an earlier pattern also produces now belongs to the
    pattern registered last. *)
Theorem chatInput_pattern_reaches_handler :
  forall (W : Type) (generateCombinations : jsstring -> list jsstring)
         (pattern : jsstring) (handle : Fn W)
         (insp : Inspector.Inspector W) (combo : jsstring) (ctx : jsargs)
         (r : Run W),
    pattern <> [] ->
    In combo (generateCombinations pattern) ->
    let insp' :=
      Inspector.chatInput_register generateCombinations pattern handle insp in
    Inspector.chatInput_handler combo insp' = Some handle /\
    Inspector.emit Inspector.chatInput combo ctx insp' r
      = Inspector.run_handler handle ctx r /\
    Emitter.calls_between r
      (snd (Inspector.emit Inspector.chatInput combo ctx insp' r))
      = [fn_ref handle].
Proof.
  intros W generateCombinations pattern handle insp combo ctx r Hp Hin insp'.
  assert (Hc : get combo (Inspector.chatInputCombinationsMap insp')
               = Some pattern).
  { unfold insp', Inspector.chatInput_register.
    cbn [Inspector.chatInputCombinationsMap]. rewrite get_fold_set.
    apply existsb_eqb_In in Hin. now rewrite Hin. }
  assert (Hh : get pattern (Inspector.chatInputHandlers insp') = Some handle).
  { unfold insp', Inspector.chatInput_register.
    cbn [Inspector.chatInputHandlers]. apply get_set_same. }
  destruct pattern as [|c pattern']; [now destruct Hp|].
  assert (He : Inspector.emit Inspector.chatInput combo ctx insp' r
               = Inspector.run_handler handle ctx r).
  { unfold Inspector.emit. now rewrite Hc, Hh. }
  split; [|split].
  - unfold Inspector.chatInput_handler. now rewrite Hc, Hh.
  - exact He.
  - rewrite He. unfold Inspector.run_handler, bind, call, ret.
    destruct (fn_run handle ctx (world r)) as [o w']. cbn [snd].
    now apply calls_between_app.
Qed.

Lemma chatInput_pattern_reaches_handler_witness :
  js "status" <> [] /\
  In (js "status") (Pattern.generateCombinations (js "status")) /\
  Inspector.chatInput_handler (js "status") RootExample.watcher
  = Some (PackExample.handler 40).
Proof.
  assert (Hp : js "status" <> []) by discriminate.
  assert (Hin : In (js "status") (Pattern.generateCombinations (js "status")))
    by (now left).
  split; [exact Hp|]. split; [exact Hin|].
  exact (proj1 (@chatInput_pattern_reaches_handler unit
                  Pattern.generateCombinations (js "status")
                  (PackExample.handler 40) _ (js "status") []
                  PackExample.start Hp Hin)).
Defined.

(** X15: the disposer of a chat-input registration takes every
    combination of its pattern out of the inspector, also one that
    another registered pattern produces: emitting it afterwards calls
    nothing.  And when neither the pattern nor its combinations were
    there before, registration followed by the disposer leaves every
    chat-input name with the handler it had. *)
Theorem chatInput_dispose_removes_combinations :
  forall (W : Type) (generateCombinations : jsstring -> list jsstring)
         (pattern : jsstring) (insp : Inspector.Inspector W),
    NoDup (keys (Inspector.chatInputCombinationsMap insp)) ->
    (forall combo ctx r,
        In combo (generateCombinations pattern) ->
        Inspector.emit Inspector.chatInput combo ctx
          (Inspector.chatInput_dispose generateCombinations pattern insp) r
        = (Undefined, r)) /\
    (forall handle,
        NoDup (keys (Inspector.chatInputHandlers insp)) ->
        get pattern (Inspector.chatInputHandlers insp) = None ->
        (forall combo, In combo (generateCombinations pattern) ->
                       get combo (Inspector.chatInputCombinationsMap insp)
                       = None) ->
        forall key,
          Inspector.chatInput_handler key
            (Inspector.chatInput_dispose generateCombinations pattern
               (Inspector.chatInput_register generateCombinations pattern
                  handle insp))
          = Inspector.chatInput_handler key insp).
Proof.
  intros W generateCombinations pattern insp Hk. split.
  - intros combo ctx r Hin. apply emit_without_handler.
    unfold Inspector.chatInput_handler, Inspector.chatInput_dispose.
    cbn [Inspector.chatInputCombinationsMap].
    rewrite get_fold_delete by assumption.
    apply existsb_eqb_In in Hin. now rewrite Hin.
  - intros handle Hkh Hp Hfresh key.
    unfold Inspector.chatInput_handler, Inspector.chatInput_dispose,
           Inspector.chatInput_register.
    cbn [Inspector.chatInputCombinationsMap Inspector.chatInputHandlers].
    rewrite get_fold_delete, get_fold_set.
    + destruct (existsb (jsstring_eqb key) (generateCombinations pattern))
        eqn:E.
      * apply existsb_eqb_In in E. now rewrite (Hfresh key E).
      * destruct (get key (Inspector.chatInputCombinationsMap insp))
          as [[|c p]|]; try reflexivity.
        destruct (jsstring_eqb (c :: p) pattern) eqn:Ep.
        -- apply jsstring_eqb_eq in Ep. rewrite Ep, Hp.
           apply get_delete_same. now apply NoDup_keys_set.
        -- apply jsstring_eqb_neq in Ep.
           rewrite get_delete_other by assumption.
           now apply get_set_other.
    + clear Hfresh. revert Hk.
      generalize (Inspector.chatInputCombinationsMap insp).
      induction (generateCombinations pattern) as [|c cs IH]; intros m Hm;
        cbn [fold_left]; [exact Hm|].
      apply IH. now apply NoDup_keys_set.
Qed.

(** X16: the handlers keyed by id are kept per kind of interaction:
    after one of the nine keyed registrations, emitting that kind with
    that id runs the handler, every other kind and id reaches what it
    reached before, and the disposer makes the id of that kind reach
    nothing. *)
Theorem keyed_handlers_are_per_kind :
  forall (W : Type) (type : Inspector.EmitType) (key : jsstring)
         (handle : Fn W) (insp : Inspector.Inspector W) (ctx : jsargs)
         (r : Run W),
    type <> Inspector.chatInput ->
    let insp' := Inspector.keyed_register type key handle insp in
    Inspector.emit type key ctx insp' r = Inspector.run_handler handle ctx r /\
    (forall type' key',
        (type', key') <> (type, key) ->
        Inspector.emit type' key' ctx insp' r
        = Inspector.emit type' key' ctx insp r) /\
    (NoDup (keys (Inspector.handlers insp type)) ->
     Inspector.emit type key ctx (Inspector.keyed_dispose type key insp') r
     = (Undefined, r)).
Proof.
  intros W type key handle insp ctx r Ht insp'.
  assert (Hrefl : Inspector.EmitType_eqb type type = true)
    by now apply EmitType_eqb_eq.
  split; [|split].
  - unfold Inspector.emit, insp', Inspector.keyed_register.
    cbn [Inspector.handlers]. rewrite Hrefl, get_set_same.
    destruct type; try reflexivity. now destruct Ht.
  - intros type' key' Hne.
    assert (Hget : get key' (Inspector.handlers insp' type')
                   = get key' (Inspector.handlers insp type')).
    { unfold insp', Inspector.keyed_register. cbn [Inspector.handlers].
      destruct (Inspector.EmitType_eqb type' type) eqn:E; [|reflexivity].
      apply EmitType_eqb_eq in E. subst type'.
      apply get_set_other. intros ->. now destruct Hne. }
    unfold Inspector.emit. rewrite Hget.
    destruct type'; reflexivity.
  - intros Hk.
    assert (Hget : get key (Inspector.handlers
                              (Inspector.keyed_dispose type key insp') type)
                   = None).
    { unfold Inspector.keyed_dispose, insp', Inspector.keyed_register.
      cbn [Inspector.handlers]. rewrite !Hrefl.
      apply get_delete_same. now apply NoDup_keys_set. }
    unfold Inspector.emit. rewrite Hget.
    destruct type; try reflexivity. now destruct Ht.
Qed.

Lemma chatInput_dispose_removes_combinations_witness :
  NoDup (keys (Inspector.chatInputCombinationsMap RootExample.watcher)) /\
  In (js "status") (Pattern.generateCombinations (js "status")) /\
  Inspector.emit Inspector.chatInput (js "status") []
    (Inspector.chatInput_dispose Pattern.generateCombinations (js "status")
       RootExample.watcher) RootExample.start
  = (Undefined, RootExample.start).
Proof.
  assert (Hk : NoDup (keys (Inspector.chatInputCombinationsMap
                              RootExample.watcher))).
  { vm_compute. repeat constructor; simpl; intuition discriminate. }
  assert (Hin : In (js "status") (Pattern.generateCombinations (js "status")))
    by (now left).
  split; [exact Hk|]. split; [exact Hin|].
  exact (proj1 (@chatInput_dispose_removes_combinations unit
                  Pattern.generateCombinations (js "status")
                  RootExample.watcher Hk)
           (js "status") [] RootExample.start Hin).
Defined.

Lemma keyed_handlers_are_per_kind_witness :
  Inspector.button <> Inspector.chatInput /\
  Inspector.emit Inspector.button (js "ok") []
    (Inspector.keyed_register Inspector.button (js "ok")
       (PackExample.handler 41) RootExample.watcher) RootExample.start
  = Inspector.run_handler (PackExample.handler 41) [] RootExample.start.
Proof.
  assert (Ht : Inspector.button <> Inspector.chatInput) by discriminate.
  split; [exact Ht|].
  exact (proj1 (@keyed_handlers_are_per_kind unit Inspector.button (js "ok")
                  (PackExample.handler 41) RootExample.watcher []
                  RootExample.start Ht)).
Defined.

(* ------------------------------------------------------------------ *)
(** ** Events and registrations of a pack *)

Section PackEventFacts.

Import PackTree.

Variable W : Type.

Lemma emit_calls (ev : jsstring) (args : jsargs)
    (em : Emitter.ResultEventEmitter W) (r : Run W) :
  trace (snd (Emitter.emit ev args em r))
    = trace r ++ map (@Emitter.entry_ref W) (Emitter.getListenerEntries ev em)
  /\ length (fst (fst (Emitter.emit ev args em r)))
     = length (Emitter.getListenerEntries ev em).
Proof.
  unfold Emitter.emit, bind, ret.
  destruct (emit_loop_run (Emitter.getListenerEntries ev em) args r)
    as [H1 [_ H3]].
  destruct (Emitter.emit_loop (Emitter.getListenerEntries ev em) args r)
    as [[res rem] r'].
  cbn [fst snd] in *. now split.
Qed.

Lemma emit_each_calls (ev : jsstring) (args : jsargs)
    (packs : list (Pack W)) :
  forall r : Run W,
    trace (snd (emit_each ev args packs r)) = trace r ++ heard ev packs /\
    length (fst (emit_each ev args packs r)) = length (heard ev packs).
Proof.
  induction packs as [|q packs IH]; intros r.
  - cbn. now rewrite app_nil_r.
  - cbn [emit_each heard flat_map]. unfold bind, ret.
    destruct (emit_calls ev args (_events q) r) as [H1 H2].
    destruct (Emitter.emit ev args (_events q) r) as [[res em'] r1].
    cbn [fst snd] in H1, H2. destruct (IH r1) as [H3 H4].
    destruct (emit_each ev args packs r1) as [more r2].
    cbn [fst snd] in *. fold (heard ev packs).
    rewrite H3, H1, app_assoc, !length_app, H2, H4, length_map. now split.
Qed.

Lemma emitEvent_calls (ev : jsstring) (args : jsargs) (p : Pack W)
    (r : Run W) :
  trace (snd (emitEvent ev args p r)) = trace r ++ heard ev (preorder p) /\
  length (fst (fst (emitEvent ev args p r)))
  = length (heard ev (preorder p)).
Proof.
  destruct (emit_each_calls ev args (preorder p) r) as [H1 H2].
  rewrite <- (emitEvent_flat ev args p r) in H1, H2. cbn [fst snd] in *.
  now split.
Qed.

Lemma forEach_subPacks_keys (f : Pack W -> M W (list value * Pack W))
    (subs : list (jsstring * Pack W)) :
  forall r, keys (snd (fst (forEach_subPacks f subs r))) = keys subs.
Proof.
  unfold keys. induction subs as [|[k q] subs IH]; intros r; [reflexivity|].
  cbn [forEach_subPacks]. unfold bind, ret.
  destruct (f q r) as [[res q'] r1].
  specialize (IH r1).
  destruct (forEach_subPacks f subs r1) as [[rest subs'] r2].
  cbn [fst snd map] in *. now rewrite IH.
Qed.

(** An emission leaves the registry data of the pack it starts from as
    it was, and the keys of its sub-packs. *)
Lemma emitEvent_keeps_data (ev : jsstring) (args : jsargs) (p : Pack W)
    (r : Run W) :
  let p' := snd (fst (emitEvent ev args p r)) in
  pack_id p' = pack_id p /\
  data_locales p' = data_locales p /\
  data_interactions p' = data_interactions p /\
  data_events p' = data_events p /\
  data_inspectors p' = data_inspectors p /\
  keys (data_subPacks p') = keys (data_subPacks p).
Proof.
  destruct p as [id locs subs ints evs insps em]. cbn [emitEvent].
  unfold bind, ret.
  destruct (Emitter.emit ev args em r) as [[res em'] r1].
  pose proof (forEach_subPacks_keys (emitEvent ev args) subs r1) as Hk.
  destruct (forEach_subPacks (emitEvent ev args) subs r1)
    as [[rr subs'] r2].
  cbn [fst snd] in *. repeat split; auto.
Qed.

Lemma in_set_self (V : Type) (k : jsstring) (v : V) (m : Collection V) :
  exists k', In (k', v) (set k v m).
Proof.
  induction m as [|[k0 v0] m IH]; simpl.
  - exists k. now left.
  - destruct (jsstring_eqb k k0).
    + exists k0. now left.
    + destruct IH as [k' H]. exists k'. now right.
Qed.

Lemma heard_member (ev : jsstring) (packs : list (Pack W)) (q : Pack W)
    (e : Emitter.EventListenerEntry W) :
  In q packs ->
  In e (Emitter.getListenerEntries ev (_events q)) ->
  In (Emitter.entry_ref e) (heard ev packs).
Proof.
  intros Hq He. unfold heard. apply in_flat_map. exists q.
  split; [exact Hq|]. now apply in_map.
Qed.

Lemma preorder_self (p : Pack W) : In p (preorder p).
Proof. destruct p. now left. Qed.

Lemma heard_same_events (ev : jsstring) (a b : Pack W)
    (rest : list (Pack W)) :
  _events a = _events b -> heard ev (a :: rest) = heard ev (b :: rest).
Proof. unfold heard. cbn [flat_map]. now intros ->. Qed.

End PackEventFacts.

(** X17: an event emitted on a pack calls every entry that listens to
    it in the tree, once each: the pack's own in their order, then those
    of each sub-pack's tree in turn; whatever the listeners return or
    throw, there is one result per entry. *)
Theorem emitEvent_calls_every_listener :
  forall (W : Type) (ev : jsstring) (args : jsargs) (p : PackTree.Pack W)
         (r : Run W),
    Emitter.calls_between r (snd (PackTree.emitEvent ev args p r))
      = PackTree.heard ev (PackTree.preorder p) /\
    length (fst (fst (PackTree.emitEvent ev args p r)))
      = length (PackTree.heard ev (PackTree.preorder p)) /\
    PackTree.heard ev (PackTree.preorder p)
      = map (@Emitter.entry_ref W)
          (Emitter.getListenerEntries ev (PackTree._events p))
        ++ PackTree.heard ev
             (flat_map (fun kp => PackTree.preorder (snd kp))
                (PackTree.data_subPacks p)).
Proof.
  intros W ev args p r.
  destruct (emitEvent_calls ev args p r) as [H1 H2].
  split; [now apply calls_between_app|]. split; [exact H2|].
  destruct p. reflexivity.
Qed.

(** X18: [use(pack)] puts the pack among the sub-packs before it emits
    ["pack:loaded"], so the pack loaded hears its own loading, after the
    packs that were there; a sub-pack with the same id is replaced where
    it stood.  The disposer takes the pack out before it emits
    ["pack:unloaded"]: the listeners called are those of the tree
    without it. *)
Theorem use_emits_to_the_loaded_pack :
  forall (W : Type) (arg p : PackTree.Pack W) (r : Run W),
    let loaded :=
      PackTree.with_subPacks
        (set (PackTree.pack_id arg) arg (PackTree.data_subPacks p)) p in
    let unloaded :=
      PackTree.with_subPacks
        (delete (PackTree.pack_id arg) (PackTree.data_subPacks p)) p in
    Emitter.calls_between r (snd (PackTree.use arg p r))
      = PackTree.heard (js "pack:loaded") (PackTree.preorder loaded) /\
    (forall e,
        In e (Emitter.getListenerEntries (js "pack:loaded")
                (PackTree._events arg)) ->
        In (Emitter.entry_ref e)
           (Emitter.calls_between r (snd (PackTree.use arg p r)))) /\
    keys (PackTree.data_subPacks (fst (PackTree.use arg p r)))
      = keys (set (PackTree.pack_id arg) arg (PackTree.data_subPacks p)) /\
    Emitter.calls_between r (snd (PackTree.use_dispose arg p r))
      = PackTree.heard (js "pack:unloaded") (PackTree.preorder unloaded) /\
    (NoDup (keys (PackTree.data_subPacks p)) ->
     get (PackTree.pack_id arg)
       (PackTree.data_subPacks (fst (PackTree.use_dispose arg p r)))
     = None).
Proof.
  intros W arg p r loaded unloaded.
  assert (Hu : Emitter.calls_between r (snd (PackTree.use arg p r))
               = PackTree.heard (js "pack:loaded")
                   (PackTree.preorder loaded)).
  { unfold PackTree.use, bind, ret. fold (PackTree.with_subPacks
      (set (PackTree.pack_id arg) arg (PackTree.data_subPacks p)) p).
    fold loaded.
    destruct (emitEvent_calls (js "pack:loaded") [PackTree.pack_id arg]
                loaded r) as [H1 _].
    destruct (PackTree.emitEvent (js "pack:loaded") [PackTree.pack_id arg]
                loaded r) as [[res p'] r'].
    cbn [snd] in *. now apply calls_between_app. }
  split; [exact Hu|]. split; [|split; [|split]].
  - intros e He. rewrite Hu.
    apply (@heard_member W _ _ arg e); [|exact He].
    unfold loaded, PackTree.with_subPacks. cbn [PackTree.preorder].
    right. cbn [PackTree.data_subPacks].
    destruct (in_set_self (PackTree.pack_id arg) arg
                (PackTree.data_subPacks p)) as [k Hk].
    apply in_flat_map. exists (k, arg). split; [exact Hk|].
    apply preorder_self.
  - unfold PackTree.use, bind, ret.
    fold (PackTree.with_subPacks
            (set (PackTree.pack_id arg) arg (PackTree.data_subPacks p)) p).
    fold loaded.
    pose proof (emitEvent_keeps_data (js "pack:loaded")
                  [PackTree.pack_id arg] loaded r) as Hd.
    destruct (PackTree.emitEvent (js "pack:loaded") [PackTree.pack_id arg]
                loaded r) as [[res p'] r'].
    cbn [fst snd] in *. now destruct Hd as [_ [_ [_ [_ [_ Hd]]]]].
  - unfold PackTree.use_dispose, bind, ret.
    fold (PackTree.with_subPacks
            (delete (PackTree.pack_id arg) (PackTree.data_subPacks p)) p).
    fold unloaded.
    destruct (emitEvent_calls (js "pack:unloaded") [PackTree.pack_id arg]
                unloaded r) as [H1 _].
    destruct (PackTree.emitEvent (js "pack:unloaded") [PackTree.pack_id arg]
                unloaded r) as [[res p'] r'].
    cbn [snd] in *. now apply calls_between_app.
  - intros Hn. unfold PackTree.use_dispose, bind, ret.
    fold (PackTree.with_subPacks
            (delete (PackTree.pack_id arg) (PackTree.data_subPacks p)) p).
    fold unloaded.
    pose proof (emitEvent_keeps_data (js "pack:unloaded")
                  [PackTree.pack_id arg] unloaded r) as Hd.
    destruct (PackTree.emitEvent (js "pack:unloaded") [PackTree.pack_id arg]
                unloaded r) as [[res p'] r'].
    cbn [fst snd] in *. destruct Hd as [_ [_ [_ [_ [_ Hd]]]]].
    apply get_none_not_in. rewrite Hd.
    unfold unloaded, PackTree.with_subPacks. cbn [PackTree.data_subPacks].
    apply get_none_not_in. now apply get_delete_same.
Qed.

Lemma use_emits_to_the_loaded_pack_witness :
  NoDup (keys (PackTree.data_subPacks
                 (PackExample.parent (Plain Undefined)))) /\
  get (js "child")
    (PackTree.data_subPacks
       (fst (PackTree.use_dispose PackExample.child
               (PackExample.parent (Plain Undefined)) PackExample.start)))
  = None.
Proof.
  assert (Hn : NoDup (keys (PackTree.data_subPacks
                              (PackExample.parent (Plain Undefined))))).
  { vm_compute. repeat constructor; simpl; intuition discriminate. }
  split; [exact Hn|].
  exact (proj2 (proj2 (proj2 (proj2
           (@use_emits_to_the_loaded_pack unit PackExample.child
              (PackExample.parent (Plain Undefined)) PackExample.start))))
           Hn).
Defined.

Lemma in_set (V : Type) (k k0 : jsstring) (v v0 : V) (m : Collection V) :
  In (k0, v0) (set k v m) -> In (k0, v0) m \/ v0 = v.
Proof.
  induction m as [|[k1 v1] m IH]; simpl.
  - intros [[= <- <-]|[]]. now right.
  - destruct (jsstring_eqb k k1) eqn:E.
    + intros [[= <- <-]|H]; [now right|left; now right].
    + intros [H|H]; [left; now left|].
      apply IH in H. destruct H; [left; now right|now right].
Qed.

Lemma in_set_key (V : Type) (k k0 : jsstring) (v v0 : V) (m : Collection V) :
  In (k0, v0) (set k v m) -> In (k0, v0) m \/ (k0 = k /\ v0 = v).
Proof.
  induction m as [|[k1 v1] m IH]; simpl.
  - intros [[= <- <-]|[]]. now right.
  - destruct (jsstring_eqb k k1) eqn:E.
    + apply jsstring_eqb_eq in E. subst k1.
      intros [[= <- <-]|H]; [now right|left; now right].
    + intros [H|H]; [left; now left|].
      apply IH in H. destruct H; [left; now right|now right].
Qed.

Lemma in_delete (V : Type) (k : jsstring) (e : jsstring * V)
    (m : Collection V) :
  In e (delete k m) -> In e m.
Proof.
  induction m as [|[k1 v1] m IH]; simpl; [tauto|].
  destruct (jsstring_eqb k k1); simpl; tauto.
Qed.

Section RegistrationRoundTrip.

Import PackTree.

Variable W : Type.
Variable generateCombinations : jsstring -> list jsstring.

Lemma registered_id_of (c : registration W) :
  i_id (interaction_of generateCombinations c) = registered_id c.
Proof. destruct c; reflexivity. Qed.

(** A call that goes through is [register] of its interaction. *)
Lemma perform_registers (c : registration W) (p : Pack W) (r : Run W) :
  has (registered_id c) (data_interactions p) = false ->
  accepted generateCombinations c ->
  perform generateCombinations c p r
  = ((Normal tt,
      fst (register (interaction_of generateCombinations c) p r)),
     snd (register (interaction_of generateCombinations c) p r)).
Proof.
  intros H Hacc.
  destruct c as [cfg|cfg|cfg|cfg|cfg|cfg|cfg|cfg|cfg|cfg];
    cbn [perform registered_id accepted interaction_of] in *;
    unfold slashCommand, userContextMenu, messageContextMenu, contextMenu,
      button, stringSelectMenu, userSelectMenu, roleSelectMenu,
      channelSelectMenu, mentionableSelectMenu, modal, component;
    rewrite H; try rewrite Hacc; unfold bind, ret;
    match goal with |- context [register ?x p r] =>
      destruct (register x p r) as [p' r1]
    end; reflexivity.
Qed.

(** A call that is refused leaves the pack and the run as they were. *)
Lemma perform_refused (c : registration W) (p : Pack W) (r : Run W) :
  fst (fst (perform generateCombinations c p r)) <> Normal tt ->
  perform generateCombinations c p r
  = ((fst (fst (perform generateCombinations c p r)), p), r).
Proof.
  destruct c as [cfg|cfg|cfg|cfg|cfg|cfg|cfg|cfg|cfg|cfg];
    cbn [perform];
    unfold slashCommand, userContextMenu, messageContextMenu, contextMenu,
      button, stringSelectMenu, userSelectMenu, roleSelectMenu,
      channelSelectMenu, mentionableSelectMenu, modal, component;
    match goal with |- context [has ?k ?m] => destruct (has k m) end;
    try (intros _; reflexivity);
    try match goal with |- context [isSlashCommandValid ?a ?b] =>
      destruct (isSlashCommandValid a b); [intros _; reflexivity|]
    end;
    unfold bind, ret;
    match goal with |- context [register ?x p r] =>
      destruct (register x p r) as [p' r1]
    end; cbn [fst snd]; intros Hne; now destruct Hne.
Qed.

Lemma register_interactions (x : Interaction W) (p : Pack W) (r : Run W) :
  data_interactions (fst (register x p r))
  = set (i_id x) x (data_interactions p).
Proof.
  unfold register, bind, ret.
  match goal with |- context [emitEvent ?ev ?args ?p1 r] =>
    pose proof (emitEvent_keeps_interactions ev args p1 r) as H;
    destruct (emitEvent ev args p1 r) as [[res p'] r1]
  end.
  cbn [fst snd] in *. now rewrite H.
Qed.

Lemma unregister_interactions (id : jsstring) (type : InteractionType)
    (p : Pack W) (r : Run W) :
  data_interactions (fst (unregister id type p r))
  = delete id (data_interactions p).
Proof.
  unfold unregister, bind, ret.
  match goal with |- context [emitEvent ?ev ?args ?p1 r] =>
    pose proof (emitEvent_keeps_interactions ev args p1 r) as H;
    destruct (emitEvent ev args p1 r) as [[res p'] r1]
  end.
  cbn [fst snd] in *. now rewrite H.
Qed.

End RegistrationRoundTrip.

(** X19: a registration that goes through, followed by the disposer it
    returned, leaves the pack's interactions as they were, so that the
    same registration can be made again. *)
Theorem registration_then_dispose_restores :
  forall (W : Type) (generateCombinations : jsstring -> list jsstring)
         (c : PackTree.registration W) (p : PackTree.Pack W) (r : Run W),
    has (PackTree.registered_id c) (PackTree.data_interactions p) = false ->
    PackTree.accepted generateCombinations c ->
    let done := PackTree.perform generateCombinations c p r in
    let undone :=
      PackTree.dispose generateCombinations c (snd (fst done)) (snd done) in
    fst (fst done) = Normal tt /\
    get (PackTree.registered_id c)
      (PackTree.data_interactions (snd (fst done)))
      = Some (PackTree.interaction_of generateCombinations c) /\
    PackTree.data_interactions (fst undone) = PackTree.data_interactions p /\
    fst (fst (PackTree.perform generateCombinations c (fst undone)
                (snd undone)))
      = Normal tt.
Proof.
  intros W generateCombinations c p r Hfresh Hacc done undone.
  assert (Hd : done
               = ((Normal tt,
                   fst (PackTree.register
                          (PackTree.interaction_of generateCombinations c)
                          p r)),
                  snd (PackTree.register
                         (PackTree.interaction_of generateCombinations c)
                         p r))).
  { unfold done. now apply perform_registers. }
  assert (Hi : PackTree.data_interactions (snd (fst done))
               = set (PackTree.registered_id c)
                   (PackTree.interaction_of generateCombinations c)
                   (PackTree.data_interactions p)).
  { rewrite Hd. cbn [fst snd]. rewrite register_interactions.
    now rewrite registered_id_of. }
  assert (Hnone : get (PackTree.registered_id c)
                    (PackTree.data_interactions p) = None).
  { unfold has in Hfresh.
    destruct (get (PackTree.registered_id c) (PackTree.data_interactions p));
      [discriminate|reflexivity]. }
  assert (Hu : PackTree.data_interactions (fst undone)
               = PackTree.data_interactions p).
  { unfold undone, PackTree.dispose. rewrite unregister_interactions, Hi.
    now apply delete_set_fresh. }
  split; [now rewrite Hd|]. split; [|split].
  - rewrite Hi. apply get_set_same.
  - exact Hu.
  - apply perform_fresh; [|exact Hacc]. now rewrite Hu.
Qed.

Lemma registration_then_dispose_restores_witness :
  has (js "pong") (PackTree.data_interactions PackExample.with_ping) = false /\
  PackTree.accepted Pattern.generateCombinations
    (PackTree.CallSlashCommand (PackExample.slash "pong" "pong (now)?" 23)) /\
  PackTree.data_interactions
    (fst (PackTree.dispose Pattern.generateCombinations
            (PackTree.CallSlashCommand
               (PackExample.slash "pong" "pong (now)?" 23))
            (snd (fst (PackTree.perform Pattern.generateCombinations
                         (PackTree.CallSlashCommand
                            (PackExample.slash "pong" "pong (now)?" 23))
                         PackExample.with_ping PackExample.start)))
            (snd (PackTree.perform Pattern.generateCombinations
                    (PackTree.CallSlashCommand
                       (PackExample.slash "pong" "pong (now)?" 23))
                    PackExample.with_ping PackExample.start))))
  = PackTree.data_interactions PackExample.with_ping.
Proof.
  assert (Hf : has (js "pong")
                 (PackTree.data_interactions PackExample.with_ping) = false)
    by reflexivity.
  assert (Ha : PackTree.accepted Pattern.generateCombinations
                 (PackTree.CallSlashCommand
                    (PackExample.slash "pong" "pong (now)?" 23)))
    by reflexivity.
  split; [exact Hf|]. split; [exact Ha|].
  exact (proj1 (proj2 (proj2
           (@registration_then_dispose_restores unit
              Pattern.generateCombinations
              (PackTree.CallSlashCommand
                 (PackExample.slash "pong" "pong (now)?" 23))
              PackExample.with_ping PackExample.start Hf Ha)))).
Defined.

(** X20: the registration methods and their disposers keep a pack's
    interactions in order: each id once, and every interaction under its
    own id, whether a call goes through or throws. *)
Theorem registrations_stay_keyed :
  forall (W : Type) (generateCombinations : jsstring -> list jsstring)
         (c : PackTree.registration W) (p : PackTree.Pack W) (r : Run W),
    PackTree.keyed p ->
    NoDup (keys (PackTree.data_interactions p)) ->
    let p1 := snd (fst (PackTree.perform generateCombinations c p r)) in
    let p2 := fst (PackTree.dispose generateCombinations c p r) in
    (PackTree.keyed p1 /\ NoDup (keys (PackTree.data_interactions p1))) /\
    (PackTree.keyed p2 /\ NoDup (keys (PackTree.data_interactions p2))).
Proof.
  intros W generateCombinations c p r Hk Hn p1 p2. split.
  - destruct (has (PackTree.registered_id c) (PackTree.data_interactions p))
      eqn:Hh.
    + destruct (perform_duplicate generateCombinations c p r Hh)
        as [e [He _]].
      unfold p1. rewrite He. cbn [fst snd]. now split.
    + assert (Hcase :
        p1 = p \/
        PackTree.data_interactions p1
        = set (PackTree.registered_id c)
            (PackTree.interaction_of generateCombinations c)
            (PackTree.data_interactions p)).
      { unfold p1.
        destruct c as [cfg|cfg|cfg|cfg|cfg|cfg|cfg|cfg|cfg|cfg];
          try (right;
               rewrite (@perform_registers W generateCombinations _ p r Hh I);
               cbn [fst snd]; rewrite register_interactions;
               reflexivity).
        destruct (PackTree.isSlashCommandValid cfg
                    (generateCombinations (PackTree.slash_name cfg)))
          as [e|] eqn:Ev.
        - left. cbn [PackTree.perform PackTree.registered_id] in *.
          unfold PackTree.slashCommand. now rewrite Hh, Ev.
        - right.
          rewrite (@perform_registers W generateCombinations
                     (PackTree.CallSlashCommand cfg) p r Hh Ev).
          cbn [fst snd]. rewrite register_interactions. reflexivity. }
      destruct Hcase as [->|Hi]; [now split|]. split.
      * intros k x Hin. unfold PackTree.keyed in Hk. rewrite Hi in Hin.
        apply in_set_key in Hin. destruct Hin as [Hin|[-> ->]].
        -- now apply Hk.
        -- apply registered_id_of.
      * rewrite Hi. now apply NoDup_keys_set.
  - assert (Hi : PackTree.data_interactions p2
                 = delete (PackTree.registered_id c)
                     (PackTree.data_interactions p)).
    { unfold p2, PackTree.dispose. apply unregister_interactions. }
    split.
    + intros k x Hin. rewrite Hi in Hin. apply in_delete in Hin.
      now apply Hk.
    + rewrite Hi. now apply NoDup_keys_delete.
Qed.

Lemma registrations_stay_keyed_witness :
  PackTree.keyed PackExample.with_ping /\
  NoDup (keys (PackTree.data_interactions PackExample.with_ping)) /\
  PackTree.keyed
    (snd (fst (PackTree.perform Pattern.generateCombinations
                 (PackTree.CallButton PackExample.ping_button)
                 PackExample.with_ping PackExample.start))).
Proof.
  assert (Hk : PackTree.keyed PackExample.with_ping).
  { intros k x Hin. vm_compute in Hin.
    destruct Hin as [[= <- <-]|[]]. reflexivity. }
  assert (Hn : NoDup (keys (PackTree.data_interactions
                              PackExample.with_ping))).
  { vm_compute. repeat constructor; simpl; intuition discriminate. }
  split; [exact Hk|]. split; [exact Hn|].
  exact (proj1 (proj1
           (@registrations_stay_keyed unit Pattern.generateCombinations
              (PackTree.CallButton PackExample.ping_button)
              PackExample.with_ping PackExample.start Hk Hn))).
Defined.

(* ------------------------------------------------------------------ *)
(** ** The cache and what it is built from *)

Lemma in_stored (T : Type) (e : jsstring * T) (l : list (jsstring * T)) :
  forall acc : Collection T,
    In e (fold_left (@store T) l acc) -> In e l \/ In e acc.
Proof.
  induction l as [|x l IH]; intros acc H; cbn [fold_left] in H.
  - now right.
  - apply IH in H. destruct H as [H|H]; [left; now right|].
    unfold store in H. destruct e as [k v]. apply in_set_key in H.
    destruct H as [H|[-> ->]]; [now right|].
    left. left. now destruct x.
Qed.

Lemma has_in_keys (T : Type) (k : jsstring) (m : Collection T) :
  has k m = true <-> In k (keys m).
Proof.
  unfold has. destruct (get k m) eqn:E.
  - split; [intros _|reflexivity].
    destruct (in_keys_dec k m) as [H|H]; [exact H|].
    apply get_none_not_in in H. congruence.
  - split; [discriminate|]. intros H. apply get_none_not_in in E.
    contradiction.
Qed.

Section CacheContents.

Import PackTree Root.

Variable W : Type.

Lemma in_registrations (p : Pack W) :
  forall (path : list jsstring) (k : jsstring)
         (e : CacheData (Interaction W)),
    In (k, e) (registrations p path) ->
    exists q, In q (preorder p) /\ In (k, data e) (data_interactions q).
Proof.
  induction p as [id locs subs ints evs insps em IH] using Pack_tree_ind.
  intros path k e H.
  cbn [registrations data_interactions data_subPacks pack_id] in H.
  apply in_app_or in H. destruct H as [H|H].
  - apply in_map_iff in H. destruct H as [[k0 x] [[= <- <-] Hx]].
    exists (mkPack id locs subs ints evs insps em). split; [now left|].
    exact Hx.
  - apply in_flat_map in H. destruct H as [[k0 sp] [Hsp H]].
    rewrite Forall_forall in IH. destruct (IH _ Hsp _ _ _ H) as [q [Hq Hin]].
    exists q. split; [|exact Hin]. cbn [preorder data_subPacks]. right.
    apply in_flat_map. exists (k0, sp). now split.
Qed.

Lemma registrations_cover (p : Pack W) :
  forall (path : list jsstring) (q : Pack W) (k : jsstring),
    In q (preorder p) -> In k (keys (data_interactions q)) ->
    In k (keys (registrations p path)).
Proof.
  induction p as [id locs subs ints evs insps em IH] using Pack_tree_ind.
  intros path q k Hq Hk. unfold keys.
  cbn [registrations data_interactions data_subPacks pack_id].
  rewrite map_app. apply in_or_app.
  cbn [preorder data_subPacks] in Hq. destruct Hq as [<-|Hq].
  - left. rewrite map_map. exact Hk.
  - right. apply in_flat_map in Hq. destruct Hq as [[k0 sp] [Hsp Hq]].
    rewrite Forall_forall in IH.
    specialize (IH _ Hsp (path ++ [id]) q k Hq Hk).
    unfold keys in IH. apply in_map_iff in IH.
    destruct IH as [[k1 e1] [Ek Hin]]. apply in_map_iff.
    exists (k1, e1). split; [exact Ek|].
    apply in_flat_map. exists (k0, sp). now split.
Qed.

Lemma refresh_cache (defaultify : LocaleStore.ContentTree
                                  -> LocaleStore.ContentTree
                                  -> LocaleStore.ContentTree)
    (t : Tessen W) (r : Run W) :
  cache (fst (refresh defaultify t r)) = pushCache (root t) [] (cleared W)
  /\ defaults_language (fst (refresh defaultify t r)) = defaults_language t.
Proof.
  unfold refresh, bind, ret.
  destruct (emitEvent (js "tessen:cacheRefreshed") [] (root t) r)
    as [[res1 root1] r1].
  match goal with |- context [emitEvent ?ev ?args root1 r1] =>
    destruct (emitEvent ev args root1 r1) as [[res2 root2] r2]
  end.
  now split.
Qed.

Lemma refresh_root (defaultify : LocaleStore.ContentTree
                                 -> LocaleStore.ContentTree
                                 -> LocaleStore.ContentTree)
    (t : Tessen W) (r : Run W) :
  exists ev1 args1 r1 ev2 args2 r2,
    root (fst (refresh defaultify t r))
    = snd (fst (emitEvent ev2 args2
                  (snd (fst (emitEvent ev1 args1 (root t) r1))) r2)).
Proof.
  unfold refresh, bind, ret.
  destruct (emitEvent (js "tessen:cacheRefreshed") [] (root t) r)
    as [[res1 root1] r1] eqn:E1.
  match goal with |- context [emitEvent ?ev ?args root1 r1] =>
    exists (js "tessen:cacheRefreshed"), [], r, ev, args, r1;
    destruct (emitEvent ev args root1 r1) as [[res2 root2] r2] eqn:E2
  end.
  rewrite E1. cbn [fst snd root]. now rewrite E2.
Qed.

Lemma refreshed_interactions (defaultify : LocaleStore.ContentTree
                                           -> LocaleStore.ContentTree
                                           -> LocaleStore.ContentTree)
    (t : Tessen W) (r : Run W) :
  cache_interactions (cache (fst (refresh defaultify t r)))
  = fold_left (@store (CacheData (Interaction W)))
      (registrations (root t) []) [].
Proof.
  rewrite (proj1 (refresh_cache defaultify t r)).
  apply cache_interactions_pushCache.
Qed.

Lemma refresh_cache_keyed (defaultify : LocaleStore.ContentTree
                                        -> LocaleStore.ContentTree
                                        -> LocaleStore.ContentTree)
    (t : Tessen W) (r : Run W) :
  (forall p, In p (preorder (root t)) -> keyed p) ->
  cache_keyed (cache (fst (refresh defaultify t r))).
Proof.
  intros Hk k e Hin. rewrite refreshed_interactions in Hin.
  apply in_stored in Hin. destruct Hin as [Hin|[]].
  apply in_registrations in Hin. destruct Hin as [q [Hq Hx]].
  exact (Hk q Hq k (data e) Hx).
Qed.

(** [pushCache] after an emission sees the registry data it saw
    before. *)
Lemma pushCache_after_emitEvent (p : Pack W) :
  forall (ev : jsstring) (args : jsargs) (r : Run W) (path : list jsstring)
         (c c' : Cache W),
    same_registry c c' ->
    same_registry (pushCache (snd (fst (emitEvent ev args p r))) path c)
                  (pushCache p path c').
Proof.
  induction p as [id locs subs ints evs insps em IH] using Pack_tree_ind.
  intros ev args r path c c' [H1 [H2 [H3 H4]]].
  cbn [emitEvent]. unfold bind, ret.
  destruct (Emitter.emit ev args em r) as [[res em'] r1].
  assert (Hsubs : forall r0 (c0 c0' : Cache W),
    same_registry c0 c0' ->
    same_registry
      (pushCache_subPacks (fun subPack => pushCache subPack (path ++ [id]))
         path (snd (fst (forEach_subPacks (emitEvent ev args) subs r0))) c0)
      (pushCache_subPacks (fun subPack => pushCache subPack (path ++ [id]))
         path subs c0')).
  { clear - IH. induction subs as [|[k sp] subs IHs]; intros r0 c0 c0' Hc.
    - exact Hc.
    - inversion IH as [|? ? Hsp Hrest]; subst. cbn [snd] in Hsp.
      cbn [forEach_subPacks]. unfold bind, ret.
      specialize (Hsp ev args r0 (path ++ [id])).
      destruct (emitEvent ev args sp r0) as [[rs sp'] r1].
      specialize (IHs Hrest r1).
      destruct (forEach_subPacks (emitEvent ev args) subs r1)
        as [[rr subs'] r2].
      cbn [fst snd pushCache_subPacks] in *.
      apply IHs. apply Hsp.
      destruct Hc as [G1 [G2 [G3 G4]]].
      unfold same_registry. cbn. auto. }
  specialize (Hsubs r1).
  destruct (forEach_subPacks (emitEvent ev args) subs r1)
    as [[rr subs'] r2].
  cbn [fst snd pushCache] in *. apply Hsubs.
  unfold same_registry. cbn. rewrite H1, H2, H3, H4. auto.
Qed.

End CacheContents.

(** X21: [refresh] is idempotent on what it derives: a second refresh
    of the refreshed root, with the tree not touched in between, caches
    the same locales, interactions, events and inspectors and computes
    the same contents per language, although the emissions of the first
    may have removed one-shot listeners. *)
Theorem refresh_is_idempotent :
  forall (W : Type)
         (defaultify : LocaleStore.ContentTree -> LocaleStore.ContentTree
                       -> LocaleStore.ContentTree)
         (t : Root.Tessen W) (r r' : Run W),
    let once := fst (Root.refresh defaultify t r) in
    let twice := fst (Root.refresh defaultify once r') in
    Root.same_registry (Root.cache twice) (Root.cache once) /\
    Root.locales_content twice = Root.locales_content once.
Proof.
  intros W defaultify t r r' once twice.
  assert (Hsame : Root.same_registry (Root.cache twice) (Root.cache once)).
  { unfold twice. rewrite (proj1 (refresh_cache defaultify once r')).
    unfold once at 2. rewrite (proj1 (refresh_cache defaultify t r)).
    destruct (refresh_root defaultify t r)
      as [ev1 [args1 [r1 [ev2 [args2 [r2 Hroot]]]]]].
    fold once in Hroot. rewrite Hroot.
    assert (H0 : Root.same_registry (Root.cleared W) (Root.cleared W))
      by (repeat split).
    pose proof (pushCache_after_emitEvent (Root.root t) ev1 args1 r1 [] H0)
      as Ha.
    pose proof (pushCache_after_emitEvent
                  (snd (fst (PackTree.emitEvent ev1 args1 (Root.root t) r1)))
                  ev2 args2 r2 [] H0) as Hb.
    destruct Ha as [A1 [A2 [A3 A4]]]. destruct Hb as [B1 [B2 [B3 B4]]].
    repeat split; congruence. }
  split; [exact Hsame|].
  unfold twice. rewrite locales_content_refresh.
  unfold once at 3. rewrite locales_content_refresh.
  destruct Hsame as [Hl _].
  unfold twice in Hl. rewrite (proj1 (refresh_cache defaultify once r')) in Hl.
  unfold once at 2 in Hl.
  rewrite (proj1 (refresh_cache defaultify t r)) in Hl.
  rewrite Hl. unfold Root.defaultLanguage.
  unfold once at 1. now rewrite (proj2 (refresh_cache defaultify t r)).
Qed.

(** X22: after [refresh] the interaction cache holds an id exactly when
    some pack of the tree has an interaction under it, and what it holds
    under an id is an interaction that a pack of the tree has under that
    id; so with every pack keyed by id the cache is keyed by id too. *)
Theorem cache_holds_every_registered_id :
  forall (W : Type)
         (defaultify : LocaleStore.ContentTree -> LocaleStore.ContentTree
                       -> LocaleStore.ContentTree)
         (t : Root.Tessen W) (r : Run W),
    let cached :=
      Root.cache_interactions (Root.cache (fst (Root.refresh defaultify t r)))
    in
    (forall id,
        has id cached = true
        <-> exists p, In p (PackTree.preorder (Root.root t)) /\
                      has id (PackTree.data_interactions p) = true) /\
    (forall id e,
        get id cached = Some e ->
        exists p, In p (PackTree.preorder (Root.root t)) /\
                  In (id, Root.data e) (PackTree.data_interactions p)) /\
    ((forall p, In p (PackTree.preorder (Root.root t)) -> PackTree.keyed p) ->
     Root.cache_keyed (Root.cache (fst (Root.refresh defaultify t r)))).
Proof.
  intros W defaultify t r cached.
  assert (Hc : cached
               = fold_left (@store (Root.CacheData (PackTree.Interaction W)))
                   (Root.registrations (Root.root t) []) []).
  { apply refreshed_interactions. }
  split; [|split].
  - intros id. rewrite has_in_keys. split.
    + intros Hin. unfold keys in Hin. apply in_map_iff in Hin.
      destruct Hin as [[k e] [Ek Hin]]. cbn [fst] in Ek. subst k.
      rewrite Hc in Hin. apply in_stored in Hin. destruct Hin as [Hin|[]].
      apply in_registrations in Hin. destruct Hin as [q [Hq Hx]].
      exists q. split; [exact Hq|]. apply has_in_keys.
      unfold keys. apply in_map_iff. now exists (id, Root.data e).
    + intros [q [Hq Hh]]. apply has_in_keys in Hh.
      pose proof (registrations_cover (Root.root t) [] q id Hq Hh) as Hm.
      destruct (get id cached) eqn:Eg.
      * apply get_in in Eg. unfold keys. apply in_map_iff.
        eexists. split; [|exact Eg]. reflexivity.
      * exfalso. rewrite Hc, get_stored in Eg.
        unfold Root.last_under in Eg.
        destruct (get id (rev (Root.registrations (Root.root t) []))) eqn:Er;
          [discriminate|].
        apply get_none_not_in in Er. apply Er.
        unfold keys in *. rewrite map_rev. apply in_rev.
        now rewrite rev_involutive.
  - intros id e Hg. apply get_in in Hg. rewrite Hc in Hg.
    apply in_stored in Hg. destruct Hg as [Hg|[]].
    now apply in_registrations in Hg.
  - apply refresh_cache_keyed.
Qed.

Lemma cache_holds_every_registered_id_witness :
  (forall p, In p (PackTree.preorder (Root.root ComponentExample.tessen)) ->
             PackTree.keyed p) /\
  Root.cache_keyed (Root.cache ComponentExample.refreshed).
Proof.
  assert (Hk : forall p,
             In p (PackTree.preorder (Root.root ComponentExample.tessen)) ->
             PackTree.keyed p).
  { intros p Hp. vm_compute in Hp. destruct Hp as [<-|[<-|[]]].
    - intros k x [].
    - intros k x Hin. vm_compute in Hin.
      destruct Hin as [[= <- <-]|[]]. reflexivity. }
  split; [exact Hk|].
  exact (proj2 (proj2
           (@cache_holds_every_registered_id unit Stuffs.defaultify
              ComponentExample.tessen RootExample.start)) Hk).
Defined.

(* ------------------------------------------------------------------ *)
(** ** Dispatch of components *)

Section ComponentDispatch.

Import PackTree Root.

Variable W : Type.

Lemma InteractionType_eqb_eq (a b : InteractionType) :
  InteractionType_eqb a b = true <-> a = b.
Proof. destruct a, b; simpl; split; intros H; congruence. Qed.

Lemma is_component_match_iff (type : InteractionType) (id : jsstring)
    (x : Interaction W) :
  is_component_match type id x = true <-> i_type x = type /\ i_id x = id.
Proof.
  unfold is_component_match.
  now rewrite andb_true_iff, InteractionType_eqb_eq, jsstring_eqb_eq.
Qed.

(** In a cache keyed by id, the search by type and id finds what the
    cache holds under the id. *)
Lemma find_component (type : InteractionType) (id : jsstring)
    (m : Collection (CacheData (Interaction W)))
    (entry : CacheData (Interaction W)) :
  (forall k e, In (k, e) m -> i_id (data e) = k) ->
  get id m = Some entry ->
  i_type (data entry) = type ->
  find (fun e => is_component_match type id (data (snd e))) m
  = Some (id, entry).
Proof.
  intros Hk Hg Ht. induction m as [|[k0 e0] m IH]; [discriminate|].
  cbn [get find snd] in *.
  assert (Hid : i_id (data e0) = k0) by (apply Hk; now left).
  destruct (jsstring_eqb id k0) eqn:E.
  - apply jsstring_eqb_eq in E. subst k0. injection Hg as ->.
    assert (Hm : is_component_match type id (data entry) = true)
      by now apply is_component_match_iff.
    now rewrite Hm.
  - assert (Hm : is_component_match type id (data e0) = false).
    { destruct (is_component_match type id (data e0)) eqn:Em;
        [|reflexivity].
      apply is_component_match_iff in Em. destruct Em as [_ Em].
      apply jsstring_eqb_neq in E. congruence. }
    rewrite Hm. apply IH; [|exact Hg].
    intros k e Hin. apply Hk. now right.
Qed.

Lemma find_no_component (type : InteractionType) (id : jsstring)
    (m : Collection (CacheData (Interaction W))) :
  (forall k e, In (k, e) m -> i_id (data e) = k) ->
  NoDup (keys m) ->
  (forall entry, get id m = Some entry -> i_type (data entry) <> type) ->
  find (fun e => is_component_match type id (data (snd e))) m = None.
Proof.
  intros Hk Hn Hno. apply find_all_false. intros [k e] Hin. cbn [snd].
  destruct (is_component_match type id (data e)) eqn:Em; [|reflexivity].
  apply is_component_match_iff in Em. destruct Em as [Et Ei].
  assert (k = id) by (rewrite <- Ei; symmetry; now apply Hk). subst k.
  exfalso. apply (Hno e); [|exact Et]. now apply get_of_in.
Qed.

End ComponentDispatch.

Lemma parsed_base_id (number : Type) (toString : number -> jsstring)
    (Number : jsstring -> number) (baseId : jsstring)
    (d : option (list (Codec.CustomDataValue number)))
    (enc : option (Codec.CustomDataEncodeEventData number
                   -> Codec.CustomDataEncodeEventData number))
    (dec : option (Codec.CustomDataDecodeEventData number
                   -> Codec.CustomDataDecodeEventData number)) :
  Codec.no_separator baseId ->
  Codec.id
    (Codec.parseCustomDataSync Number
       (Codec.encodeCustomDataSync toString baseId d enc) dec)
  = baseId.
Proof.
  intros Hn. rewrite parsed_id_is_head, encoded_head.
  now rewrite (split_without_separator _ _ Hn).
Qed.

(** X23: a component whose custom id was made by [encodeCustomDataSync]
    from the base id [baseId] and any data comes back, once the handler
    has parsed it, to the interaction cached under [baseId]: in a cache
    keyed by id, if that interaction has the handler's type its handle
    is the one call made, and a throw or rejection of it is what the
    handler ends with; if no interaction of that type is cached under
    [baseId], no pack handler is called and the inspectors are asked
    for [baseId]. *)
Theorem component_dispatch_by_base_id :
  forall (W number : Type) (toString : number -> jsstring)
         (Number : jsstring -> number) (t : Root.Tessen W)
         (type : PackTree.InteractionType) (kind : Inspector.EmitType)
         (baseId : jsstring)
         (d : option (list (Codec.CustomDataValue number)))
         (enc : option (Codec.CustomDataEncodeEventData number
                        -> Codec.CustomDataEncodeEventData number))
         (dec : option (Codec.CustomDataDecodeEventData number
                        -> Codec.CustomDataDecodeEventData number))
         (wrapper : jsargs) (r : Run W),
    Root.cache_keyed (Root.cache t) ->
    NoDup (keys (Root.cache_interactions (Root.cache t))) ->
    Codec.no_separator baseId ->
    let parsed :=
      Codec.parseCustomDataSync Number
        (Codec.encodeCustomDataSync toString baseId d enc) dec in
    let run :=
      Root.handleComponentInteraction type kind t (Codec.id parsed)
        wrapper r in
    (forall entry,
        get baseId (Root.cache_interactions (Root.cache t)) = Some entry ->
        PackTree.i_type (Root.data entry) = type ->
        Emitter.calls_between r (snd run)
          = [fn_ref (PackTree.i_handle (Root.data entry))] /\
        fst run
          = match awaited
                    (fst (fn_run (PackTree.i_handle (Root.data entry))
                            wrapper (world r))) with
            | inl _ => Normal tt
            | inr e => Thrown e
            end) /\
    ((forall entry,
         get baseId (Root.cache_interactions (Root.cache t)) = Some entry ->
         PackTree.i_type (Root.data entry) <> type) ->
     run
     = (_ <- Root.tryInspectorsFor kind baseId wrapper
               (Root.cache_inspectors (Root.cache t)) ;;
        ret (Normal tt)) r).
Proof.
  intros W number toString Number t type kind baseId d enc dec wrapper r
         Hk Hn Hsep parsed run.
  assert (Hid : Codec.id parsed = baseId) by now apply parsed_base_id.
  unfold run. rewrite Hid.
  unfold Root.handleComponentInteraction, Root.dispatch. split.
  - intros entry Hg Ht.
    rewrite (@find_component W type baseId _ entry Hk Hg Ht).
    unfold bind, ret, call.
    destruct (fn_run (PackTree.i_handle (Root.data entry)) wrapper (world r))
      as [o w'].
    cbn [fst snd]. split; [now apply calls_between_app|reflexivity].
  - intros Hno. now rewrite (@find_no_component W type baseId _ Hk Hn Hno).
Qed.

Lemma component_dispatch_by_base_id_witness :
  Root.cache_keyed (Root.cache ComponentExample.refreshed) /\
  NoDup (keys (Root.cache_interactions
                 (Root.cache ComponentExample.refreshed))) /\
  Codec.no_separator (js "vote") /\
  Emitter.calls_between RootExample.start
    (snd (Root.handleButtonInteraction ComponentExample.refreshed
            (Codec.id
               (Codec.parseCustomDataSync IntNumber.Number
                  (Codec.encodeCustomDataSync IntNumber.toString (js "vote")
                     (Some [Codec.VString (js "yes"); Codec.VNumber 7%Z])
                     None) None))
            [js "vote"] RootExample.start))
  = [60].
Proof.
  assert (Hk : Root.cache_keyed (Root.cache ComponentExample.refreshed)).
  { intros k e Hin. vm_compute in Hin.
    destruct Hin as [[= <- <-]|[]]. reflexivity. }
  assert (Hn : NoDup (keys (Root.cache_interactions
                              (Root.cache ComponentExample.refreshed)))).
  { vm_compute. repeat constructor; simpl; intuition discriminate. }
  assert (Hs : Codec.no_separator (js "vote")).
  { vm_compute. intuition discriminate. }
  split; [exact Hk|]. split; [exact Hn|]. split; [exact Hs|].
  exact (proj1 (proj1
           (@component_dispatch_by_base_id unit Z IntNumber.toString
              IntNumber.Number ComponentExample.refreshed PackTree.Button
              Inspector.button (js "vote")
              (Some [Codec.VString (js "yes"); Codec.VNumber 7%Z])
              None None [js "vote"] RootExample.start Hk Hn Hs)
           _ eq_refl eq_refl)).
Defined.

(* ------------------------------------------------------------------ *)
(** ** Localization objects *)

(** A string is empty, begins with the separator, or begins with a
    non-empty part free of the separator that is all of it or is
    followed by the separator. *)
Lemma leading_part (sep : code_unit) (s : jsstring) :
  s = []
  \/ (exists rest, s = sep :: rest)
  \/ (exists part,
        part <> [] /\ ~ In sep part /\
        (s = part \/ exists rest, s = part ++ sep :: rest)).
Proof.
  induction s as [|c s IH]; [now left|]. right.
  destruct (N.eqb_spec c sep) as [->|Hc]; [left; now exists s|]. right.
  destruct IH as [->|[[rest ->]|[part [Hne [Hfree Hs]]]]].
  - exists [c]. split; [discriminate|]. split; [|now left].
    intros [E|[]]. now apply Hc.
  - exists [c]. split; [discriminate|]. split; [|right; now exists rest].
    intros [E|[]]. now apply Hc.
  - exists (c :: part). split; [discriminate|]. split.
    + intros [E|Hin]; [now apply Hc|now apply Hfree].
    + destruct Hs as [->|[rest ->]]; [now left|right; now exists rest].
Qed.

(** X24: the localization an interaction gets.  A locale such as ["tr"]
    or ["tr-TR"], with a non-empty base language before any dash,
    selects the content of that base language, and the default
    language's content (an empty object when there is none) when the
    content map has none for it: so the user's localization is chosen
    from the interaction's locale whatever the guild prefers, and the
    guild's from the guild's preferred locale whatever the interaction
    says.  A locale that is missing, empty or begins with a dash has no
    base language: for the guild it selects the default language's
    content, and for the interaction it gives the user the guild's
    localization.  Every locale is of one of these shapes. *)
Theorem user_localization_falls_back_to_default :
  forall (W : Type) (t : Root.Tessen W),
    let byDefault :=
      match get (Root.defaultLanguage t) (Root.locales_content t) with
      | Some c => c
      | None => []
      end in
    let selected (lang : jsstring) :=
      match get lang (Root.locales_content t) with
      | Some c => c
      | None => byDefault
      end in
    let user (preferredLocale interactionLocale : option jsstring) :=
      Root.locale_user
        (Root.createInteractionLocalizationObjects t preferredLocale
           interactionLocale) in
    let guild (preferredLocale interactionLocale : option jsstring) :=
      Root.locale_guild
        (Root.createInteractionLocalizationObjects t preferredLocale
           interactionLocale) in
    (forall (lang region : jsstring) (other : option jsstring),
        lang <> [] -> ~ In Root.DASH lang ->
        user other (Some lang) = selected lang /\
        user other (Some (lang ++ Root.DASH :: region)) = selected lang /\
        guild (Some lang) other = selected lang /\
        guild (Some (lang ++ Root.DASH :: region)) other = selected lang) /\
    (forall (region : jsstring) (other : option jsstring),
        guild None other = byDefault /\
        guild (Some []) other = byDefault /\
        guild (Some (Root.DASH :: region)) other = byDefault /\
        user other None = guild other None /\
        user other (Some []) = guild other (Some []) /\
        user other (Some (Root.DASH :: region))
        = guild other (Some (Root.DASH :: region))) /\
    (forall locale : jsstring,
        locale = []
        \/ (exists region, locale = Root.DASH :: region)
        \/ (exists lang,
              lang <> [] /\ ~ In Root.DASH lang /\
              (locale = lang
               \/ exists region, locale = lang ++ Root.DASH :: region))).
Proof.
  intros W t byDefault selected user guild.
  split; [|split; [|intros locale; apply leading_part]].
  - intros lang region other Hne Hd.
    assert (H1 : Root.base_language (Some lang) = Some lang).
    { unfold Root.base_language. now rewrite split_without_separator. }
    assert (H2 : Root.base_language (Some (lang ++ Root.DASH :: region))
                 = Some lang).
    { unfold Root.base_language. now rewrite split_app_separator. }
    assert (H3 : forall b, Root.or_else (Some lang) b = lang).
    { intros b. destruct lang; [now destruct Hne|reflexivity]. }
    unfold user, guild, Root.createInteractionLocalizationObjects.
    cbn [Root.locale_user Root.locale_guild].
    rewrite H1, H2, !H3. repeat split; reflexivity.
  - intros region other.
    assert (H1 : Root.base_language (Some (Root.DASH :: region)) = Some []).
    { unfold Root.base_language. cbn [split].
      now rewrite N.eqb_refl. }
    unfold user, guild, Root.createInteractionLocalizationObjects.
    cbn [Root.locale_user Root.locale_guild].
    rewrite H1. cbn [Root.base_language split hd Root.or_else].
    unfold byDefault.
    destruct (get (Root.defaultLanguage t) (Root.locales_content t));
      repeat split; reflexivity.
Qed.

Lemma user_localization_falls_back_to_default_witness :
  js "de" <> [] /\
  ~ In Root.DASH (js "de") /\
  Root.locale_user
    (Root.createInteractionLocalizationObjects RootExample.refreshed
       (Some (js "tr")) (Some (js "de-DE")))
  = [(js "a", LocaleStore.Node [(js "b", LocaleStore.Leaf (js "hello"))])].
Proof.
  assert (Hne : js "de" <> []) by discriminate.
  assert (Hd : ~ In Root.DASH (js "de")).
  { vm_compute. intuition discriminate. }
  split; [exact Hne|]. split; [exact Hd|].
  exact (proj1 (proj2
           (proj1 (@user_localization_falls_back_to_default unit
                     RootExample.refreshed)
              (js "de") (js "DE") (Some (js "tr")) Hne Hd))).
Defined.

(* ------------------------------------------------------------------ *)
(** ** Context menus, and the helpers of publishing *)

Section MenuDispatch.

Import PackTree Root.

Variable W : Type.

Lemma dispatch_outcome (test : Interaction W -> bool)
    (kind : Inspector.EmitType) (key : jsstring) (wrapper : jsargs)
    (t : Tessen W) (r : Run W) :
  (exists k e,
      In (k, e) (cache_interactions (cache t)) /\
      test (data e) = true /\
      Emitter.calls_between r (snd (dispatch test kind key wrapper t r))
        = [fn_ref (i_handle (data e))])
  \/ ((forall k e, In (k, e) (cache_interactions (cache t)) ->
                   test (data e) = false) /\
      dispatch test kind key wrapper t r
      = (_ <- tryInspectorsFor kind key wrapper (cache_inspectors (cache t)) ;;
         ret (Normal tt)) r).
Proof.
  unfold dispatch.
  destruct (find (fun entry => test (data (snd entry)))
                 (cache_interactions (cache t))) as [[k e]|] eqn:Ef.
  - left. exists k, e. apply find_some in Ef. destruct Ef as [Hin Ht].
    split; [exact Hin|]. split; [exact Ht|].
    unfold bind, ret, call.
    destruct (fn_run (i_handle (data e)) wrapper (world r)) as [o w'].
    cbn [snd]. now apply calls_between_app.
  - right. split; [|reflexivity].
    intros k e Hin. exact (find_none _ _ Ef (k, e) Hin).
Qed.

Lemma is_menu_match_iff (type : InteractionType) (name : jsstring)
    (x : Interaction W) :
  is_menu_match type name x = true <-> i_type x = type /\ i_name x = Some name.
Proof.
  unfold is_menu_match. rewrite andb_true_iff, InteractionType_eqb_eq.
  destruct (i_name x) as [n|].
  - rewrite jsstring_eqb_eq. split; intros [H1 H2]; split; congruence.
  - split; intros [H1 H2]; discriminate.
Qed.

End MenuDispatch.

(** X25: a context-menu command is dispatched by its name within its
    own type.  When some cached interaction has type [User] and that
    name, the user-menu handler calls exactly one handle, that of such
    an interaction; when none has, it calls no handle of the cache and
    asks the inspectors; so a slash command or a message menu with the
    same name is never called; and likewise for message menus. *)
Theorem context_menu_dispatch_stays_in_type :
  forall (W : Type) (t : Root.Tessen W) (commandName : jsstring) (r : Run W),
    let cached := Root.cache_interactions (Root.cache t) in
    ((exists k e,
         In (k, e) cached /\
         PackTree.i_type (Root.data e) = PackTree.User /\
         PackTree.i_name (Root.data e) = Some commandName /\
         Emitter.calls_between r
           (snd (Root.handleUserContextMenuCommand t commandName r))
           = [fn_ref (PackTree.i_handle (Root.data e))])
     \/ ((forall k e,
             In (k, e) cached ->
             ~ (PackTree.i_type (Root.data e) = PackTree.User /\
                PackTree.i_name (Root.data e) = Some commandName)) /\
         Root.handleUserContextMenuCommand t commandName r
         = (_ <- Root.tryInspectorsFor Inspector.userContextMenu commandName
                   [commandName] (Root.cache_inspectors (Root.cache t)) ;;
            ret (Normal tt)) r)) /\
    ((exists k e,
         In (k, e) cached /\
         PackTree.i_type (Root.data e) = PackTree.Message /\
         PackTree.i_name (Root.data e) = Some commandName /\
         Emitter.calls_between r
           (snd (Root.handleMessageContextMenuCommand t commandName r))
           = [fn_ref (PackTree.i_handle (Root.data e))])
     \/ ((forall k e,
             In (k, e) cached ->
             ~ (PackTree.i_type (Root.data e) = PackTree.Message /\
                PackTree.i_name (Root.data e) = Some commandName)) /\
         Root.handleMessageContextMenuCommand t commandName r
         = (_ <- Root.tryInspectorsFor Inspector.messageContextMenu
                   commandName [commandName]
                   (Root.cache_inspectors (Root.cache t)) ;;
            ret (Normal tt)) r)).
Proof.
  intros W t commandName r cached. split.
  - unfold Root.handleUserContextMenuCommand.
    destruct (dispatch_outcome (Root.is_menu_match PackTree.User commandName)
                Inspector.userContextMenu commandName [commandName] t r)
      as [[k [e [Hin [Ht Hc]]]]|[Hnone Hn]]; [left|right].
    + apply is_menu_match_iff in Ht. destruct Ht as [Ht Hname].
      exists k, e. auto.
    + split; [|exact Hn]. intros k e Hin Hm.
      apply is_menu_match_iff in Hm. rewrite (Hnone k e Hin) in Hm.
      discriminate.
  - unfold Root.handleMessageContextMenuCommand.
    destruct (dispatch_outcome
                (Root.is_menu_match PackTree.Message commandName)
                Inspector.messageContextMenu commandName [commandName] t r)
      as [[k [e [Hin [Ht Hc]]]]|[Hnone Hn]]; [left|right].
    + apply is_menu_match_iff in Ht. destruct Ht as [Ht Hname].
      exists k, e. auto.
    + split; [|exact Hn]. intros k e Hin Hm.
      apply is_menu_match_iff in Hm. rewrite (Hnone k e Hin) in Hm.
      discriminate.
Qed.

Lemma startsWith_app (prefix s : jsstring) :
  Publish.startsWith prefix s = true <-> exists rest, s = prefix ++ rest.
Proof.
  revert s. induction prefix as [|c prefix IH]; intros s; cbn.
  - split; [intros _; now exists s|reflexivity].
  - destruct s as [|d s].
    + split; [discriminate|]. intros [rest H]. discriminate H.
    + rewrite andb_true_iff, N.eqb_eq, IH. split.
      * intros [-> [rest ->]]. now exists rest.
      * intros [rest [= -> ->]]. split; [reflexivity|now exists rest].
Qed.

(** A string is its first part, or its first part, the separator and a
    rest. *)
Lemma split_first_part (sep : code_unit) (s : jsstring) :
  s = hd [] (split sep s)
  \/ exists rest, s = hd [] (split sep s) ++ sep :: rest.
Proof.
  induction s as [|c s IH]; [now left|].
  cbn [split]. destruct (N.eqb c sep) eqn:E.
  - apply N.eqb_eq in E. subst c. right. now exists s.
  - destruct (split sep s) as [|p ps] eqn:Es;
      [now destruct (split_nonempty sep s)|].
    cbn [hd] in *. destruct IH as [->|[rest ->]].
    + now left.
    + right. now exists rest.
Qed.

(** X26: [getDiscordLocales(l)], for a language code [l] without a
    dash, is the Discord locales whose base language (the part before
    the dash, which is what an interaction's locale is cut down to) is
    [l], in the order of [DISCORD_LOCALES]. *)
Theorem getDiscordLocales_by_base_language :
  forall (internalLocale discordLocale : jsstring),
    ~ In Root.DASH internalLocale ->
    (In discordLocale (Publish.getDiscordLocales internalLocale)
     <-> In discordLocale Publish.DISCORD_LOCALES /\
         Root.base_language (Some discordLocale) = Some internalLocale).
Proof.
  intros l d Hl. unfold Publish.getDiscordLocales, Root.base_language.
  rewrite filter_In, orb_true_iff, startsWith_app, jsstring_eqb_eq.
  split; intros [Hin H]; (split; [exact Hin|]).
  - f_equal. destruct H as [[rest ->]| ->].
    + rewrite <- app_assoc. cbn [app]. now rewrite split_app_separator.
    + now rewrite split_without_separator.
  - injection H as H.
    destruct (split_first_part Root.DASH d) as [Hd|[rest Hd]];
      rewrite H in Hd.
    + now right.
    + left. exists rest. rewrite <- app_assoc. exact Hd.
Qed.

Lemma getDiscordLocales_by_base_language_witness :
  ~ In Root.DASH (js "en") /\
  In (js "en-GB") (Publish.getDiscordLocales (js "en")).
Proof.
  assert (Hd : ~ In Root.DASH (js "en")).
  { vm_compute. intuition discriminate. }
  split; [exact Hd|].
  apply (proj2 (@getDiscordLocales_by_base_language (js "en") (js "en-GB")
                  Hd)).
  split; [|reflexivity]. vm_compute. tauto.
Defined.

Lemma capital_lowered (c : code_unit) :
  Publish.is_capital c = true -> Publish.is_capital (c + 32)%N = false.
Proof.
  unfold Publish.is_capital. rewrite andb_true_iff, !N.leb_le.
  intros [H1 H2]. apply andb_false_iff. right. apply N.leb_gt. lia.
Qed.

(** X27: [toSnakeCase] leaves no letter from A to Z, lengthens the
    string by one code unit per such letter, and applied again changes
    nothing. *)
Theorem toSnakeCase_leaves_no_capital :
  forall str : jsstring,
    forallb (fun c => negb (Publish.is_capital c)) (Publish.toSnakeCase str)
      = true /\
    length (Publish.toSnakeCase str)
      = length str + length (filter Publish.is_capital str) /\
    Publish.toSnakeCase (Publish.toSnakeCase str) = Publish.toSnakeCase str.
Proof.
  induction str as [|c str [IH1 [IH2 IH3]]]; [now repeat split|].
  unfold Publish.toSnakeCase in *. cbn [flat_map filter].
  destruct (Publish.is_capital c) eqn:E.
  - pose proof (capital_lowered c E) as El.
    cbn [app forallb length flat_map]. rewrite El. cbn [negb andb app].
    rewrite IH1, IH2, IH3. repeat split. lia.
  - cbn [app forallb length flat_map]. rewrite E. cbn [negb andb app].
    rewrite IH1, IH2, IH3. now repeat split.
Qed.

(* ------------------------------------------------------------------ *)
(** ** Until-result emission over the tree, sync and async *)

Section TreeUntilResult.

Import PackTree.

Variable W : Type.

Lemma trySubPacks_ext (f g : Pack W -> M W (value * Pack W))
    (subs : list (jsstring * Pack W)) :
  (forall kp r, In kp subs -> f (snd kp) r = g (snd kp) r) ->
  forall r, trySubPacks f subs r = trySubPacks g subs r.
Proof.
  induction subs as [|[k q] subs IH]; intros H r; [reflexivity|].
  cbn [trySubPacks]. unfold bind, ret.
  pose proof (H (k, q) r (or_introl eq_refl)) as Hq. cbn [snd] in Hq.
  rewrite Hq. destruct (g q r) as [[res q'] r1].
  destruct res as [[|d]|s]; try reflexivity.
  generalize (IH (fun kp r0 Hin => H kp r0 (or_intror Hin)) r1).
  destruct (trySubPacks f subs r1) as [[v1 l1] r2].
  destruct (trySubPacks g subs r1) as [[v2 l2] r3].
  now intros [= -> -> ->].
Qed.

Lemma emitUntilResult_agree (ev : jsstring) (args : jsargs)
    (em : Emitter.ResultEventEmitter W) (r : Run W) :
  (forall e w, In e (Emitter.getListenerEntries ev em) ->
     Emitter.fulfilled_with_result
       (fst (fn_run (Emitter.entry_listener e) args w)) = false) ->
  Emitter.emitUntilResultAsync ev args em r
  = Emitter.emitUntilResult ev args em r.
Proof.
  intros H. unfold Emitter.emitUntilResultAsync, Emitter.emitUntilResult.
  unfold bind. now rewrite until_result_loops_agree.
Qed.

End TreeUntilResult.

(** X28: over a tree in which no listener of the event hands back a
    promise fulfilled with a result, [emitEventUntilResultAsync] gives
    the result, the packs and the run that [emitEventUntilResultSync]
    gives: the sync emission loses nothing there. *)
Theorem tree_until_result_async_agrees_with_sync :
  forall (W : Type) (ev : jsstring) (args : jsargs) (p : PackTree.Pack W)
         (r : Run W),
    PackTree.plain_listeners ev args (PackTree.preorder p) ->
    PackTree.emitEventUntilResultAsync ev args p r
    = PackTree.emitEventUntilResultSync ev args p r.
Proof.
  intros W ev args p.
  induction p as [id locs subs ints evs insps em IH]
    using (@Pack_tree_ind W).
  intros r Hp.
  cbn [PackTree.emitEventUntilResultAsync PackTree.emitEventUntilResultSync].
  unfold bind, ret.
  rewrite emitUntilResult_agree.
  2:{ intros e w He.
      apply (Hp (PackTree.mkPack id locs subs ints evs insps em) e w).
      - now left.
      - exact He. }
  destruct (Emitter.emitUntilResult ev args em r) as [[res em'] r1].
  destruct res as [[|d]|s]; try reflexivity.
  assert (Hsubs :
    PackTree.trySubPacks (PackTree.emitEventUntilResultAsync ev args) subs r1
    = PackTree.trySubPacks (PackTree.emitEventUntilResultSync ev args)
        subs r1).
  { apply trySubPacks_ext. intros [k q] r0 Hin. cbn [snd].
    rewrite Forall_forall in IH.
    apply (IH (k, q) Hin r0). intros q0 e w Hq He.
    apply (Hp q0 e w); [|exact He].
    cbn [PackTree.preorder PackTree.data_subPacks]. right. apply in_flat_map.
    exists (k, q). now split. }
  revert Hsubs.
  destruct (PackTree.trySubPacks (PackTree.emitEventUntilResultAsync ev args)
              subs r1) as [[v1 l1] r2].
  destruct (PackTree.trySubPacks (PackTree.emitEventUntilResultSync ev args)
              subs r1) as [[v2 l2] r3].
  now intros [= -> -> ->].
Qed.

Lemma tree_until_result_async_agrees_with_sync_witness :
  PackTree.plain_listeners (js "ping") []
    (PackTree.preorder (PackExample.parent (Plain Undefined))) /\
  fst (fst (PackTree.emitEventUntilResultAsync (js "ping") []
              (PackExample.parent (Plain Undefined)) PackExample.start))
  = Plain (Defined 1).
Proof.
  assert (H : PackTree.plain_listeners (js "ping") []
                (PackTree.preorder (PackExample.parent (Plain Undefined)))).
  { intros q e w Hq He. vm_compute in Hq.
    destruct Hq as [<-|[<-|[]]]; vm_compute in He;
      destruct He as [<-|[]]; reflexivity. }
  split; [exact H|].
  rewrite (@tree_until_result_async_agrees_with_sync unit (js "ping") []
             (PackExample.parent (Plain Undefined)) PackExample.start H).
  reflexivity.
Defined.

(* ------------------------------------------------------------------ *)
(** ** Names that pass, and event handlers by timestamp *)

Section NameValidation.

Import PackTree.

Variable W : Type.

Lemma too_long_test (name : jsstring) :
  (Nat.ltb 3 (length (split Pattern.SPACE name))
   || existsb (fun word => Nat.ltb 32 (length word))
        (split Pattern.SPACE name)) = true
  <-> too_long name.
Proof.
  unfold too_long. rewrite orb_true_iff, Nat.ltb_lt, existsb_exists.
  split; (intros [H|[word [Hw Hl]]]; [now left|right; exists word]).
  - split; [exact Hw|now apply Nat.ltb_lt].
  - split; [exact Hw|now apply Nat.ltb_lt].
Qed.

Lemma isSlashCommandValid_accepts (cfg : SlashCommandRegistrationConfig W)
    (combos : list jsstring) :
  isSlashCommandValid cfg combos = None
  <-> combos <> [] /\ forall name, In name combos -> ~ too_long name.
Proof.
  unfold isSlashCommandValid. destruct combos as [|c0 combos].
  - cbn. split; [discriminate|]. intros [H _]. now destruct H.
  - cbn [length Nat.eqb].
    match goal with |- context [existsb ?f ?l] =>
      destruct (existsb f l) eqn:E
    end.
    + split; [discriminate|]. intros [_ H]. exfalso.
      apply existsb_exists in E. destruct E as [parts [Hin Ht]].
      apply in_map_iff in Hin. destruct Hin as [name [<- Hin]].
      apply too_long_test in Ht. exact (H name Hin Ht).
    + split; [|reflexivity]. intros _. split; [discriminate|].
      intros name Hin Hlong. apply too_long_test in Hlong.
      assert (Hex : existsb
                (fun name0 =>
                   Nat.ltb 3 (length name0)
                   || existsb (fun word => Nat.ltb 32 (length word)) name0)
                (map (split Pattern.SPACE) (c0 :: combos)) = true).
      { apply existsb_exists. exists (split Pattern.SPACE name).
        split; [now apply in_map|exact Hlong]. }
      congruence.
Qed.

End NameValidation.

(** X29: which slash commands a pack takes: [slashCommand] goes through
    exactly when the id is not yet registered in the pack, the name
    expands to at least one combination, and every combination has at
    most 3 words of at most 32 code units each; the interaction it then
    stores carries those combinations. *)
Theorem slashCommand_accepts_exactly_valid_names :
  forall (W : Type) (generateCombinations : jsstring -> list jsstring)
         (cfg : PackTree.SlashCommandRegistrationConfig W)
         (p : PackTree.Pack W) (r : Run W),
    let run := PackTree.slashCommand generateCombinations cfg p r in
    let combos := generateCombinations (PackTree.slash_name cfg) in
    (fst (fst run) = Normal tt
     <-> has (PackTree.slash_id cfg) (PackTree.data_interactions p) = false
         /\ combos <> []
         /\ forall name, In name combos -> ~ PackTree.too_long name) /\
    (fst (fst run) = Normal tt ->
     exists x,
       get (PackTree.slash_id cfg)
         (PackTree.data_interactions (snd (fst run))) = Some x /\
       PackTree.i_nameCombinations x = Some combos /\
       PackTree.i_type x = PackTree.ChatInput).
Proof.
  intros W generateCombinations cfg p r run combos.
  assert (Hcases :
    (fst (fst run) <> Normal tt /\
     (has (PackTree.slash_id cfg) (PackTree.data_interactions p) = true
      \/ PackTree.isSlashCommandValid cfg combos <> None))
    \/ (fst (fst run) = Normal tt /\
        has (PackTree.slash_id cfg) (PackTree.data_interactions p) = false /\
        PackTree.isSlashCommandValid cfg combos = None /\
        PackTree.data_interactions (snd (fst run))
        = set (PackTree.slash_id cfg)
            (PackTree.interaction_of generateCombinations
               (PackTree.CallSlashCommand cfg))
            (PackTree.data_interactions p))).
  { unfold run, PackTree.slashCommand. fold combos.
    destruct (has (PackTree.slash_id cfg) (PackTree.data_interactions p))
      eqn:Hh.
    - left. split; [discriminate|now left].
    - destruct (PackTree.isSlashCommandValid cfg combos) as [e|] eqn:Ev.
      + left. split; [discriminate|]. right. discriminate.
      + right. unfold bind, ret.
        match goal with |- context [PackTree.register ?x p r] =>
          pose proof (register_interactions x p r) as Hi;
          destruct (PackTree.register x p r) as [p' r1]
        end.
        cbn [fst snd] in *. repeat split. exact Hi. }
  split.
  - rewrite <- (isSlashCommandValid_accepts cfg combos).
    destruct Hcases as [[Hne [Hh|Hv]]|[Hn [Hh [Hv _]]]].
    + split; [intros H; now destruct Hne|]. intros [H _]. congruence.
    + split; [intros H; now destruct Hne|]. intros [_ H]. now destruct Hv.
    + split; [intros _; now split|intros _; exact Hn].
  - intros Hn. destruct Hcases as [[Hne _]|[_ [_ [_ Hi]]]];
      [now destruct Hne|].
    exists (PackTree.interaction_of generateCombinations
              (PackTree.CallSlashCommand cfg)).
    rewrite Hi, get_set_same. repeat split.
Qed.

Section EventRegistration.

Import PackTree.

Variable W : Type.

Lemma eventId_same_stamp (p : Pack W) (name now1 now2 : jsstring) :
  eventId p name now1 = eventId p name now2 <-> now1 = now2.
Proof.
  unfold eventId. split; [|now intros ->].
  intros H. apply app_inv_head in H. injection H as H.
  apply app_inv_head in H. now injection H.
Qed.

End EventRegistration.

(** X30: event handlers are kept by pack id, event name and the
    millisecond of their registration.  Two handlers registered on one
    pack for the same event with different timestamps are both kept;
    with the same timestamp the second takes the place of the first,
    the number of entries does not grow, and the disposer of either one
    removes the entry that is left. *)
Theorem event_handlers_collide_within_a_millisecond :
  forall (W : Type) (now1 now2 : jsstring) (cfg1 cfg2 : PackTree.EventData W)
         (p : PackTree.Pack W),
    PackTree.event cfg1 = PackTree.event cfg2 ->
    NoDup (keys (PackTree.data_events p)) ->
    let p1 := PackTree.register_event now1 cfg1 p in
    let p2 := PackTree.register_event now2 cfg2 p1 in
    let id1 := PackTree.eventId p (PackTree.event cfg1) now1 in
    let id2 := PackTree.eventId p (PackTree.event cfg2) now2 in
    get id2 (PackTree.data_events p2) = Some cfg2 /\
    (now1 <> now2 -> get id1 (PackTree.data_events p2) = Some cfg1) /\
    (now1 = now2 ->
     keys (PackTree.data_events p2) = keys (PackTree.data_events p1) /\
     get id2
       (PackTree.data_events (PackTree.register_event_dispose now1 cfg1 p2))
     = None).
Proof.
  intros W now1 now2 cfg1 cfg2 p He Hn p1 p2 id1 id2.
  assert (E1 : PackTree.data_events p1 = set id1 cfg1 (PackTree.data_events p))
    by reflexivity.
  assert (E2 : PackTree.data_events p2
               = set id2 cfg2 (PackTree.data_events p1)) by reflexivity.
  split; [|split].
  - rewrite E2. apply get_set_same.
  - intros Hne. rewrite E2, get_set_other.
    + rewrite E1. apply get_set_same.
    + unfold id1, id2. rewrite <- He. intros H.
      apply eventId_same_stamp in H. contradiction.
  - intros ->. assert (Hid : id2 = id1) by (unfold id1, id2; now rewrite He).
    split.
    + rewrite E2, Hid. apply keys_set_present. rewrite E1.
      apply in_keys_set. now left.
    + assert (E3 : PackTree.data_events
                     (PackTree.register_event_dispose now2 cfg1 p2)
                   = delete id1 (PackTree.data_events p2)) by reflexivity.
      rewrite E3, Hid. apply get_delete_same.
      rewrite E2, E1. now apply NoDup_keys_set, NoDup_keys_set.
Qed.

Lemma event_handlers_collide_within_a_millisecond_witness :
  let first := {| PackTree.event := js "ready";
                  PackTree.handle := PackExample.handler 70 |} in
  let second := {| PackTree.event := js "ready";
                   PackTree.handle := PackExample.handler 71 |} in
  PackTree.event first = PackTree.event second /\
  NoDup (keys (PackTree.data_events PackExample.with_ping)) /\
  get (js "commands:ready:1700000000000")
    (PackTree.data_events
       (PackTree.register_event (js "1700000000000") second
          (PackTree.register_event (js "1700000000000") first
             PackExample.with_ping)))
  = Some second.
Proof.
  intros first second.
  assert (He : PackTree.event first = PackTree.event second) by reflexivity.
  assert (Hn : NoDup (keys (PackTree.data_events PackExample.with_ping)))
    by constructor.
  split; [exact He|]. split; [exact Hn|].
  exact (proj1 (@event_handlers_collide_within_a_millisecond unit
                  (js "1700000000000") (js "1700000000000") first second
                  PackExample.with_ping He Hn)).
Defined.

Lemma slashCommand_accepts_exactly_valid_names_witness :
  let cfg := PackExample.slash "pong" "pong (now)?" 23 in
  let combos :=
    Pattern.generateCombinations (PackTree.slash_name cfg) in
  has (PackTree.slash_id cfg)
    (PackTree.data_interactions PackExample.with_ping) = false /\
  combos <> [] /\
  (forall name, In name combos -> ~ PackTree.too_long name) /\
  fst (fst (PackTree.slashCommand Pattern.generateCombinations cfg
              PackExample.with_ping PackExample.start))
  = Normal tt.
Proof.
  intros cfg combos.
  assert (Hh : has (PackTree.slash_id cfg)
                 (PackTree.data_interactions PackExample.with_ping) = false)
    by reflexivity.
  assert (Hc : combos <> []) by discriminate.
  assert (Hv : forall name, In name combos -> ~ PackTree.too_long name).
  { intros name Hin. vm_compute in Hin.
    destruct Hin as [<-|[<-|[]]]; intros [Hl|[word [Hw Hl]]];
      vm_compute in Hl; try lia;
      vm_compute in Hw;
      repeat (destruct Hw as [<-|Hw]; [vm_compute in Hl; lia|]);
      destruct Hw. }
  split; [exact Hh|]. split; [exact Hc|]. split; [exact Hv|].
  apply (proj1 (@slashCommand_accepts_exactly_valid_names unit
                  Pattern.generateCombinations cfg PackExample.with_ping
                  PackExample.start)).
  split; [exact Hh|]. split; [exact Hc|exact Hv].
Defined.
